(** * DHCP client message codec: [dhcp_message.cc]

    A shallow embedding of [DHCPMessage::InitFromBuffer],
    [DHCPMessage::ParseDHCPOptions], [DHCPMessage::IsValid] and
    [DHCPMessage::ComputeChecksum], and the properties of the wire-message
    decoder that follow from the code. *)

From Stdlib Require Import ZArith List Lia Bool.
From Stdlib Require Import Strings.Byte.
From stdpp Require Import base gmap.
From Equations Require Import Equations.
Import ListNotations.

#[local] Open Scope Z_scope.

(* ===================================================================== *)
(** * Machine integers and bytes *)
(* ===================================================================== *)

(** [uint8_t], [uint16_t], [uint32_t] and [size_t] values are integers with
    the wrap-around of the C++ type written out. *)
Definition uint8 (z : Z) : Z := z mod 2 ^ 8.
Definition uint16 (z : Z) : Z := z mod 2 ^ 16.
Definition uint32 (z : Z) : Z := z mod 2 ^ 32.
Definition size_t (z : Z) : Z := z mod 2 ^ 64.

(** The value of a byte of memory, as an integer in [0, 255]. *)
Definition u8 (b : Byte.byte) : Z := Z.of_N (Byte.to_N b).

(** The byte holding the low eight bits of an integer. *)
Definition byte_of_Z (z : Z) : Byte.byte :=
  match Byte.of_N (Z.to_N (uint8 z)) with
  | Some b => b
  | None => Byte.x00
  end.

Lemma u8_range (b : Byte.byte) : 0 <= u8 b < 256.
Proof.
  unfold u8. pose proof (Byte.to_N_bounded b). lia.
Qed.

(* ===================================================================== *)
(** * ComputeChecksum *)
(* ===================================================================== *)

Module Checksum.

(** The [while (len > 1)] loop together with the [if (len == 1)] that
    follows it; [sum] is the [uint32_t] accumulator. *)
Fixpoint sum_loop (data : list byte) (sum : Z) : Z :=
  match data with
  | d0 :: d1 :: rest =>
      sum_loop rest (uint32 (sum + Z.lor (Z.shiftl (u8 d0) 8) (u8 d1)))
  | [d0] => uint32 (sum + Z.shiftl (u8 d0) 8)
  | [] => sum
  end.

(** The two folding statements and the final complement, on the value of
    [sum] the loop leaves. *)
Definition fold_complement (sum : Z) : Z :=
  let sum := uint32 (Z.shiftr sum 16 + Z.land sum 0xffff) in
  let sum := uint32 (sum + Z.shiftr sum 16) in
  uint16 (Z.lnot (uint16 sum)).

Definition ComputeChecksum (data : list byte) : Z :=
  fold_complement (sum_loop data 0).

(** Storing a 16-bit checksum into the stream, high byte first. *)
Definition checksum_bytes (c : Z) : list byte :=
  [byte_of_Z (Z.shiftr c 8); byte_of_Z (Z.land c 0xff)].

(** The unbounded sum of the big-endian 16-bit words of [data], an odd
    trailing byte counted as the high byte of a last word. *)
Fixpoint word_sum (data : list byte) : Z :=
  match data with
  | d0 :: d1 :: rest => (u8 d0 * 256 + u8 d1) + word_sum rest
  | [d0] => u8 d0 * 256
  | [] => 0
  end.

(** The checksum in the words of the design, to compare the code with:
    the byte sequence folded into 16-bit big-endian words (an odd trailing
    byte in the high-order position of a last, padded word), summed with
    end-around carry, and the ones' complement of the 16-bit sum. *)
Fixpoint be_words (data : list Byte.byte) : list Z :=
  match data with
  | d0 :: d1 :: rest => (u8 d0 * 256 + u8 d1) :: be_words rest
  | [d0] => [u8 d0 * 256]
  | [] => []
  end.

Definition end_around_add (a b : Z) : Z :=
  let t := a + b in t mod 2 ^ 16 + t / 2 ^ 16.

Definition spec_internet_checksum (data : list Byte.byte) : Z :=
  0xffff - fold_left end_around_add (be_words data) 0.

(** The value in [0, 65535] that stands for a sum [t >= 0] in ones'
    complement arithmetic: 0 for 0, and otherwise the one of 1 .. 65535
    congruent to [t] modulo 65535. *)
Definition end_around (t : Z) : Z :=
  if t =? 0 then 0 else (t - 1) mod 65535 + 1.

End Checksum.

(* ===================================================================== *)
(** * The decoded message *)
(* ===================================================================== *)

Module Decoder.

(** Constants of the anonymous namespace of [dhcp_message.cc]. *)
Definition kClientHardwareAddressLength : Z := 16.
Definition kServerNameLength : Z := 64.
Definition kBootFileLength : Z := 128.
Definition kDHCPOptionLength : Z := 312.
Definition kMagicCookie : Z := 0x63825363.
Definition kDHCPMessageMaxLength : Z := 548.
Definition kDHCPMessageMinLength : Z := 236.
Definition kDHCPMessageBootRequest : Z := 1.
Definition kDHCPMessageBootReply : Z := 2.

Definition kDHCPOptionPad : Z := 0.
Definition kDHCPOptionDNSServer : Z := 6.
Definition kDHCPOptionLeaseTime : Z := 51.
Definition kDHCPOptionMessageType : Z := 53.
Definition kDHCPOptionServerIdentifier : Z := 54.
Definition kDHCPOptionRenewalTime : Z := 58.
Definition kDHCPOptionRebindingTime : Z := 59.
Definition kDHCPOptionEnd : Z := 255.

(** [ARPHRD_ETHER] of <net/if_arp.h> and [IFHWADDRLEN] of <net/if.h>. *)
Definition ARPHRD_ETHER : Z := 1.
Definition IFHWADDRLEN : Z := 6.

(** Byte offsets of the members of the packed [RawDHCPMessage]. *)
Module Raw.
Definition op : Z := 0.
Definition htype : Z := 1.
Definition hlen : Z := 2.
Definition hops : Z := 3.
Definition xid : Z := 4.
Definition secs : Z := 8.
Definition flags : Z := 10.
Definition ciaddr : Z := 12.
Definition yiaddr : Z := 16.
Definition siaddr : Z := 20.
Definition giaddr : Z := 24.
Definition chaddr : Z := 28.
Definition sname : Z := chaddr + kClientHardwareAddressLength.
Definition file : Z := sname + kServerNameLength.
Definition cookie : Z := file + kBootFileLength.
Definition options : Z := cookie + 4.
End Raw.

(** The data members of [DHCPMessage] that the decoder writes. *)
Record DHCPMessage : Type := mkDHCPMessage {
  opcode_ : Z;
  hardware_address_type_ : Z;
  hardware_address_length_ : Z;
  relay_hops_ : Z;
  transaction_id_ : Z;
  seconds_ : Z;
  flags_ : Z;
  client_ip_address_ : Z;
  your_ip_address_ : Z;
  next_server_ip_address_ : Z;
  agent_ip_address_ : Z;
  cookie_ : Z;
  client_hardware_address_ : list Byte.byte;
  servername_ : list Byte.byte;
  bootfile_ : list Byte.byte;
  message_type_ : Z;
  lease_time_ : Z;
  renewal_time_ : Z;
  rebinding_time_ : Z;
  server_identifier_ : Z;
  dns_server_ : list Z
}.

(** The values the fixed header of a datagram provides, in the order in
    which [InitFromBuffer] assigns them. *)
Record Header : Type := mkHeader {
  h_op : Z; h_htype : Z; h_hlen : Z; h_hops : Z; h_xid : Z; h_secs : Z;
  h_flags : Z; h_ciaddr : Z; h_yiaddr : Z; h_siaddr : Z; h_giaddr : Z;
  h_cookie : Z;
  h_chaddr : list Byte.byte; h_sname : list Byte.byte; h_file : list Byte.byte
}.

(** The assignments of lines 111 to 132: every fixed-header member is
    overwritten, the option members are left as they are. *)
Definition assign_header (h : Header) (m : DHCPMessage) : DHCPMessage :=
  {| opcode_ := h_op h;
     hardware_address_type_ := h_htype h;
     hardware_address_length_ := h_hlen h;
     relay_hops_ := h_hops h;
     transaction_id_ := h_xid h;
     seconds_ := h_secs h;
     flags_ := h_flags h;
     client_ip_address_ := h_ciaddr h;
     your_ip_address_ := h_yiaddr h;
     next_server_ip_address_ := h_siaddr h;
     agent_ip_address_ := h_giaddr h;
     cookie_ := h_cookie h;
     client_hardware_address_ := h_chaddr h;
     servername_ := h_sname h;
     bootfile_ := h_file h;
     message_type_ := message_type_ m;
     lease_time_ := lease_time_ m;
     renewal_time_ := renewal_time_ m;
     rebinding_time_ := rebinding_time_ m;
     server_identifier_ := server_identifier_ m;
     dns_server_ := dns_server_ m |}.

(** The fixed-header members of a message, read back as a [Header]. *)
Definition header_of (m : DHCPMessage) : Header :=
  {| h_op := opcode_ m; h_htype := hardware_address_type_ m;
     h_hlen := hardware_address_length_ m; h_hops := relay_hops_ m;
     h_xid := transaction_id_ m; h_secs := seconds_ m; h_flags := flags_ m;
     h_ciaddr := client_ip_address_ m; h_yiaddr := your_ip_address_ m;
     h_siaddr := next_server_ip_address_ m; h_giaddr := agent_ip_address_ m;
     h_cookie := cookie_ m; h_chaddr := client_hardware_address_ m;
     h_sname := servername_ m; h_file := bootfile_ m |}.

(** Writes through the [output] pointers of the option table. *)
Definition set_message_type (v : Z) (m : DHCPMessage) : DHCPMessage :=
  {| message_type_ := v;
     lease_time_ := lease_time_ m; renewal_time_ := renewal_time_ m;
     rebinding_time_ := rebinding_time_ m;
     server_identifier_ := server_identifier_ m; dns_server_ := dns_server_ m;
     opcode_ := opcode_ m; hardware_address_type_ := hardware_address_type_ m;
     hardware_address_length_ := hardware_address_length_ m;
     relay_hops_ := relay_hops_ m; transaction_id_ := transaction_id_ m;
     seconds_ := seconds_ m; flags_ := flags_ m;
     client_ip_address_ := client_ip_address_ m;
     your_ip_address_ := your_ip_address_ m;
     next_server_ip_address_ := next_server_ip_address_ m;
     agent_ip_address_ := agent_ip_address_ m; cookie_ := cookie_ m;
     client_hardware_address_ := client_hardware_address_ m;
     servername_ := servername_ m; bootfile_ := bootfile_ m |}.

Definition set_lease_time (v : Z) (m : DHCPMessage) : DHCPMessage :=
  {| lease_time_ := v;
     message_type_ := message_type_ m; renewal_time_ := renewal_time_ m;
     rebinding_time_ := rebinding_time_ m;
     server_identifier_ := server_identifier_ m; dns_server_ := dns_server_ m;
     opcode_ := opcode_ m; hardware_address_type_ := hardware_address_type_ m;
     hardware_address_length_ := hardware_address_length_ m;
     relay_hops_ := relay_hops_ m; transaction_id_ := transaction_id_ m;
     seconds_ := seconds_ m; flags_ := flags_ m;
     client_ip_address_ := client_ip_address_ m;
     your_ip_address_ := your_ip_address_ m;
     next_server_ip_address_ := next_server_ip_address_ m;
     agent_ip_address_ := agent_ip_address_ m; cookie_ := cookie_ m;
     client_hardware_address_ := client_hardware_address_ m;
     servername_ := servername_ m; bootfile_ := bootfile_ m |}.

Definition set_server_identifier (v : Z) (m : DHCPMessage) : DHCPMessage :=
  {| server_identifier_ := v;
     message_type_ := message_type_ m; lease_time_ := lease_time_ m;
     renewal_time_ := renewal_time_ m; rebinding_time_ := rebinding_time_ m;
     dns_server_ := dns_server_ m;
     opcode_ := opcode_ m; hardware_address_type_ := hardware_address_type_ m;
     hardware_address_length_ := hardware_address_length_ m;
     relay_hops_ := relay_hops_ m; transaction_id_ := transaction_id_ m;
     seconds_ := seconds_ m; flags_ := flags_ m;
     client_ip_address_ := client_ip_address_ m;
     your_ip_address_ := your_ip_address_ m;
     next_server_ip_address_ := next_server_ip_address_ m;
     agent_ip_address_ := agent_ip_address_ m; cookie_ := cookie_ m;
     client_hardware_address_ := client_hardware_address_ m;
     servername_ := servername_ m; bootfile_ := bootfile_ m |}.

Definition set_renewal_time (v : Z) (m : DHCPMessage) : DHCPMessage :=
  {| renewal_time_ := v;
     message_type_ := message_type_ m; lease_time_ := lease_time_ m;
     rebinding_time_ := rebinding_time_ m;
     server_identifier_ := server_identifier_ m; dns_server_ := dns_server_ m;
     opcode_ := opcode_ m; hardware_address_type_ := hardware_address_type_ m;
     hardware_address_length_ := hardware_address_length_ m;
     relay_hops_ := relay_hops_ m; transaction_id_ := transaction_id_ m;
     seconds_ := seconds_ m; flags_ := flags_ m;
     client_ip_address_ := client_ip_address_ m;
     your_ip_address_ := your_ip_address_ m;
     next_server_ip_address_ := next_server_ip_address_ m;
     agent_ip_address_ := agent_ip_address_ m; cookie_ := cookie_ m;
     client_hardware_address_ := client_hardware_address_ m;
     servername_ := servername_ m; bootfile_ := bootfile_ m |}.

Definition set_rebinding_time (v : Z) (m : DHCPMessage) : DHCPMessage :=
  {| rebinding_time_ := v;
     message_type_ := message_type_ m; lease_time_ := lease_time_ m;
     renewal_time_ := renewal_time_ m;
     server_identifier_ := server_identifier_ m; dns_server_ := dns_server_ m;
     opcode_ := opcode_ m; hardware_address_type_ := hardware_address_type_ m;
     hardware_address_length_ := hardware_address_length_ m;
     relay_hops_ := relay_hops_ m; transaction_id_ := transaction_id_ m;
     seconds_ := seconds_ m; flags_ := flags_ m;
     client_ip_address_ := client_ip_address_ m;
     your_ip_address_ := your_ip_address_ m;
     next_server_ip_address_ := next_server_ip_address_ m;
     agent_ip_address_ := agent_ip_address_ m; cookie_ := cookie_ m;
     client_hardware_address_ := client_hardware_address_ m;
     servername_ := servername_ m; bootfile_ := bootfile_ m |}.

Definition set_dns_server (v : list Z) (m : DHCPMessage) : DHCPMessage :=
  {| dns_server_ := v;
     message_type_ := message_type_ m; lease_time_ := lease_time_ m;
     renewal_time_ := renewal_time_ m; rebinding_time_ := rebinding_time_ m;
     server_identifier_ := server_identifier_ m;
     opcode_ := opcode_ m; hardware_address_type_ := hardware_address_type_ m;
     hardware_address_length_ := hardware_address_length_ m;
     relay_hops_ := relay_hops_ m; transaction_id_ := transaction_id_ m;
     seconds_ := seconds_ m; flags_ := flags_ m;
     client_ip_address_ := client_ip_address_ m;
     your_ip_address_ := your_ip_address_ m;
     next_server_ip_address_ := next_server_ip_address_ m;
     agent_ip_address_ := agent_ip_address_ m; cookie_ := cookie_ m;
     client_hardware_address_ := client_hardware_address_ m;
     servername_ := servername_ m; bootfile_ := bootfile_ m |}.

(* ===================================================================== *)
(** * Failures, memory and the decoding monad *)
(* ===================================================================== *)

(** Every [return false] of the decoder, named after the condition it logs
    (the error taxonomy of the design). The C++ functions return [bool]:
    [true] is [inr], [false] is [inl] of the site that returned. *)
Inductive DecodeError : Type :=
| InvalidLength
| InvalidMessage
| MissingMessageType
| TruncatedOption
| DuplicateOption
| OptionDecodeError (tag : Z)
| UnterminatedOptions.

(** Memory as seen from the address [buffer]: the byte at each offset.
    Offsets [0 .. length-1] are the caller's datagram, the others are
    whatever lies next to it. *)
Definition memory : Type := Z -> Byte.byte.

(** What a call can change or leave behind: the message it writes into,
    and the offsets it has read, oldest first. *)
Record State : Type := mkState {
  message : DHCPMessage;
  reads : list Z
}.

(** A computation that reads memory, writes the message and may return
    [false] early; the state survives a failure. *)
Definition M (A : Type) : Type := State -> (DecodeError + A) * State.

Definition ret {A} (a : A) : M A := fun s => (inr a, s).

Definition fail {A} (e : DecodeError) : M A := fun s => (inl e, s).

Definition bind {A B} (c : M A) (k : A -> M B) : M B :=
  fun s =>
    match c s with
    | (inl e, s') => (inl e, s')
    | (inr a, s') => k a s'
    end.

Notation "x <- c ;; k" := (bind c (fun x => k))
  (at level 100, c at next level, right associativity).
Notation "c ;;; k" := (bind c (fun _ => k))
  (at level 100, right associativity).

Definition modify_message (f : DHCPMessage -> DHCPMessage) : M unit :=
  fun s => (inr tt, {| message := f (message s); reads := reads s |}).

Definition get_message : M DHCPMessage := fun s => (inr (message s), s).

(* ===================================================================== *)
(** * Reading the buffer *)
(* ===================================================================== *)

Section Decode.

Variable mem : memory.

(** One byte read through a pointer: the offset is recorded. *)
Definition load_byte (a : Z) : M Byte.byte :=
  fun s => (inr (mem a), {| message := message s; reads := reads s ++ [a] |}).

Definition load_u8 (a : Z) : M Z :=
  b <- load_byte a ;; ret (u8 b).

(** [ntohs] and [ntohl] of a field of the packed struct: the bytes at the
    field's offset, most significant first. *)
Definition load_be16 (a : Z) : M Z :=
  b0 <- load_u8 a ;;
  b1 <- load_u8 (a + 1) ;;
  ret (Z.lor (Z.shiftl b0 8) b1).

Definition load_be32 (a : Z) : M Z :=
  b0 <- load_u8 a ;;
  b1 <- load_u8 (a + 1) ;;
  b2 <- load_u8 (a + 2) ;;
  b3 <- load_u8 (a + 3) ;;
  ret (Z.lor (Z.shiftl b0 24)
         (Z.lor (Z.shiftl b1 16) (Z.lor (Z.shiftl b2 8) b3))).

(** A copy of [n] bytes starting at [a], as [ByteString(data, length)] and
    [std::string::assign(data, count)] make it. *)
Fixpoint load_bytes (a : Z) (n : nat) : M (list Byte.byte) :=
  match n with
  | O => ret []
  | S n' =>
      b <- load_byte a ;;
      bs <- load_bytes (a + 1) n' ;;
      ret (b :: bs)
  end.

(* ===================================================================== *)
(** * The option table and its parsers *)
(* ===================================================================== *)

(** A [ParserContext]: which parser decodes the option, and the member of
    the message its [output] pointer designates. *)
Inductive ParserContext : Type :=
| UInt8Context (output : Z -> DHCPMessage -> DHCPMessage)
| UInt32Context (output : Z -> DHCPMessage -> DHCPMessage)
| UInt32ListContext (output : list Z -> DHCPMessage -> DHCPMessage).

(** The table the constructor [DHCPMessage::DHCPMessage] fills. *)
Definition options_map_ : gmap Z ParserContext :=
  <[kDHCPOptionDNSServer := UInt32ListContext set_dns_server]>
  (<[kDHCPOptionRebindingTime := UInt32Context set_rebinding_time]>
  (<[kDHCPOptionRenewalTime := UInt32Context set_renewal_time]>
  (<[kDHCPOptionServerIdentifier := UInt32Context set_server_identifier]>
  (<[kDHCPOptionLeaseTime := UInt32Context set_lease_time]>
  (<[kDHCPOptionMessageType := UInt8Context set_message_type]> ∅))))).

(** The elements of a list option, in wire order. *)
Fixpoint load_be32_list (a : Z) (n : nat) : M (list Z) :=
  match n with
  | O => ret []
  | S n' =>
      v <- load_be32 a ;;
      vs <- load_be32_list (a + 4) n' ;;
      ret (v :: vs)
  end.

(** Modelled from the spec: [GetOption] of the parser classes
    ([UInt8Parser], [UInt32Parser], [UInt32ListParser]), which are defined
    outside [dhcp_message.cc]. A fixed-width
    unsigned integer of 1 or 4 bytes fails if the declared length is not
    the expected width; a list of fixed-width unsigned integers fails if
    the declared length is not a positive multiple of the element width and
    produces the elements in wire order. [None] is the [false] result. *)
Definition GetOption (context : ParserContext) (buffer : Z) (length : Z)
  : M (option unit) :=
  match context with
  | UInt8Context output =>
      if length =? 1 then
        v <- load_u8 buffer ;;
        modify_message (output v) ;;;
        ret (Some tt)
      else ret None
  | UInt32Context output =>
      if length =? 4 then
        v <- load_be32 buffer ;;
        modify_message (output v) ;;;
        ret (Some tt)
      else ret None
  | UInt32ListContext output =>
      if (length =? 0) || negb (length mod 4 =? 0) then ret None
      else
        vs <- load_be32_list buffer (Z.to_nat (length / 4)) ;;
        modify_message (output vs) ;;;
        ret (Some tt)
  end.

(* ===================================================================== *)
(** * ParseDHCPOptions *)
(* ===================================================================== *)

(** How one turn of the [while] loop ends when it does not return
    [false]: [return true], or the next turn with the new [ptr] and
    [options_set]. *)
Inductive Control : Type :=
| ReturnTrue
| Continue (ptr : Z) (options_set : gset Z).

(** The body of [while (ptr < end_ptr)], entered with [ptr < end_ptr]. *)
Definition loop_body (end_ptr : Z) (ptr : Z) (options_set : gset Z)
  : M Control :=
  option_number <- load_u8 ptr ;;
  let ptr := ptr + 1 in
  if option_number =? kDHCPOptionPad then
    ret (Continue ptr options_set)
  else if option_number =? kDHCPOptionEnd then
    if bool_decide (kDHCPOptionMessageType ∈ options_set)
    then ret ReturnTrue
    else fail MissingMessageType
  else if end_ptr <=? ptr then
    fail TruncatedOption
  else
    option_length <- load_u8 ptr ;;
    let ptr := ptr + 1 in
    if end_ptr <=? ptr + option_length then
      fail TruncatedOption
    else if bool_decide (option_number ∈ options_set) then
      fail DuplicateOption
    else
      match options_map_ !! option_number with
      | Some context =>
          ok <- GetOption context ptr option_length ;;
          match ok with
          | None => fail (OptionDecodeError option_number)
          | Some _ =>
              ret (Continue (ptr + option_length)
                     (options_set ∪ {[option_number]}))
          end
      | None => ret (Continue (ptr + option_length) options_set)
      end.

(** A turn that goes on to the next one has moved [ptr] forward. *)
Lemma loop_body_advances end_ptr ptr options_set s ptr' options_set' s' :
  loop_body end_ptr ptr options_set s = (inr (Continue ptr' options_set'), s') ->
  ptr < ptr'.
Proof.
  unfold loop_body, bind, load_u8, load_byte, ret, fail. cbn.
  pose proof (u8_range (mem (ptr + 1))) as Hlen.
  repeat (match goal with
          | |- context [if ?c then _ else _] => destruct c
          | |- context [match ?x !! ?k with _ => _ end] => destruct (x !! k)
          | |- context [match GetOption ?c ?p ?l ?s with _ => _ end] =>
              destruct (GetOption c p l s) as [[?|[?|]] ?]
          end; cbn);
    intros [= <- _ _] || discriminate; lia.
Qed.

(** The [while] loop: it stops with [false] when [ptr] has reached
    [end_ptr], when its body returns [false], and with [true] when the
    body returns [true]. *)
Equations? parse_loop (end_ptr ptr : Z) (options_set : gset Z) (s : State)
  : (DecodeError + unit) * State
  by wf (Z.to_nat (end_ptr - ptr)) lt :=
  parse_loop end_ptr ptr options_set s with Z_lt_dec ptr end_ptr := {
    | right _ := (inl UnterminatedOptions, s)
    | left Hlt with Equations.Prop.Logic.inspect (loop_body end_ptr ptr options_set s) := {
        | exist _ (inl e, s') _ := (inl e, s')
        | exist _ (inr ReturnTrue, s') _ := (inr tt, s')
        | exist _ (inr (Continue ptr' options_set'), s') Hbody :=
            parse_loop end_ptr ptr' options_set' s' } }.
Proof.
  apply loop_body_advances in Hbody. lia.
Qed.

(** Pointers are offsets from [buffer]. The sum [options + options_length]
    wraps at the width of a pointer, which is that of [size_t]; this
    matters for the lengths 236 to 238 only, where [options_length] is the
    wrapped negative number [length - 239] and [end_ptr] comes out below
    [options]. *)
Definition ParseDHCPOptions (options : Z) (options_length : Z) : M unit :=
  let ptr := options in
  let end_ptr := size_t (options + options_length) in
  parse_loop end_ptr ptr ∅.

(* ===================================================================== *)
(** * IsValid and InitFromBuffer *)
(* ===================================================================== *)

Definition IsValid (m : DHCPMessage) : bool :=
  if negb (opcode_ m =? kDHCPMessageBootReply) then false
  else if negb (hardware_address_type_ m =? ARPHRD_ETHER) then false
  else if negb (hardware_address_length_ m =? IFHWADDRLEN) then false
  else if negb (seconds_ m =? 0) then false
  else if negb (flags_ m =? 0) then false
  else if negb (cookie_ m =? kMagicCookie) then false
  else true.

(** Lines 111 to 132: the reads of the packed struct, in program order. *)
Definition read_header : M Header :=
  op <- load_u8 Raw.op ;;
  htype <- load_u8 Raw.htype ;;
  hlen <- load_u8 Raw.hlen ;;
  (* hlen > kClientHardwareAddressLength is logged, nothing else *)
  hops <- load_u8 Raw.hops ;;
  xid <- load_be32 Raw.xid ;;
  secs <- load_be16 Raw.secs ;;
  flags <- load_be16 Raw.flags ;;
  ciaddr <- load_be32 Raw.ciaddr ;;
  yiaddr <- load_be32 Raw.yiaddr ;;
  siaddr <- load_be32 Raw.siaddr ;;
  giaddr <- load_be32 Raw.giaddr ;;
  cookie <- load_be32 Raw.cookie ;;
  chaddr <- load_bytes Raw.chaddr (Z.to_nat hlen) ;;
  sname <- load_bytes Raw.sname (Z.to_nat kServerNameLength) ;;
  file <- load_bytes Raw.file (Z.to_nat kBootFileLength) ;;
  ret (mkHeader op htype hlen hops xid secs flags ciaddr yiaddr siaddr
         giaddr cookie chaddr sname file).

End Decode.

(** [InitFromBuffer(buffer, length, message)]; [None] is the null
    pointer, and the message is the one of the state the call starts in.
    [raw_message] is the offset 0, so that [options_length] is
    [raw_message + length - raw_message->options + 1] converted to
    [size_t]. The header members are assigned together once they are all
    read; nothing can fail or observe the message in between. *)
Definition InitFromBuffer (buffer : option memory) (length : Z) : M unit :=
  match buffer with
  | None => fail InvalidLength
  | Some mem =>
      if (length <? kDHCPMessageMinLength) || (kDHCPMessageMaxLength <? length)
      then fail InvalidLength
      else
        let options_length := size_t (0 + length - Raw.options + 1) in
        h <- read_header mem ;;
        modify_message (assign_header h) ;;;
        m <- get_message ;;
        if negb (IsValid m) then fail InvalidMessage
        else ParseDHCPOptions mem Raw.options options_length
  end.

(* ===================================================================== *)
(** * The course of a scan *)
(* ===================================================================== *)

(** The state a call is left in after reading the offsets [l]. *)
Definition logged (s : State) (l : list Z) : State :=
  {| message := message s; reads := reads s ++ l |}.

(** [scans mem end_ptr ptr set s tags ptr' set' s']: the loop, entered
    with [ptr], [set] and state [s], comes to the head of a later turn with
    [ptr'], [set'] and [s'], every turn in between having gone on to the
    next (no [return], so no END tag and no failure on the way); [tags]
    are the tag bytes these turns have met, in order, PAD included. *)
Inductive scans (mem : memory) (end_ptr : Z)
  : Z -> gset Z -> State -> list Z -> Z -> gset Z -> State -> Prop :=
| scans_here ptr options_set s :
    scans mem end_ptr ptr options_set s [] ptr options_set s
| scans_turn ptr options_set s ptr1 options_set1 s1 tags
             ptr2 options_set2 s2 :
    ptr < end_ptr ->
    loop_body mem end_ptr ptr options_set s
      = (inr (Continue ptr1 options_set1), s1) ->
    scans mem end_ptr ptr1 options_set1 s1 tags ptr2 options_set2 s2 ->
    scans mem end_ptr ptr options_set s (u8 (mem ptr) :: tags)
      ptr2 options_set2 s2.

(** The effect a piece of the decoder run between [s] and [s'] may have:
    the fixed-header members keep their values, and every offset read
    lies in [lo, hi). *)
Definition confined (lo hi : Z) (s s' : State) : Prop :=
  header_of (message s') = header_of (message s)
  /\ exists l, reads s' = reads s ++ l /\ Forall (fun a => lo <= a < hi) l.

(** The failures that belong to the option scan. *)
Definition scan_error (e : DecodeError) : Prop :=
  e <> InvalidLength /\ e <> InvalidMessage.

(* ===================================================================== *)
(** * What the header reads amount to *)
(* ===================================================================== *)

(** The offsets [a, a+1, ..., a+n-1]. *)
Definition offsets (a : Z) (n : nat) : list Z :=
  map (fun i => a + Z.of_nat i) (seq 0 n).

Definition bytes_at (mem : memory) (a : Z) (n : nat) : list Byte.byte :=
  map mem (offsets a n).

Definition be16_at (mem : memory) (a : Z) : Z :=
  Z.lor (Z.shiftl (u8 (mem a)) 8) (u8 (mem (a + 1))).

Definition be32_at (mem : memory) (a : Z) : Z :=
  Z.lor (Z.shiftl (u8 (mem a)) 24)
    (Z.lor (Z.shiftl (u8 (mem (a + 1))) 16)
       (Z.lor (Z.shiftl (u8 (mem (a + 2))) 8) (u8 (mem (a + 3))))).

(** The header values held by the memory at the offsets of the struct. *)
Definition header_at (mem : memory) : Header :=
  {| h_op := u8 (mem Raw.op);
     h_htype := u8 (mem Raw.htype);
     h_hlen := u8 (mem Raw.hlen);
     h_hops := u8 (mem Raw.hops);
     h_xid := be32_at mem Raw.xid;
     h_secs := be16_at mem Raw.secs;
     h_flags := be16_at mem Raw.flags;
     h_ciaddr := be32_at mem Raw.ciaddr;
     h_yiaddr := be32_at mem Raw.yiaddr;
     h_siaddr := be32_at mem Raw.siaddr;
     h_giaddr := be32_at mem Raw.giaddr;
     h_cookie := be32_at mem Raw.cookie;
     h_chaddr := bytes_at mem Raw.chaddr (Z.to_nat (u8 (mem Raw.hlen)));
     h_sname := bytes_at mem Raw.sname (Z.to_nat kServerNameLength);
     h_file := bytes_at mem Raw.file (Z.to_nat kBootFileLength) |}.

(** The offsets [read_header] reads, in order. *)
Definition header_reads (mem : memory) : list Z :=
  offsets Raw.op 28 ++ offsets Raw.cookie 4
  ++ offsets Raw.chaddr (Z.to_nat (u8 (mem Raw.hlen)))
  ++ offsets Raw.sname (Z.to_nat kServerNameLength)
  ++ offsets Raw.file (Z.to_nat kBootFileLength).

(** The state [InitFromBuffer] is in when it calls [IsValid]. *)
Definition after_header (mem : memory) (s : State) : State :=
  {| message := assign_header (header_at mem) (message s);
     reads := reads s ++ header_reads mem |}.

(** The six tests of [IsValid], on the values of a header. *)
Definition header_invariants (h : Header) : Prop :=
  h_op h = kDHCPMessageBootReply /\
  h_htype h = ARPHRD_ETHER /\
  h_hlen h = IFHWADDRLEN /\
  h_secs h = 0 /\
  h_flags h = 0 /\
  h_cookie h = kMagicCookie.

(** The [n] big-endian 32-bit values from offset [a] on. *)
Definition be32_list_at (mem : memory) (a : Z) (n : nat) : list Z :=
  map (fun i => be32_at mem (a + 4 * Z.of_nat i)) (seq 0 n).

(** A table entry whose [output] designates one of the option members:
    writing through it leaves the fixed-header members alone. *)
Definition keeps_header (context : ParserContext) : Prop :=
  match context with
  | UInt8Context output | UInt32Context output =>
      forall v m, header_of (output v m) = header_of m
  | UInt32ListContext output =>
      forall v m, header_of (output v m) = header_of m
  end.

(** The option member the table entry of [tag] designates (the [&member]
    of lines 80 to 91), as the list of its values; empty for a tag without
    an entry. *)
Definition option_member (tag : Z) (m : DHCPMessage) : list Z :=
  if tag =? kDHCPOptionMessageType then [message_type_ m]
  else if tag =? kDHCPOptionLeaseTime then [lease_time_ m]
  else if tag =? kDHCPOptionServerIdentifier then [server_identifier_ m]
  else if tag =? kDHCPOptionRenewalTime then [renewal_time_ m]
  else if tag =? kDHCPOptionRebindingTime then [rebinding_time_ m]
  else if tag =? kDHCPOptionDNSServer then dns_server_ m
  else [].

(** A table entry whose [output] does not designate the member of [tag]. *)
Definition keeps_member (tag : Z) (context : ParserContext) : Prop :=
  match context with
  | UInt8Context output | UInt32Context output =>
      forall v m, option_member tag (output v m) = option_member tag m
  | UInt32ListContext output =>
      forall v m, option_member tag (output v m) = option_member tag m
  end.

(* ===================================================================== *)
(** * Datagrams used as examples *)
(* ===================================================================== *)

(** A memory holding the bytes [l] from offset 0 on, zero elsewhere. *)
Definition memory_of (l : list Z) : memory :=
  fun a => if a <? 0 then Byte.x00
           else nth (Z.to_nat a) (map byte_of_Z l) Byte.x00.

(** The 240 bytes of a BOOTREPLY header with the magic cookie:
    op 2, htype 1, hlen [hlen], hops 0, xid 0x01020304, secs 0, flags 0,
    yiaddr 192.168.1.100, a hardware address of sixteen bytes 0xAA, and
    sname and file filled with 0x53 and 0x46. *)
Definition reply_header (hlen : Z) : list Z :=
  [2; 1; hlen; 0; 1; 2; 3; 4; 0; 0; 0; 0]
  ++ [0; 0; 0; 0; 192; 168; 1; 100; 0; 0; 0; 0; 0; 0; 0; 0]
  ++ repeat 0xAA 16 ++ repeat 0x53 64 ++ repeat 0x46 128
  ++ [0x63; 0x82; 0x53; 0x63].

(** A message with every member zero or empty, and the state of a call
    that starts with it. *)
Definition blank_message : DHCPMessage :=
  mkDHCPMessage 0 0 0 0 0 0 0 0 0 0 0 0 [] [] [] 0 0 0 0 0 [].

Definition blank : State := {| message := blank_message; reads := [] |}.

(** A 243-byte datagram: the header and the option 53 of length 1 and
    value 5, with nothing after it; [next] is the byte that happens to lie
    behind the datagram in memory. *)
Definition unterminated_reply (next : Z) : memory :=
  memory_of (reply_header 6 ++ [53; 1; 5] ++ [next]).

(** A 244-byte datagram without an END tag: the header, the option 53 of
    length 1 and value 5, and one PAD byte; [next] is the byte that happens
    to lie behind the datagram in memory. *)
Definition padded_reply (next : Z) : memory :=
  memory_of (reply_header 6 ++ [53; 1; 5; 0] ++ [next]).

(** A 236-byte datagram whose [hlen] is 255, followed in memory by bytes
    0xEE that are not part of it. *)
Definition long_hlen_frame : memory :=
  memory_of (firstn 236 (reply_header 255) ++ repeat 0xEE 64).

(** Two memories that hold the same bytes at the offsets [lo <= a < hi]. *)
Definition agree (mem1 mem2 : memory) (lo hi : Z) : Prop :=
  forall a : Z, lo <= a < hi -> mem1 a = mem2 a.

End Decoder.

(* ===================================================================== *)
(** * Facts about bytes *)
(* ===================================================================== *)

Lemma u8_byte_of_Z (z : Z) : u8 (byte_of_Z z) = uint8 z.
Proof.
  unfold byte_of_Z, u8.
  assert (Hr : 0 <= uint8 z < 256) by (unfold uint8; apply Z.mod_pos_bound; lia).
  destruct (Byte.of_N (Z.to_N (uint8 z))) as [b|] eqn:E.
  - apply Byte.to_of_N in E. rewrite E. lia.
  - apply Byte.of_N_None_iff in E. lia.
Qed.

Lemma u8_x00 : u8 Byte.x00 = 0.
Proof. reflexivity. Qed.

(* ===================================================================== *)
(** * The fixed header *)
(* ===================================================================== *)

Module HeaderFacts.
Import Decoder.

Lemma offsets_succ a n : offsets a (S n) = a :: offsets (a + 1) n.
Proof.
  unfold offsets. cbn [seq map]. f_equal; [lia|].
  rewrite <- seq_shift, map_map. apply map_ext. intros i. lia.
Qed.

Lemma load_bytes_spec mem n : forall a s,
  load_bytes mem a n s = (inr (bytes_at mem a n), logged s (offsets a n)).
Proof.
  induction n as [|n IH]; intros a s.
  - unfold logged, offsets, bytes_at. cbn. rewrite app_nil_r.
    destruct s; reflexivity.
  - cbn [load_bytes]. unfold bind at 1. unfold load_byte at 1.
    unfold bind at 1. rewrite IH. unfold bytes_at. rewrite offsets_succ.
    unfold ret, logged. cbn. rewrite <- app_assoc. reflexivity.
Qed.

Lemma bind_inr {A B} (c : M A) (k : A -> M B) s a s' :
  c s = (inr a, s') -> bind c k s = k a s'.
Proof. unfold bind. intros ->. reflexivity. Qed.

Lemma bind_inl {A B} (c : M A) (k : A -> M B) s e s' :
  c s = (inl e, s') -> bind c k s = (inl e, s').
Proof. unfold bind. intros ->. reflexivity. Qed.

Lemma logged_logged s l1 l2 : logged (logged s l1) l2 = logged s (l1 ++ l2).
Proof. unfold logged. cbn. rewrite <- app_assoc. reflexivity. Qed.

Lemma logged_nil s : logged s [] = s.
Proof. unfold logged. rewrite app_nil_r. destruct s; reflexivity. Qed.

Lemma load_u8_spec mem a s :
  load_u8 mem a s = (inr (u8 (mem a)), logged s [a]).
Proof. reflexivity. Qed.

Lemma load_be16_spec mem a s :
  load_be16 mem a s = (inr (be16_at mem a), logged s [a; a + 1]).
Proof.
  unfold load_be16, load_u8, load_byte, bind, ret, logged. cbn.
  rewrite <- app_assoc. reflexivity.
Qed.

Lemma load_be32_spec mem a s :
  load_be32 mem a s
  = (inr (be32_at mem a), logged s [a; a + 1; a + 2; a + 3]).
Proof.
  unfold load_be32, load_u8, load_byte, bind, ret, logged. cbn.
  rewrite <- !app_assoc. reflexivity.
Qed.

Lemma read_header_spec mem s :
  read_header mem s = (inr (header_at mem), logged s (header_reads mem)).
Proof.
  unfold read_header.
  do 4 (erewrite bind_inr by apply load_u8_spec).
  erewrite bind_inr by apply load_be32_spec.
  do 2 (erewrite bind_inr by apply load_be16_spec).
  do 5 (erewrite bind_inr by apply load_be32_spec).
  do 3 (erewrite bind_inr by apply load_bytes_spec).
  unfold ret. rewrite !logged_logged. reflexivity.
Qed.

Lemma offsets_range a n : Forall (fun x => a <= x < a + Z.of_nat n) (offsets a n).
Proof.
  unfold offsets. apply List.Forall_forall. intros x Hx.
  apply in_map_iff in Hx as [i [<- Hi]]. apply in_seq in Hi. lia.
Qed.

Lemma load_be32_list_spec mem n : forall a s,
  load_be32_list mem a n s
  = (inr (be32_list_at mem a n), logged s (offsets a (4 * n))).
Proof.
  induction n as [|n IH]; intros a s.
  - cbn. unfold ret. rewrite logged_nil. reflexivity.
  - cbn [load_be32_list].
    erewrite bind_inr by apply load_be32_spec.
    erewrite bind_inr by apply IH.
    unfold ret. rewrite logged_logged.
    replace (4 * S n)%nat with (S (S (S (S (4 * n))))) by lia.
    rewrite !offsets_succ.
    replace (a + 1 + 1 + 1 + 1) with (a + 4) by lia.
    replace (a + 1 + 1 + 1) with (a + 3) by lia.
    replace (a + 1 + 1) with (a + 2) by lia.
    unfold be32_list_at. cbn [seq map]. rewrite <- seq_shift, map_map.
    do 3 f_equal; [f_equal; lia|].
    apply map_ext. intros i. f_equal. lia.
Qed.

Lemma modify_message_spec f s :
  modify_message f s
  = (inr tt, {| message := f (message s); reads := reads s |}).
Proof. reflexivity. Qed.

(** What a parser of the table does to the state: it reads inside the
    payload it is given and writes one option member, or fails without
    having done either. *)
Lemma GetOption_effect mem context buffer length s r s' :
  keeps_header context ->
  0 <= length ->
  GetOption mem context buffer length s = (r, s') ->
  header_of (message s') = header_of (message s)
  /\ (exists l, reads s' = reads s ++ l
                /\ Forall (fun a => buffer <= a < buffer + length) l)
  /\ exists ok, r = inr ok.
Proof.
  intros Hkeep Hlen.
  assert (Hnone : (inr None : DecodeError + option unit, s) = (r, s') ->
    header_of (message s') = header_of (message s)
    /\ (exists l, reads s' = reads s ++ l
                  /\ Forall (fun a => buffer <= a < buffer + length) l)
    /\ exists ok, r = inr ok).
  { intros [= <- <-]. split; [reflexivity|]. split; [|eauto].
    exists []. rewrite app_nil_r. auto. }
  destruct context as [output|output|output]; cbn [GetOption keeps_header] in *.
  - destruct (Z.eqb_spec length 1) as [->|]; [|exact Hnone].
    erewrite bind_inr by apply load_u8_spec.
    erewrite bind_inr by apply modify_message_spec.
    intros [= <- <-]. cbn. split; [apply Hkeep|]. split; [|eauto].
    exists [buffer]. split; [reflexivity|]. constructor; [lia|constructor].
  - destruct (Z.eqb_spec length 4) as [->|]; [|exact Hnone].
    erewrite bind_inr by apply load_be32_spec.
    erewrite bind_inr by apply modify_message_spec.
    intros [= <- <-]. cbn. split; [apply Hkeep|]. split; [|eauto].
    eexists. split; [reflexivity|]. repeat constructor; lia.
  - destruct (Z.eqb_spec length 0); [exact Hnone|].
    destruct (Z.eqb_spec (length mod 4) 0) as [Hmod|]; [|exact Hnone].
    cbn [orb negb].
    erewrite bind_inr by apply load_be32_list_spec.
    erewrite bind_inr by apply modify_message_spec.
    clear Hnone. intros [= <- <-]. unfold logged. cbn [message reads].
    split; [apply Hkeep|]. split; [|eauto].
    eexists. split; [reflexivity|].
    eapply List.Forall_impl; [|apply offsets_range].
    intros a Ha. cbn beta in Ha.
    assert (4 * (length / 4) <= length)
      by (apply Z.mul_div_le; lia).
    assert (0 <= length / 4) by (apply Z.div_pos; lia).
    lia.
Qed.

Lemma options_map_keeps_header tag context :
  options_map_ !! tag = Some context -> keeps_header context.
Proof.
  unfold options_map_.
  rewrite !lookup_insert_Some, lookup_empty.
  intros H; repeat (destruct H as [[_ <-]|[_ H]]); try discriminate;
    cbn; reflexivity.
Qed.

Lemma options_map_tags tag context :
  options_map_ !! tag = Some context ->
  tag <> kDHCPOptionPad /\ tag <> kDHCPOptionEnd.
Proof.
  unfold options_map_.
  rewrite !lookup_insert_Some, lookup_empty.
  intros H; repeat (destruct H as [[<- _]|[_ H]]); try discriminate;
    split; discriminate.
Qed.

End HeaderFacts.

(* ===================================================================== *)
(** * The option scan, turn by turn *)
(* ===================================================================== *)

Module ParserFacts.
Import Decoder HeaderFacts.

Lemma parse_loop_unfold mem end_ptr ptr options_set s :
  parse_loop mem end_ptr ptr options_set s =
  if Z_lt_dec ptr end_ptr then
    match loop_body mem end_ptr ptr options_set s with
    | (inl e, s') => (inl e, s')
    | (inr ReturnTrue, s') => (inr tt, s')
    | (inr (Continue ptr' options_set'), s') =>
        parse_loop mem end_ptr ptr' options_set' s'
    end
  else (inl UnterminatedOptions, s).
Proof.
  rewrite parse_loop_equation_1.
  destruct (Z_lt_dec ptr end_ptr) as [Hlt|Hge];
    [rewrite parse_loop_clause_1_equation_1
    |rewrite parse_loop_clause_1_equation_2; reflexivity].
  destruct (Logic.inspect (loop_body mem end_ptr ptr options_set s))
    as [[[e|[|ptr' options_set']] s'] Hbody];
    [rewrite parse_loop_clause_1_clause_2_equation_1
    |rewrite parse_loop_clause_1_clause_2_equation_2
    |rewrite parse_loop_clause_1_clause_2_equation_3];
    rewrite Hbody; reflexivity.
Qed.

Lemma parse_loop_exhausted mem end_ptr ptr options_set s :
  end_ptr <= ptr ->
  parse_loop mem end_ptr ptr options_set s = (inl UnterminatedOptions, s).
Proof.
  intros Hge. rewrite parse_loop_unfold.
  destruct (Z_lt_dec ptr end_ptr); [lia|reflexivity].
Qed.

Lemma parse_loop_scans mem end_ptr ptr options_set s tags
      ptr' options_set' s' :
  scans mem end_ptr ptr options_set s tags ptr' options_set' s' ->
  parse_loop mem end_ptr ptr options_set s
  = parse_loop mem end_ptr ptr' options_set' s'.
Proof.
  induction 1 as [|ptr options_set s ptr1 options_set1 s1 tags
                   ptr2 options_set2 s2 Hlt Hbody _ IH]; [reflexivity|].
  rewrite <- IH, (parse_loop_unfold mem end_ptr ptr).
  destruct (Z_lt_dec ptr end_ptr); [|lia]. rewrite Hbody. reflexivity.
Qed.

(** Unfolds the body of the loop down to its tests. *)
Ltac body_tests :=
  unfold loop_body, bind, load_u8, load_byte, ret, fail; cbn.

Lemma loop_body_end mem end_ptr ptr options_set s :
  u8 (mem ptr) = kDHCPOptionEnd ->
  loop_body mem end_ptr ptr options_set s =
  (if bool_decide (kDHCPOptionMessageType ∈ options_set)
   then inr ReturnTrue else inl MissingMessageType, logged s [ptr]).
Proof.
  intros Htag. body_tests. rewrite Htag. cbn.
  destruct (bool_decide _); reflexivity.
Qed.

Lemma loop_body_pad mem end_ptr ptr options_set s :
  u8 (mem ptr) = kDHCPOptionPad ->
  loop_body mem end_ptr ptr options_set s =
  (inr (Continue (ptr + 1) options_set), logged s [ptr]).
Proof.
  intros Htag. body_tests. rewrite Htag. reflexivity.
Qed.

Lemma loop_body_no_length mem end_ptr ptr options_set s :
  u8 (mem ptr) <> kDHCPOptionPad -> u8 (mem ptr) <> kDHCPOptionEnd ->
  end_ptr <= ptr + 1 ->
  loop_body mem end_ptr ptr options_set s =
  (inl TruncatedOption, logged s [ptr]).
Proof.
  intros Hpad Hend Hlen. body_tests.
  destruct (Z.eqb_spec (u8 (mem ptr)) kDHCPOptionPad); [contradiction|].
  destruct (Z.eqb_spec (u8 (mem ptr)) kDHCPOptionEnd); [contradiction|].
  destruct (Z.leb_spec end_ptr (ptr + 1)); [reflexivity|lia].
Qed.

Lemma loop_body_overrun mem end_ptr ptr options_set s :
  u8 (mem ptr) <> kDHCPOptionPad -> u8 (mem ptr) <> kDHCPOptionEnd ->
  ptr + 1 < end_ptr ->
  end_ptr <= ptr + 2 + u8 (mem (ptr + 1)) ->
  loop_body mem end_ptr ptr options_set s =
  (inl TruncatedOption, logged s [ptr; ptr + 1]).
Proof.
  intros Hpad Hend Hlen Hpay. body_tests.
  destruct (Z.eqb_spec (u8 (mem ptr)) kDHCPOptionPad); [contradiction|].
  destruct (Z.eqb_spec (u8 (mem ptr)) kDHCPOptionEnd); [contradiction|].
  destruct (Z.leb_spec end_ptr (ptr + 1)); [lia|].
  destruct (Z.leb_spec end_ptr (ptr + 1 + 1 + u8 (mem (ptr + 1)))); [|lia].
  unfold logged. cbn. rewrite <- app_assoc. reflexivity.
Qed.

Lemma loop_body_duplicate mem end_ptr ptr options_set s :
  u8 (mem ptr) <> kDHCPOptionPad -> u8 (mem ptr) <> kDHCPOptionEnd ->
  ptr + 1 < end_ptr ->
  ptr + 2 + u8 (mem (ptr + 1)) < end_ptr ->
  u8 (mem ptr) ∈ options_set ->
  loop_body mem end_ptr ptr options_set s =
  (inl DuplicateOption, logged s [ptr; ptr + 1]).
Proof.
  intros Hpad Hend Hlen Hpay Hdup. body_tests.
  destruct (Z.eqb_spec (u8 (mem ptr)) kDHCPOptionPad); [contradiction|].
  destruct (Z.eqb_spec (u8 (mem ptr)) kDHCPOptionEnd); [contradiction|].
  destruct (Z.leb_spec end_ptr (ptr + 1)); [lia|].
  destruct (Z.leb_spec end_ptr (ptr + 1 + 1 + u8 (mem (ptr + 1)))); [lia|].
  rewrite bool_decide_eq_true_2 by assumption.
  unfold logged. cbn. rewrite <- app_assoc. reflexivity.
Qed.

Lemma loop_body_message_type mem end_ptr ptr options_set s :
  u8 (mem ptr) = kDHCPOptionMessageType ->
  u8 (mem (ptr + 1)) = 1 ->
  ptr + 3 < end_ptr ->
  kDHCPOptionMessageType ∉ options_set ->
  loop_body mem end_ptr ptr options_set s =
  (inr (Continue (ptr + 3) (options_set ∪ {[kDHCPOptionMessageType]})),
   {| message := set_message_type (u8 (mem (ptr + 2))) (message s);
      reads := reads s ++ [ptr; ptr + 1; ptr + 2] |}).
Proof.
  intros Htag Hlen Hpay Hnew. body_tests. rewrite Htag, Hlen. cbn.
  destruct (Z.leb_spec end_ptr (ptr + 1)); [lia|].
  destruct (Z.leb_spec end_ptr (ptr + 1 + 1 + 1)); [lia|].
  rewrite bool_decide_eq_false_2 by assumption.
  replace (options_map_ !! kDHCPOptionMessageType)
    with (Some (UInt8Context set_message_type)) by (vm_compute; reflexivity).
  cbn. rewrite <- !app_assoc.
  replace (ptr + 1 + 1 + 1) with (ptr + 3) by lia.
  replace (ptr + 1 + 1) with (ptr + 2) by lia. reflexivity.
Qed.

(** What a turn that goes on has seen: a PAD, or an option that passed
    both bounds checks, was not in the set, and was added to it exactly
    when the table knows its tag. *)
Lemma loop_body_continue mem end_ptr ptr options_set s ptr' options_set' s' :
  loop_body mem end_ptr ptr options_set s
    = (inr (Continue ptr' options_set'), s') ->
  (u8 (mem ptr) = kDHCPOptionPad /\ ptr' = ptr + 1
   /\ options_set' = options_set)
  \/ (u8 (mem ptr) <> kDHCPOptionPad /\ u8 (mem ptr) <> kDHCPOptionEnd
      /\ ptr + 1 < end_ptr
      /\ ptr' = ptr + 2 + u8 (mem (ptr + 1)) /\ ptr' < end_ptr
      /\ (u8 (mem ptr) ∉ options_set)
      /\ ((options_map_ !! u8 (mem ptr) = None
           /\ options_set' = options_set)
          \/ (is_Some (options_map_ !! u8 (mem ptr))
              /\ options_set' = options_set ∪ {[u8 (mem ptr)]}))).
Proof.
  unfold loop_body.
  erewrite bind_inr by apply load_u8_spec.
  destruct (Z.eqb_spec (u8 (mem ptr)) kDHCPOptionPad) as [Hpad|Hpad].
  { intros [= <- <-]. left. auto. }
  destruct (Z.eqb_spec (u8 (mem ptr)) kDHCPOptionEnd) as [Hend|Hend].
  { destruct (bool_decide _); discriminate. }
  destruct (Z.leb_spec end_ptr (ptr + 1)) as [|Hlen]; [discriminate|].
  erewrite bind_inr by apply load_u8_spec.
  destruct (Z.leb_spec end_ptr (ptr + 1 + 1 + u8 (mem (ptr + 1))))
    as [|Hpay]; [discriminate|].
  destruct (bool_decide_reflect (u8 (mem ptr) ∈ options_set)) as [|Hnew];
    [discriminate|].
  destruct (options_map_ !! u8 (mem ptr)) as [context|] eqn:Hlookup.
  - unfold bind at 1.
    destruct (GetOption mem context (ptr + 1 + 1) (u8 (mem (ptr + 1)))
                (logged (logged s [ptr]) [ptr + 1])) as [[?|[?|]] ?];
      try discriminate.
    intros [= <- <- _]. right. repeat split; try assumption; try lia.
    right. split; [eauto|reflexivity].
  - intros [= <- <- _]. right. repeat split; try assumption; try lia.
    left. auto.
Qed.

(** The set after a scan: what it held before, and the tags met on the
    way that the table knows. *)
Lemma scans_options_set mem end_ptr ptr options_set s tags
      ptr' options_set' s' :
  scans mem end_ptr ptr options_set s tags ptr' options_set' s' ->
  forall tag, tag ∈ options_set' <->
    tag ∈ options_set \/ (In tag tags /\ is_Some (options_map_ !! tag)).
Proof.
  induction 1 as [|ptr options_set s ptr1 options_set1 s1 tags
                   ptr2 options_set2 s2 Hlt Hbody _ IH]; intros tag.
  { cbn. tauto. }
  rewrite IH. cbn [In].
  apply loop_body_continue in Hbody
    as [(Hpad & _ & ->)
       |(_ & _ & _ & _ & _ & _ & [[Hnone ->]|[Hknown ->]])].
  - split; [tauto|]. intros [H|[[<-|H] Hk]]; [tauto| |tauto].
    destruct Hk as [c Hc]. apply options_map_tags in Hc as [Hc _].
    contradiction.
  - split; [tauto|]. intros [H|[[<-|H] Hk]]; [tauto| |tauto].
    rewrite Hnone in Hk. destruct Hk as [c Hc]. discriminate.
  - rewrite elem_of_union, elem_of_singleton. split.
    + intros [[H| ->]|H]; tauto.
    + intros [H|[[<-|H] Hk]]; tauto.
Qed.

(** The result of the call, from the turn the scan has come to. *)
Lemma ParseDHCPOptions_at mem options options_length s0 tags
      ptr options_set s :
  scans mem (size_t (options + options_length)) options ∅ s0 tags
    ptr options_set s ->
  ptr < size_t (options + options_length) ->
  ParseDHCPOptions mem options options_length s0
  = match loop_body mem (size_t (options + options_length))
            ptr options_set s with
    | (inl e, s') => (inl e, s')
    | (inr ReturnTrue, s') => (inr tt, s')
    | (inr (Continue ptr' options_set'), s') =>
        parse_loop mem (size_t (options + options_length))
          ptr' options_set' s'
    end.
Proof.
  intros Hscan Hlt. unfold ParseDHCPOptions. cbn zeta.
  rewrite (parse_loop_scans _ _ _ _ _ _ _ _ _ Hscan), parse_loop_unfold.
  destruct (Z_lt_dec ptr (size_t (options + options_length))); [|lia].
  reflexivity.
Qed.

End ParserFacts.


(* ===================================================================== *)
(** * What a whole scan does to the state *)
(* ===================================================================== *)

Module ScanFacts.
Import Decoder ParserFacts HeaderFacts.

Lemma confined_refl lo hi s : confined lo hi s s.
Proof.
  split; [reflexivity|]. exists []. rewrite app_nil_r. auto.
Qed.

Lemma confined_trans lo hi s1 s2 s3 :
  confined lo hi s1 s2 -> confined lo hi s2 s3 -> confined lo hi s1 s3.
Proof.
  intros [Hh1 [l1 [Hr1 Hl1]]] [Hh2 [l2 [Hr2 Hl2]]].
  split; [congruence|]. exists (l1 ++ l2).
  rewrite Hr2, Hr1, <- app_assoc. split; [reflexivity|].
  apply Forall_app; auto.
Qed.

Lemma confined_weaken lo hi lo' hi' s s' :
  lo' <= lo -> hi <= hi' -> confined lo hi s s' -> confined lo' hi' s s'.
Proof.
  intros Hlo Hhi [Hh [l [Hr Hl]]]. split; [exact Hh|]. exists l.
  split; [exact Hr|]. eapply List.Forall_impl; [|exact Hl].
  cbn. intros; lia.
Qed.

Lemma confined_logged lo hi s l :
  Forall (fun a => lo <= a < hi) l -> confined lo hi s (logged s l).
Proof.
  intros Hl. split; [reflexivity|]. exists l. auto.
Qed.

Lemma loop_body_effect mem end_ptr ptr options_set s r s' :
  ptr < end_ptr ->
  loop_body mem end_ptr ptr options_set s = (r, s') ->
  confined ptr end_ptr s s'
  /\ forall e, r = inl e -> scan_error e.
Proof.
  intros Hlt. unfold loop_body.
  erewrite bind_inr by apply load_u8_spec.
  assert (Hfirst : confined ptr end_ptr s (logged s [ptr])).
  { apply confined_logged. repeat constructor; lia. }
  assert (Herr : forall e, e <> InvalidLength -> e <> InvalidMessage ->
            forall e', (inl e : DecodeError + Control) = inl e' ->
                       scan_error e').
  { intros e H1 H2 e' [= <-]. split; assumption. }
  destruct (u8 (mem ptr) =? kDHCPOptionPad).
  { intros [= <- <-]. split; [exact Hfirst|discriminate]. }
  destruct (u8 (mem ptr) =? kDHCPOptionEnd).
  { destruct (bool_decide _); intros [= <- <-];
      (split; [exact Hfirst|]); [discriminate|]. apply Herr; discriminate. }
  destruct (Z.leb_spec end_ptr (ptr + 1)) as [|Hlen].
  { intros [= <- <-]. split; [exact Hfirst|]. apply Herr; discriminate. }
  erewrite bind_inr by apply load_u8_spec. rewrite logged_logged.
  assert (Hsecond : confined ptr end_ptr s (logged s ([ptr] ++ [ptr + 1]))).
  { apply confined_logged. repeat constructor; lia. }
  pose proof (u8_range (mem (ptr + 1))) as Hrange.
  destruct (Z.leb_spec end_ptr (ptr + 1 + 1 + u8 (mem (ptr + 1)))) as [|Hpay].
  { intros [= <- <-]. split; [exact Hsecond|]. apply Herr; discriminate. }
  destruct (bool_decide _).
  { intros [= <- <-]. split; [exact Hsecond|]. apply Herr; discriminate. }
  destruct (options_map_ !! u8 (mem ptr)) as [context|] eqn:Hlookup.
  2:{ intros [= <- <-]. split; [exact Hsecond|discriminate]. }
  unfold bind at 1.
  destruct (GetOption mem context (ptr + 1 + 1) (u8 (mem (ptr + 1)))
              (logged s ([ptr] ++ [ptr + 1]))) as [ok s1] eqn:Hget.
  apply GetOption_effect in Hget as [Hh [Hr [ok' ->]]];
    [|eapply options_map_keeps_header; eassumption|lia].
  assert (Hthird : confined ptr end_ptr s s1).
  { eapply confined_trans; [exact Hsecond|].
    apply (confined_weaken (ptr + 1 + 1)
             (ptr + 1 + 1 + u8 (mem (ptr + 1)))); [lia|lia|].
    split; assumption. }
  destruct ok'; intros [= <- <-]; (split; [exact Hthird|]);
    [discriminate|]. apply Herr; discriminate.
Qed.

Lemma parse_loop_effect mem end_ptr ptr options_set s :
  let r := parse_loop mem end_ptr ptr options_set s in
  confined ptr end_ptr s r.2 /\ forall e, r.1 = inl e -> scan_error e.
Proof.
  cbn zeta.
  apply (parse_loop_elim mem
    (fun end_ptr ptr options_set s r =>
       confined ptr end_ptr s r.2 /\ forall e, r.1 = inl e -> scan_error e)).
  - intros end_ptr' ptr' Hge options_set' s' _. cbn. split.
    + apply confined_refl.
    + intros e [= <-]. split; discriminate.
  - intros end_ptr' ptr' Hlt options_set' s0 e s1 Hbody _ _. cbn.
    apply loop_body_effect in Hbody as [Hc He]; [|exact Hlt].
    split; [exact Hc|]. intros e' [= <-]. apply He. reflexivity.
  - intros end_ptr' ptr' Hlt options_set' s0 s1 Hbody _ _. cbn.
    apply loop_body_effect in Hbody as [Hc He]; [|exact Hlt].
    split; [exact Hc|discriminate].
  - intros end_ptr' ptr' Hlt options_set' s0 ptr1 options_set1 s1 Hbody
      [IHc IHe] _ _.
    pose proof (loop_body_advances _ _ _ _ _ _ _ _ Hbody) as Hadv.
    apply loop_body_effect in Hbody as [Hc He]; [|exact Hlt].
    split; [|exact IHe].
    eapply confined_trans; [exact Hc|].
    eapply confined_weaken; [| |exact IHc]; lia.
Qed.

(** An option that has passed both bounds checks is not reported as
    truncated, whatever becomes of it. *)
Lemma loop_body_past_checks mem end_ptr ptr options_set s r s' :
  u8 (mem ptr) <> kDHCPOptionPad -> u8 (mem ptr) <> kDHCPOptionEnd ->
  ptr + 1 < end_ptr ->
  ptr + 2 + u8 (mem (ptr + 1)) < end_ptr ->
  loop_body mem end_ptr ptr options_set s = (r, s') ->
  r <> inl TruncatedOption.
Proof.
  intros Hpad Hend Hlen Hpay. unfold loop_body.
  erewrite bind_inr by apply load_u8_spec.
  destruct (Z.eqb_spec (u8 (mem ptr)) kDHCPOptionPad); [contradiction|].
  destruct (Z.eqb_spec (u8 (mem ptr)) kDHCPOptionEnd); [contradiction|].
  destruct (Z.leb_spec end_ptr (ptr + 1)); [lia|].
  erewrite bind_inr by apply load_u8_spec.
  destruct (Z.leb_spec end_ptr (ptr + 1 + 1 + u8 (mem (ptr + 1)))); [lia|].
  destruct (bool_decide _); [intros [= <- _]; discriminate|].
  destruct (options_map_ !! u8 (mem ptr)) as [context|] eqn:Hlookup;
    [|intros [= <- _]; discriminate].
  unfold bind at 1.
  destruct (GetOption mem context (ptr + 1 + 1) (u8 (mem (ptr + 1)))
              (logged (logged s [ptr]) [ptr + 1])) as [ok s1] eqn:Hget.
  pose proof (u8_range (mem (ptr + 1))).
  apply GetOption_effect in Hget as [_ [_ [ok' ->]]];
    [|eapply options_map_keeps_header; eassumption|lia].
  destruct ok'; intros [= <- _]; discriminate.
Qed.

End ScanFacts.

(* ===================================================================== *)
(** * InitFromBuffer, stage by stage *)
(* ===================================================================== *)

Module InitFacts.
Import Decoder ParserFacts HeaderFacts ScanFacts.

Lemma IsValid_iff m : IsValid m = true <-> header_invariants (header_of m).
Proof.
  unfold IsValid, header_invariants. cbn.
  destruct (Z.eqb_spec (opcode_ m) kDHCPMessageBootReply);
  destruct (Z.eqb_spec (hardware_address_type_ m) ARPHRD_ETHER);
  destruct (Z.eqb_spec (hardware_address_length_ m) IFHWADDRLEN);
  destruct (Z.eqb_spec (seconds_ m) 0);
  destruct (Z.eqb_spec (flags_ m) 0);
  destruct (Z.eqb_spec (cookie_ m) kMagicCookie);
  cbn; intuition congruence.
Qed.

Lemma header_of_assign h m : header_of (assign_header h m) = h.
Proof. destruct h; reflexivity. Qed.

(** The call for a datagram of accepted length: the header is read and
    assigned, then [IsValid] decides between failure and the option scan. *)
Lemma InitFromBuffer_accepted mem length s :
  kDHCPMessageMinLength <= length <= kDHCPMessageMaxLength ->
  InitFromBuffer (Some mem) length s
  = if IsValid (assign_header (header_at mem) (message s))
    then ParseDHCPOptions mem Raw.options
           (size_t (0 + length - Raw.options + 1)) (after_header mem s)
    else (inl InvalidMessage, after_header mem s).
Proof.
  intros [Hmin Hmax]. unfold InitFromBuffer.
  destruct (Z.ltb_spec length kDHCPMessageMinLength); [lia|].
  destruct (Z.ltb_spec kDHCPMessageMaxLength length); [lia|].
  cbn [orb].
  erewrite bind_inr by apply read_header_spec.
  erewrite bind_inr by apply modify_message_spec.
  unfold get_message, bind at 1. cbn [message].
  fold (after_header mem s).
  destruct (IsValid _); reflexivity.
Qed.

(** The end pointer the scan is given: one past the offset [length]. *)
Lemma InitFromBuffer_valid mem length s :
  kDHCPMessageMinLength <= length <= kDHCPMessageMaxLength ->
  header_invariants (header_at mem) ->
  InitFromBuffer (Some mem) length s
  = ParseDHCPOptions mem Raw.options
      (size_t (0 + length - Raw.options + 1)) (after_header mem s).
Proof.
  intros Hlen Hinv. rewrite InitFromBuffer_accepted by exact Hlen.
  pose proof (IsValid_iff (assign_header (header_at mem) (message s))) as Hv.
  rewrite header_of_assign in Hv. apply Hv in Hinv. rewrite Hinv.
  reflexivity.
Qed.

Lemma options_end_ptr length :
  kDHCPMessageMinLength <= length <= kDHCPMessageMaxLength ->
  size_t (Raw.options + size_t (0 + length - Raw.options + 1)) = length + 1.
Proof.
  unfold kDHCPMessageMinLength, kDHCPMessageMaxLength, size_t.
  intros H. rewrite Zplus_mod_idemp_r.
  replace (Raw.options + (0 + length - Raw.options + 1)) with (length + 1)
    by (unfold Raw.options; lia).
  apply Z.mod_small. lia.
Qed.

Lemma ParseDHCPOptions_effect mem options options_length s :
  let r := ParseDHCPOptions mem options options_length s in
  confined options (size_t (options + options_length)) s r.2
  /\ forall e, r.1 = inl e -> scan_error e.
Proof. apply parse_loop_effect. Qed.

(** Whatever the outcome for a datagram of accepted length, the fixed
    header members hold what was read from the buffer. *)
Lemma InitFromBuffer_header mem length s :
  kDHCPMessageMinLength <= length <= kDHCPMessageMaxLength ->
  header_of (message (InitFromBuffer (Some mem) length s).2) = header_at mem.
Proof.
  intros Hlen. rewrite (InitFromBuffer_accepted mem length s Hlen).
  destruct (IsValid _).
  - pose proof (ParseDHCPOptions_effect mem Raw.options
                  (size_t (0 + length - Raw.options + 1))
                  (after_header mem s)) as [[Hh _] _].
    rewrite Hh. apply header_of_assign.
  - apply header_of_assign.
Qed.

(** The reads of a call for a datagram of accepted length: those of the
    header, then offsets from 240 up to [length] itself. *)
Lemma InitFromBuffer_reads mem length s :
  kDHCPMessageMinLength <= length <= kDHCPMessageMaxLength ->
  exists l,
    reads (InitFromBuffer (Some mem) length s).2
    = reads s ++ header_reads mem ++ l
    /\ Forall (fun a => Raw.options <= a <= length) l.
Proof.
  intros Hlen. rewrite (InitFromBuffer_accepted mem length s Hlen).
  destruct (IsValid _).
  - pose proof (ParseDHCPOptions_effect mem Raw.options
                  (size_t (0 + length - Raw.options + 1))
                  (after_header mem s)) as [[_ [l [Hr Hl]]] _].
    rewrite (options_end_ptr length Hlen) in Hl.
    exists l. rewrite Hr. cbn [after_header reads]. rewrite <- app_assoc.
    split; [reflexivity|].
    eapply List.Forall_impl; [|exact Hl]. cbn. intros; lia.
  - exists []. cbn [after_header reads snd]. rewrite app_nil_r. auto.
Qed.

End InitFacts.

(* ===================================================================== *)
(** * Length check, header validation and what a failed call leaves *)
(* ===================================================================== *)

Module InitProperties.
Import Decoder ParserFacts HeaderFacts ScanFacts InitFacts.

(** C4. For every buffer whose length is below 236 or above 548,
    [InitFromBuffer] fails with [InvalidLength] and the state is the one
    it started in: no offset has been read (so nothing outside the buffer
    either), no member of the message has been written, and neither the
    header extraction nor the option scan has run. *)
Theorem bad_length_rejected_untouched (buffer : option memory) length s :
  length < kDHCPMessageMinLength \/ kDHCPMessageMaxLength < length ->
  InitFromBuffer buffer length s = (inl InvalidLength, s).
Proof.
  intros Hlen. unfold InitFromBuffer.
  destruct buffer as [mem|]; [|reflexivity].
  destruct (Z.ltb_spec length kDHCPMessageMinLength);
    destruct (Z.ltb_spec kDHCPMessageMaxLength length);
    try reflexivity; lia.
Qed.

Lemma bad_length_rejected_untouched_witness :
  InitFromBuffer (Some (memory_of (reply_header 6))) 235 blank
  = (inl InvalidLength, blank)
  /\ InitFromBuffer (Some (memory_of (reply_header 6))) 549 blank
     = (inl InvalidLength, blank).
Proof.
  split.
  - apply (bad_length_rejected_untouched _ 235 blank).
    left. unfold kDHCPMessageMinLength. lia.
  - apply (bad_length_rejected_untouched _ 549 blank).
    right. unfold kDHCPMessageMaxLength. lia.
Defined.

(** C5. For every buffer of accepted length (236 to 548), the call goes
    on to the option scan exactly when the six header invariants hold
    (opcode 2, hardware type Ethernet, hardware address length 6, seconds
    0, flags 0, cookie 0x63825363, all in [header_invariants]): if they
    hold the result is that of [ParseDHCPOptions], if one is violated the
    call fails with [InvalidMessage], and [InvalidMessage] is returned in
    no other case. *)
Theorem header_validation_decides mem length s :
  kDHCPMessageMinLength <= length <= kDHCPMessageMaxLength ->
  (header_invariants (header_at mem) ->
   InitFromBuffer (Some mem) length s
   = ParseDHCPOptions mem Raw.options
       (size_t (0 + length - Raw.options + 1)) (after_header mem s))
  /\ (~ header_invariants (header_at mem) ->
      InitFromBuffer (Some mem) length s
      = (inl InvalidMessage, after_header mem s))
  /\ ((InitFromBuffer (Some mem) length s).1 = inl InvalidMessage
      <-> ~ header_invariants (header_at mem)).
Proof.
  intros Hlen. rewrite (InitFromBuffer_accepted mem length s Hlen).
  pose proof (IsValid_iff (assign_header (header_at mem) (message s))) as Hv.
  rewrite header_of_assign in Hv.
  destruct (IsValid _).
  - assert (Hinv : header_invariants (header_at mem)) by (apply Hv; reflexivity).
    split; [reflexivity|]. split; [contradiction|]. split; [|contradiction].
    intros Herr.
    pose proof (ParseDHCPOptions_effect mem Raw.options
                  (size_t (0 + length - Raw.options + 1))
                  (after_header mem s)) as [_ He].
    destruct (He _ Herr) as [_ Hne]. contradiction.
  - assert (Hinv : ~ header_invariants (header_at mem)).
    { intros H. apply Hv in H. discriminate. }
    split; [contradiction|]. split; [reflexivity|]. split; auto.
Qed.

Lemma header_validation_decides_witness :
  (InitFromBuffer (Some (memory_of (reply_header 6 ++ [53; 1; 5; 255])))
     244 blank).1 = inr tt
  /\ (InitFromBuffer (Some (memory_of (reply_header 7 ++ [53; 1; 5; 255])))
        244 blank).1 = inl InvalidMessage.
Proof.
  assert (Hlen : kDHCPMessageMinLength <= 244 <= kDHCPMessageMaxLength)
    by (unfold kDHCPMessageMinLength, kDHCPMessageMaxLength; lia).
  split.
  - rewrite (proj1 (header_validation_decides
                      (memory_of (reply_header 6 ++ [53; 1; 5; 255]))
                      244 blank Hlen)).
    + vm_compute. reflexivity.
    + vm_compute. repeat split.
  - apply (proj2 (proj2 (header_validation_decides
                           (memory_of (reply_header 7 ++ [53; 1; 5; 255]))
                           244 blank Hlen))).
    vm_compute. intros [_ [_ [H _]]]. discriminate.
Defined.

(** C10. A call that has passed the length check and then fails (in
    [IsValid] or anywhere in the option scan) leaves every fixed-header
    member of the caller's message overwritten with the value read from
    the buffer: opcode, hardware address type and length, hops,
    transaction id, seconds, flags, the four addresses, cookie, client
    hardware address, server name and boot file name. *)
Theorem failed_decode_overwrites_header mem length s e :
  kDHCPMessageMinLength <= length <= kDHCPMessageMaxLength ->
  (InitFromBuffer (Some mem) length s).1 = inl e ->
  header_of (message (InitFromBuffer (Some mem) length s).2) = header_at mem.
Proof.
  intros Hlen _. apply InitFromBuffer_header. exact Hlen.
Qed.

Lemma failed_decode_overwrites_header_witness :
  header_of
    (message (InitFromBuffer (Some (unterminated_reply 0)) 243 blank).2)
  = header_at (unterminated_reply 0).
Proof.
  apply (failed_decode_overwrites_header (unterminated_reply 0) 243 blank
           UnterminatedOptions).
  - unfold kDHCPMessageMinLength, kDHCPMessageMaxLength. lia.
  - vm_compute. reflexivity.
Defined.

End InitProperties.

(* ===================================================================== *)
(** * The option scan: bounds, END, exhaustion and repeated options *)
(* ===================================================================== *)

Module ScanProperties.
Import Decoder HeaderFacts ParserFacts ScanFacts InitFacts.

(** Builds the course of a scan over a concrete memory, turn by turn. *)
Ltac scan_turns :=
  first [ apply scans_here
        | eapply scans_turn;
          [vm_compute; reflexivity | vm_compute; reflexivity | scan_turns] ].

(** The bounds checks, relative to the end the scan was given. Whenever
    the scan comes to a tag other than PAD (0) and END (255), the byte
    after it is taken as the length. The call fails with [TruncatedOption]
    if no length byte remains before that end, and also if the payload of
    the declared length would run at or past it. So the turn gets past the
    checks (whatever it does next) only when the length byte and the whole
    payload lie strictly before the end, and an option that is accepted
    moves the scan to the byte after its payload. *)
Lemma option_bounds_checked
  mem options options_length s0 tags ptr options_set s :
  let end_ptr := size_t (options + options_length) in
  let option_length := u8 (mem (ptr + 1)) in
  scans mem end_ptr options ∅ s0 tags ptr options_set s ->
  ptr < end_ptr ->
  u8 (mem ptr) <> kDHCPOptionPad ->
  u8 (mem ptr) <> kDHCPOptionEnd ->
  (end_ptr <= ptr + 1 ->
   ParseDHCPOptions mem options options_length s0
   = (inl TruncatedOption, logged s [ptr]))
  /\ (ptr + 1 < end_ptr -> end_ptr <= ptr + 2 + option_length ->
      ParseDHCPOptions mem options options_length s0
      = (inl TruncatedOption, logged s [ptr; ptr + 1]))
  /\ (forall r s', loop_body mem end_ptr ptr options_set s = (r, s') ->
      r <> inl TruncatedOption ->
      ptr + 1 < end_ptr /\ ptr + 2 + option_length < end_ptr)
  /\ (forall ptr' options_set' s',
      loop_body mem end_ptr ptr options_set s
        = (inr (Continue ptr' options_set'), s') ->
      ptr' = ptr + 2 + option_length /\ ptr' < end_ptr).
Proof.
  intros end_ptr option_length Hscan Hlt Hpad Hend.
  pose proof (ParseDHCPOptions_at _ _ _ _ _ _ _ _ Hscan Hlt) as Hat.
  fold end_ptr in Hat.
  split; [|split; [|split]].
  - intros Hlen. rewrite Hat.
    rewrite (loop_body_no_length mem end_ptr ptr options_set s Hpad Hend Hlen).
    reflexivity.
  - intros Hlen Hpay. rewrite Hat.
    rewrite (loop_body_overrun mem end_ptr ptr options_set s
               Hpad Hend Hlen Hpay).
    reflexivity.
  - intros r s' Hbody Hr.
    destruct (Z_lt_dec (ptr + 1) end_ptr) as [Hlen|Hlen].
    + split; [exact Hlen|].
      destruct (Z_lt_dec (ptr + 2 + option_length) end_ptr) as [|Hpay];
        [assumption|].
      rewrite (loop_body_overrun mem end_ptr ptr options_set s
                 Hpad Hend Hlen) in Hbody by lia.
      injection Hbody as <- _. contradiction.
    + rewrite (loop_body_no_length mem end_ptr ptr options_set s
                 Hpad Hend) in Hbody by lia.
      injection Hbody as <- _. contradiction.
  - intros ptr' options_set' s' Hbody.
    apply loop_body_continue in Hbody
      as [(Hpad' & _)|(_ & _ & _ & Hptr & Hlt' & _)];
      [contradiction|auto].
Qed.

Example option_bounds_checked_at_cut_options :
  ParseDHCPOptions (memory_of [53; 1; 5; 54; 4; 10; 0]) 0 7 blank
  = (inl TruncatedOption,
     {| message := set_message_type 5 blank_message;
        reads := [0; 1; 2; 3; 4] |})
  /\ ParseDHCPOptions (memory_of [53; 1; 5; 54]) 0 4 blank
     = (inl TruncatedOption,
        {| message := set_message_type 5 blank_message;
           reads := [0; 1; 2; 3] |}).
Proof.
  split.
  - assert (Hscan : scans (memory_of [53; 1; 5; 54; 4; 10; 0])
                      (size_t (0 + 7)) 0 ∅ blank [53] 3 {[53]}
                      {| message := set_message_type 5 blank_message;
                         reads := [0; 1; 2] |}) by scan_turns.
    apply (proj1 (proj2 (option_bounds_checked _ 0 7 blank _ 3 _ _ Hscan
             ltac:(vm_compute; reflexivity)
             ltac:(vm_compute; discriminate)
             ltac:(vm_compute; discriminate))));
      vm_compute; [reflexivity|discriminate].
  - assert (Hscan : scans (memory_of [53; 1; 5; 54])
                      (size_t (0 + 4)) 0 ∅ blank [53] 3 {[53]}
                      {| message := set_message_type 5 blank_message;
                         reads := [0; 1; 2] |}) by scan_turns.
    apply (proj1 (option_bounds_checked _ 0 4 blank _ 3 _ _ Hscan
             ltac:(vm_compute; reflexivity)
             ltac:(vm_compute; discriminate)
             ltac:(vm_compute; discriminate))).
    vm_compute. discriminate.
Qed.

(** In a datagram of accepted length the end the scan is given is the
    offset [length + 1]: an option that gets past the bounds checks has
    its length byte and all of its payload at offsets below [length], and
    nothing requires a byte of the datagram to follow the payload. *)
Lemma accepted_payload_inside_datagram
  mem length s0 tags ptr options_set s r s' :
  kDHCPMessageMinLength <= length <= kDHCPMessageMaxLength ->
  let options_length := size_t (0 + length - Raw.options + 1) in
  let end_ptr := size_t (Raw.options + options_length) in
  scans mem end_ptr Raw.options ∅ s0 tags ptr options_set s ->
  ptr < end_ptr ->
  u8 (mem ptr) <> kDHCPOptionPad ->
  u8 (mem ptr) <> kDHCPOptionEnd ->
  loop_body mem end_ptr ptr options_set s = (r, s') ->
  r <> inl TruncatedOption ->
  ptr + 1 < length /\ ptr + 2 + u8 (mem (ptr + 1)) <= length.
Proof.
  intros Hlen options_length end_ptr Hscan Hlt Hpad Hend Hbody Hr.
  pose proof (options_end_ptr length Hlen) as Hwin.
  fold options_length in Hwin. fold end_ptr in Hwin.
  pose proof (u8_range (mem (ptr + 1))).
  destruct (Z_lt_dec (ptr + 1) end_ptr) as [H1|H1].
  - destruct (Z_lt_dec (ptr + 2 + u8 (mem (ptr + 1))) end_ptr) as [H2|H2];
      [lia|].
    rewrite (loop_body_overrun mem end_ptr ptr options_set s Hpad Hend H1)
      in Hbody by lia.
    injection Hbody as <- _. contradiction.
  - rewrite (loop_body_no_length mem end_ptr ptr options_set s Hpad Hend)
      in Hbody by lia.
    injection Hbody as <- _. contradiction.
Qed.

(** C6. When the scan comes to an END tag (255) it stops there, having
    read that byte and nothing after it. The call succeeds if and only if
    the message-type option (tag 53) has been seen before the END tag,
    that is, 53 is among the tags the scan has met, which is what
    membership in the set of accepted options records; otherwise it fails
    with [MissingMessageType], however well formed the options before the
    END tag were. *)
Theorem end_tag_requires_message_type
  mem options options_length s0 tags ptr options_set s :
  let end_ptr := size_t (options + options_length) in
  scans mem end_ptr options ∅ s0 tags ptr options_set s ->
  ptr < end_ptr ->
  u8 (mem ptr) = kDHCPOptionEnd ->
  ParseDHCPOptions mem options options_length s0
  = (if bool_decide (kDHCPOptionMessageType ∈ options_set)
     then inr tt else inl MissingMessageType, logged s [ptr])
  /\ (kDHCPOptionMessageType ∈ options_set <-> In kDHCPOptionMessageType tags)
  /\ ((ParseDHCPOptions mem options options_length s0).1 = inr tt
      <-> In kDHCPOptionMessageType tags)
  /\ ((ParseDHCPOptions mem options options_length s0).1
        = inl MissingMessageType
      <-> ~ In kDHCPOptionMessageType tags).
Proof.
  intros end_ptr Hscan Hlt Htag.
  assert (Hseen : kDHCPOptionMessageType ∈ options_set
                  <-> In kDHCPOptionMessageType tags).
  { rewrite (scans_options_set _ _ _ _ _ _ _ _ _ Hscan).
    rewrite elem_of_empty.
    assert (is_Some (options_map_ !! kDHCPOptionMessageType))
      by (vm_compute; eauto).
    tauto. }
  rewrite (ParseDHCPOptions_at _ _ _ _ _ _ _ _ Hscan Hlt).
  fold end_ptr. rewrite (loop_body_end mem end_ptr ptr options_set s Htag).
  rewrite <- Hseen.
  destruct (bool_decide_reflect (kDHCPOptionMessageType ∈ options_set)).
  - split; [reflexivity|]. cbn. repeat split; try tauto; discriminate.
  - split; [reflexivity|]. cbn. repeat split; try tauto; discriminate.
Qed.

Lemma end_tag_requires_message_type_witness :
  (ParseDHCPOptions (memory_of [53; 1; 5; 255]) 0 4 blank).1 = inr tt
  /\ (ParseDHCPOptions (memory_of [51; 4; 0; 0; 14; 16; 255]) 0 7 blank).1
     = inl MissingMessageType.
Proof.
  split.
  - assert (Hscan : scans (memory_of [53; 1; 5; 255])
                      (size_t (0 + 4)) 0 ∅ blank [53] 3 {[53]}
                      {| message := set_message_type 5 blank_message;
                         reads := [0; 1; 2] |}) by scan_turns.
    apply (proj1 (proj2 (proj2
             (end_tag_requires_message_type _ 0 4 blank _ 3 _ _ Hscan
                ltac:(vm_compute; reflexivity)
                ltac:(vm_compute; reflexivity))))).
    left. reflexivity.
  - assert (Hscan : scans (memory_of [51; 4; 0; 0; 14; 16; 255])
                      (size_t (0 + 7)) 0 ∅ blank [51] 6 {[51]}
                      {| message := set_lease_time 3600 blank_message;
                         reads := [0; 1; 2; 3; 4; 5] |}) by scan_turns.
    apply (proj2 (proj2 (proj2
             (end_tag_requires_message_type _ 0 7 blank _ 6 _ _ Hscan
                ltac:(vm_compute; reflexivity)
                ltac:(vm_compute; reflexivity))))).
    intros [H|[]]. discriminate H.
Defined.

(** The exit of the loop. When the scan comes to the head of the loop
    with no byte left ([ptr] at or past the end it was given), every turn
    before having gone on to the next (so no END tag was met), the call
    fails with [UnterminatedOptions]; this is so whatever the turns before
    have parsed, and they leave their effects in the state. Since an
    accepted option leaves a byte before the end, the scan comes to this
    exit for an empty area or after a PAD byte only. *)
Theorem missing_end_tag_fails
  mem options options_length s0 tags ptr options_set s :
  let end_ptr := size_t (options + options_length) in
  scans mem end_ptr options ∅ s0 tags ptr options_set s ->
  end_ptr <= ptr ->
  ParseDHCPOptions mem options options_length s0
  = (inl UnterminatedOptions, s).
Proof.
  intros end_ptr Hscan Hge. unfold ParseDHCPOptions. cbn zeta.
  fold end_ptr. rewrite (parse_loop_scans _ _ _ _ _ _ _ _ _ Hscan).
  apply parse_loop_exhausted. exact Hge.
Qed.

Lemma missing_end_tag_fails_witness :
  ParseDHCPOptions (memory_of [53; 1; 5; 51; 4; 0; 0; 14; 16; 0]) 0 10 blank
  = (inl UnterminatedOptions,
     {| message := set_lease_time 3600 (set_message_type 5 blank_message);
        reads := [0; 1; 2; 3; 4; 5; 6; 7; 8; 9] |}).
Proof.
  apply (missing_end_tag_fails _ 0 10 blank [53; 51; 0] 10 {[53; 51]}).
  - scan_turns.
  - vm_compute. discriminate.
Defined.

(** An options area without END whose last option ends exactly at the end
    the scan was given does not come to the head of the loop with no byte
    left: that option fails the payload check. *)
Example exact_fit_is_truncated :
  (ParseDHCPOptions (memory_of [53; 1; 5]) 0 3 blank).1 = inl TruncatedOption.
Proof. vm_compute. reflexivity. Qed.

Lemma repeated_option_at
  mem options options_length s0 tags ptr options_set s :
  let end_ptr := size_t (options + options_length) in
  scans mem end_ptr options ∅ s0 tags ptr options_set s ->
  ptr < end_ptr ->
  u8 (mem ptr) ∈ options_set ->
  ptr + 1 < end_ptr ->
  ptr + 2 + u8 (mem (ptr + 1)) < end_ptr ->
  ParseDHCPOptions mem options options_length s0
  = (inl DuplicateOption, logged s [ptr; ptr + 1]).
Proof.
  intros end_ptr Hscan Hlt Hin Hlen Hpay.
  apply (scans_options_set _ _ _ _ _ _ _ _ _ Hscan) in Hin as Hknown.
  destruct Hknown as [Hempty|[_ [c Hc]]];
    [apply elem_of_empty in Hempty; contradiction|].
  destruct (options_map_tags _ _ Hc) as [Hpad Hend].
  rewrite (ParseDHCPOptions_at _ _ _ _ _ _ _ _ Hscan Hlt). fold end_ptr.
  rewrite (loop_body_duplicate mem end_ptr ptr options_set s
             Hpad Hend Hlen Hpay Hin).
  reflexivity.
Qed.

(** A second occurrence of tag 53 that is cut short (its payload is
    missing) is not reported as a duplicate: the bounds checks come first
    and the call fails with [TruncatedOption]. The same holds when the
    second option is complete but ends exactly at the end of the area. *)
Lemma cut_repeat_is_truncated :
  let mem := memory_of [53; 1; 5; 53; 1] in
  scans mem (size_t (0 + 5)) 0 ∅ blank [53] 3 {[kDHCPOptionMessageType]}
    {| message := set_message_type 5 blank_message; reads := [0; 1; 2] |}
  /\ u8 (mem 3) = kDHCPOptionMessageType
  /\ (ParseDHCPOptions mem 0 5 blank).1 = inl TruncatedOption
  /\ (ParseDHCPOptions mem 0 5 blank).1 <> inl DuplicateOption
  /\ (ParseDHCPOptions (memory_of [53; 1; 5; 53; 1; 5]) 0 6 blank).1
     = inl TruncatedOption.
Proof.
  cbn zeta. split; [scan_turns|].
  vm_compute. repeat split; discriminate.
Qed.

(** C8, with the order of the tests made explicit. When the scan comes to
    an option whose tag has already been accepted (the scan has met that
    tag before and the table knows it, so it is in the set of accepted
    options), the bounds checks, which are made first, decide. If the
    option passes them (its length byte and its payload lie before the end
    the scan was given), the call fails with [DuplicateOption] there,
    having read the tag and the length and nothing of the payload; if it
    fails them (no length byte before that end, or a payload that would
    run at or past it), the call fails with [TruncatedOption]. In
    particular an options area that starts with two options 53 of length
    1 fails with [DuplicateOption] at the second, whatever the two values
    are, equal or not, when a byte of the area follows the second, and
    with [TruncatedOption] when the area ends in or right after the
    second. In a datagram of accepted length with a valid header the end is
    the offset [length + 1]: a second occurrence whose payload lies inside
    the datagram fails with [DuplicateOption], one whose length byte or
    payload would lie behind the datagram with [TruncatedOption]. *)
Theorem repeated_option_rejected mem :
  (forall options options_length s0 tags ptr options_set s,
     let end_ptr := size_t (options + options_length) in
     scans mem end_ptr options ∅ s0 tags ptr options_set s ->
     ptr < end_ptr ->
     In (u8 (mem ptr)) tags ->
     is_Some (options_map_ !! u8 (mem ptr)) ->
     u8 (mem ptr) ∈ options_set
     /\ (ptr + 1 < end_ptr ->
         ptr + 2 + u8 (mem (ptr + 1)) < end_ptr ->
         ParseDHCPOptions mem options options_length s0
         = (inl DuplicateOption, logged s [ptr; ptr + 1]))
     /\ (end_ptr <= ptr + 1 ->
         ParseDHCPOptions mem options options_length s0
         = (inl TruncatedOption, logged s [ptr]))
     /\ (ptr + 1 < end_ptr ->
         end_ptr <= ptr + 2 + u8 (mem (ptr + 1)) ->
         ParseDHCPOptions mem options options_length s0
         = (inl TruncatedOption, logged s [ptr; ptr + 1])))
  /\ (forall options options_length s0,
        let end_ptr := size_t (options + options_length) in
        u8 (mem options) = kDHCPOptionMessageType ->
        u8 (mem (options + 1)) = 1 ->
        u8 (mem (options + 3)) = kDHCPOptionMessageType ->
        u8 (mem (options + 4)) = 1 ->
        (options + 6 < end_ptr ->
         (ParseDHCPOptions mem options options_length s0).1
         = inl DuplicateOption)
        /\ (options + 3 < end_ptr <= options + 6 ->
            (ParseDHCPOptions mem options options_length s0).1
            = inl TruncatedOption))
  /\ (forall length s tags ptr options_set s',
        kDHCPMessageMinLength <= length <= kDHCPMessageMaxLength ->
        header_invariants (header_at mem) ->
        scans mem (size_t (Raw.options + size_t (0 + length - Raw.options + 1)))
          Raw.options ∅ (after_header mem s) tags ptr options_set s' ->
        ptr <= length ->
        In (u8 (mem ptr)) tags ->
        is_Some (options_map_ !! u8 (mem ptr)) ->
        (ptr + 2 + u8 (mem (ptr + 1)) <= length ->
         InitFromBuffer (Some mem) length s
         = (inl DuplicateOption, logged s' [ptr; ptr + 1]))
        /\ (length < ptr + 2 + u8 (mem (ptr + 1)) ->
            (InitFromBuffer (Some mem) length s).1 = inl TruncatedOption)).
Proof.
  assert (Hmet : forall end_ptr options s0 tags ptr options_set s,
            scans mem end_ptr options ∅ s0 tags ptr options_set s ->
            In (u8 (mem ptr)) tags ->
            is_Some (options_map_ !! u8 (mem ptr)) ->
            u8 (mem ptr) ∈ options_set
            /\ u8 (mem ptr) <> kDHCPOptionPad
            /\ u8 (mem ptr) <> kDHCPOptionEnd).
  { intros end_ptr options s0 tags ptr options_set s Hscan Hin Hknown.
    split.
    - apply (scans_options_set _ _ _ _ _ _ _ _ _ Hscan). right. auto.
    - destruct Hknown as [c Hc]. exact (options_map_tags _ _ Hc). }
  split; [|split].
  - intros options options_length s0 tags ptr options_set s end_ptr
      Hscan Hlt Hin Hknown.
    destruct (Hmet _ _ _ _ _ _ _ Hscan Hin Hknown) as (Hset & Hpad & Hend).
    pose proof (ParseDHCPOptions_at _ _ _ _ _ _ _ _ Hscan Hlt) as Hat.
    fold end_ptr in Hat.
    split; [exact Hset|]. split; [|split].
    + intros Hlen Hpay.
      apply (repeated_option_at mem options options_length s0 tags
               ptr options_set s); assumption.
    + intros Hlen. rewrite Hat.
      rewrite (loop_body_no_length mem end_ptr ptr options_set s
                 Hpad Hend Hlen).
      reflexivity.
    + intros Hlen Hpay. rewrite Hat.
      rewrite (loop_body_overrun mem end_ptr ptr options_set s
                 Hpad Hend Hlen Hpay).
      reflexivity.
  - intros options options_length s0 end_ptr Htag1 Hlen1 Htag2 Hlen2.
    assert (Hscan : options + 3 < end_ptr ->
              scans mem end_ptr options ∅ s0 [u8 (mem options)]
                (options + 3)
                (∅ ∪ {[kDHCPOptionMessageType]})
                {| message :=
                     set_message_type (u8 (mem (options + 2)))
                       (message s0);
                   reads := reads s0
                            ++ [options; options + 1; options + 2] |}).
    { intros Hroom. eapply scans_turn; [lia| |apply scans_here].
      apply loop_body_message_type; try assumption.
      apply not_elem_of_empty. }
    assert (Hin : u8 (mem (options + 3))
                  ∈ (∅ ∪ {[kDHCPOptionMessageType]} : gset Z)).
    { rewrite Htag2. apply elem_of_union_r, elem_of_singleton. reflexivity. }
    assert (Hlen2' : u8 (mem (options + 3 + 1)) = 1).
    { replace (options + 3 + 1) with (options + 4) by lia. exact Hlen2. }
    split.
    + intros Hroom. specialize (Hscan ltac:(lia)).
      rewrite (repeated_option_at mem options options_length s0 _ _ _ _
                 Hscan).
      * reflexivity.
      * fold end_ptr. lia.
      * exact Hin.
      * fold end_ptr. lia.
      * fold end_ptr. rewrite Hlen2'. lia.
    + intros [Hroom Hcut]. specialize (Hscan Hroom).
      rewrite (ParseDHCPOptions_at _ _ _ _ _ _ _ _ Hscan)
        by (fold end_ptr; lia).
      fold end_ptr.
      assert (Hpad : u8 (mem (options + 3)) <> kDHCPOptionPad)
        by (rewrite Htag2; discriminate).
      assert (Hend : u8 (mem (options + 3)) <> kDHCPOptionEnd)
        by (rewrite Htag2; discriminate).
      destruct (Z_lt_dec (options + 3 + 1) end_ptr) as [Hl|Hl].
      * rewrite (loop_body_overrun mem end_ptr (options + 3) _ _
                   Hpad Hend Hl) by (rewrite Hlen2'; lia).
        reflexivity.
      * rewrite (loop_body_no_length mem end_ptr (options + 3) _ _
                   Hpad Hend) by lia.
        reflexivity.
  - intros length s tags ptr options_set s' Hlen Hinv Hscan Hptr Hin Hknown.
    destruct (Hmet _ _ _ _ _ _ _ Hscan Hin Hknown) as (Hset & Hpad & Hend).
    pose proof (options_end_ptr length Hlen) as Hwin.
    pose proof (u8_range (mem (ptr + 1))) as Hr.
    rewrite (InitFromBuffer_valid mem length s Hlen Hinv).
    split.
    + intros Hinside.
      apply (repeated_option_at mem Raw.options _ _ tags ptr options_set s');
        try assumption; rewrite Hwin; lia.
    + intros Hbehind.
      rewrite (ParseDHCPOptions_at _ _ _ _ _ _ _ _ Hscan)
        by (rewrite Hwin; lia).
      rewrite Hwin.
      destruct (Z_lt_dec (ptr + 1) (length + 1)) as [Hl|Hl].
      * rewrite (loop_body_overrun mem (length + 1) ptr _ _ Hpad Hend Hl)
          by lia.
        reflexivity.
      * rewrite (loop_body_no_length mem (length + 1) ptr _ _ Hpad Hend)
          by lia.
        reflexivity.
Qed.

Lemma repeated_option_rejected_witness :
  ParseDHCPOptions (memory_of [53; 1; 5; 53; 1; 5; 255]) 0 7 blank
  = (inl DuplicateOption,
     {| message := set_message_type 5 blank_message;
        reads := [0; 1; 2; 3; 4] |})
  /\ (ParseDHCPOptions (memory_of [53; 1; 5; 53; 1; 5; 255]) 0 6 blank).1
     = inl TruncatedOption
  /\ (InitFromBuffer
        (Some (memory_of (reply_header 6 ++ [53; 1; 5; 53; 1; 5]))) 246
        blank).1
     = inl DuplicateOption
  /\ (InitFromBuffer
        (Some (memory_of (reply_header 6 ++ [53; 1; 5; 53; 1; 5]))) 245
        blank).1
     = inl TruncatedOption.
Proof.
  split; [|split; [|split]].
  - assert (Hscan : scans (memory_of [53; 1; 5; 53; 1; 5; 255])
                      (size_t (0 + 7)) 0 ∅ blank [53] 3 {[53]}
                      {| message := set_message_type 5 blank_message;
                         reads := [0; 1; 2] |}) by scan_turns.
    apply (proj1 (proj2
             (proj1 (repeated_option_rejected
                       (memory_of [53; 1; 5; 53; 1; 5; 255]))
                0 7 blank [53] 3 {[53]} _ Hscan
                ltac:(vm_compute; reflexivity)
                ltac:(left; vm_compute; reflexivity)
                ltac:(vm_compute; eauto)))).
    + vm_compute. reflexivity.
    + vm_compute. reflexivity.
  - apply (proj2
             (proj1 (proj2 (repeated_option_rejected
                              (memory_of [53; 1; 5; 53; 1; 5; 255])))
                0 6 blank
                ltac:(vm_compute; reflexivity) ltac:(vm_compute; reflexivity)
                ltac:(vm_compute; reflexivity) ltac:(vm_compute; reflexivity))).
    vm_compute. split; [reflexivity|discriminate].
  - set (mem := memory_of (reply_header 6 ++ [53; 1; 5; 53; 1; 5])).
    assert (Hscan : scans mem
                      (size_t (Raw.options
                               + size_t (0 + 246 - Raw.options + 1)))
                      Raw.options ∅ (after_header mem blank) [53] 243 {[53]}
                      (logged
                         {| message :=
                              set_message_type 5
                                (message (after_header mem blank));
                            reads := reads (after_header mem blank) |}
                         [240; 241; 242])) by scan_turns.
    rewrite (proj1
               (proj2 (proj2 (repeated_option_rejected mem))
                  246 blank [53] 243 {[53]} _
                  ltac:(vm_compute; split; discriminate)
                  ltac:(vm_compute; repeat split)
                  Hscan
                  ltac:(vm_compute; discriminate)
                  ltac:(left; vm_compute; reflexivity)
                  ltac:(vm_compute; eauto))
               ltac:(vm_compute; discriminate)).
    reflexivity.
  - set (mem := memory_of (reply_header 6 ++ [53; 1; 5; 53; 1; 5])).
    assert (Hscan : scans mem
                      (size_t (Raw.options
                               + size_t (0 + 245 - Raw.options + 1)))
                      Raw.options ∅ (after_header mem blank) [53] 243 {[53]}
                      (logged
                         {| message :=
                              set_message_type 5
                                (message (after_header mem blank));
                            reads := reads (after_header mem blank) |}
                         [240; 241; 242])) by scan_turns.
    apply (proj2
             (proj2 (proj2 (repeated_option_rejected mem))
                245 blank [53] 243 {[53]} _
                ltac:(vm_compute; split; discriminate)
                ltac:(vm_compute; repeat split)
                Hscan
                ltac:(vm_compute; discriminate)
                ltac:(left; vm_compute; reflexivity)
                ltac:(vm_compute; eauto))).
    vm_compute. reflexivity.
Defined.

(** A tag the table does not know is never recorded: repeating it is not
    an error. *)
Example unknown_repeat_is_ignored :
  (ParseDHCPOptions (memory_of [99; 1; 7; 99; 1; 7; 53; 1; 5; 255])
     0 10 blank).1 = inr tt.
Proof. vm_compute. reflexivity. Qed.

(** In a datagram of accepted length, a second occurrence that lies
    inside the datagram passes the bounds checks: the call fails with
    [DuplicateOption]. *)
Lemma repeated_option_in_datagram mem length s0 tags ptr options_set s :
  kDHCPMessageMinLength <= length <= kDHCPMessageMaxLength ->
  let options_length := size_t (0 + length - Raw.options + 1) in
  scans mem (size_t (Raw.options + options_length)) Raw.options ∅ s0 tags
    ptr options_set s ->
  u8 (mem ptr) ∈ options_set ->
  ptr + 2 + u8 (mem (ptr + 1)) <= length ->
  ParseDHCPOptions mem Raw.options options_length s0
  = (inl DuplicateOption, logged s [ptr; ptr + 1]).
Proof.
  intros Hlen options_length Hscan Hin Hinside.
  pose proof (options_end_ptr length Hlen) as Hwin.
  fold options_length in Hwin.
  pose proof (u8_range (mem (ptr + 1))).
  apply (repeated_option_at mem Raw.options options_length s0 tags
           ptr options_set s); try assumption; rewrite Hwin; lia.
Qed.

End ScanProperties.

(* ===================================================================== *)
(** * Reads beyond the datagram and beyond the hardware-address field *)
(* ===================================================================== *)

Module Overreads.
Import Decoder HeaderFacts ParserFacts ScanFacts InitFacts.

(** C1. An option is accepted although its payload runs to the very end
    of the buffer. In the 243-byte datagram that ends with option 53
    (tag at offset 240, length 1 at 241, payload at 242, the last byte)
    the payload check compares with offset 244, not 243: the turn goes on
    to offset 243 with 53 accepted, and with an END behind the datagram
    the call returns [true] with message type 5. Relative to the end the
    scan is given, the checks are as [option_bounds_checked] states. *)
Theorem exact_fit_option_accepted :
  let mem := unterminated_reply 255 in
  let length := 243 in
  let end_ptr := size_t (Raw.options + size_t (0 + length - Raw.options + 1)) in
  end_ptr = length + 1
  /\ u8 (mem 240) = kDHCPOptionMessageType /\ u8 (mem 241) = 1
  /\ 240 + 2 + u8 (mem 241) = length
  /\ (loop_body mem end_ptr Raw.options ∅ (after_header mem blank)).1
     = inr (Continue length {[kDHCPOptionMessageType]})
  /\ (InitFromBuffer (Some mem) length blank).1 = inr tt
  /\ message_type_ (message (InitFromBuffer (Some mem) length blank).2) = 5.
Proof. vm_compute. repeat split. Qed.

(** The same for every datagram of accepted length: an option whose
    payload ends with the last byte of the datagram passes the payload
    check. *)
Lemma exact_fit_passes_checks mem length ptr options_set s r s' :
  kDHCPMessageMinLength <= length <= kDHCPMessageMaxLength ->
  let end_ptr := size_t (Raw.options + size_t (0 + length - Raw.options + 1)) in
  u8 (mem ptr) <> kDHCPOptionPad -> u8 (mem ptr) <> kDHCPOptionEnd ->
  ptr + 2 + u8 (mem (ptr + 1)) = length ->
  loop_body mem end_ptr ptr options_set s = (r, s') ->
  r <> inl TruncatedOption.
Proof.
  intros Hlen end_ptr Hpad Hend Hfit.
  pose proof (options_end_ptr length Hlen) as Hwin. fold end_ptr in Hwin.
  pose proof (u8_range (mem (ptr + 1))).
  apply loop_body_past_checks; try assumption; lia.
Qed.

(** C2. The scan is not confined to the offsets 240 to [length - 1] of
    the datagram: the options length passed on is [length - 240 + 1], so
    the offset [length] belongs to the scan as well. Two memories that
    hold the same 243-byte datagram (header, then option 53 of length 1,
    no END) and differ only in the byte behind it decode differently: with
    255 behind it the call returns [true], with 0 it fails with
    [UnterminatedOptions]; in both the last offset read is 243. *)
Theorem option_scan_reads_past_datagram :
  bytes_at (unterminated_reply 255) 0 243 = bytes_at (unterminated_reply 0) 0 243
  /\ (InitFromBuffer (Some (unterminated_reply 255)) 243 blank).1 = inr tt
  /\ (InitFromBuffer (Some (unterminated_reply 0)) 243 blank).1
     = inl UnterminatedOptions
  /\ List.last (reads (InitFromBuffer (Some (unterminated_reply 255)) 243 blank).2) 0
     = 243
  /\ List.last (reads (InitFromBuffer (Some (unterminated_reply 0)) 243 blank).2) 0
     = 243.
Proof. vm_compute. repeat split. Qed.

(** C3. The copy that builds [client_hardware_address_] takes [hlen]
    bytes, not at most 16. For the 236-byte datagram whose [hlen] is 255
    the call goes on past the length test of line 114 and fails only in
    [IsValid]; by then 255 bytes have been copied from the offsets 28 to
    282: the byte at index 16 comes from offset 44 (the server name), the
    last one from offset 282, which is behind the datagram. *)
Theorem hardware_address_copy_overruns_field :
  let r := InitFromBuffer (Some long_hlen_frame) 236 blank in
  r.1 = inl InvalidMessage
  /\ hardware_address_length_ (message r.2) = 255
  /\ length (client_hardware_address_ (message r.2)) = 255%nat
  /\ client_hardware_address_ (message r.2)
     = bytes_at long_hlen_frame Raw.chaddr 255
  /\ firstn 255 (skipn 32 (reads r.2)) = offsets Raw.chaddr 255
  /\ nth 16 (client_hardware_address_ (message r.2)) Byte.x00
     = long_hlen_frame Raw.sname
  /\ nth 254 (client_hardware_address_ (message r.2)) Byte.x00
     = byte_of_Z 0xEE.
Proof. vm_compute. repeat split. Qed.

(** For every datagram of accepted length the copy is of [hlen] bytes from
    offset 28 on, and these offsets are read. *)
Lemma chaddr_copy_length mem length s :
  kDHCPMessageMinLength <= length <= kDHCPMessageMaxLength ->
  let r := InitFromBuffer (Some mem) length s in
  client_hardware_address_ (message r.2)
  = bytes_at mem Raw.chaddr (Z.to_nat (u8 (mem Raw.hlen)))
  /\ exists before after,
       reads r.2
       = before ++ offsets Raw.chaddr (Z.to_nat (u8 (mem Raw.hlen))) ++ after.
Proof.
  intros Hlen r. split.
  - pose proof (InitFromBuffer_header mem length s Hlen) as Hh.
    apply (f_equal h_chaddr) in Hh. exact Hh.
  - destruct (InitFromBuffer_reads mem length s Hlen) as [l [Hr _]].
    subst r. rewrite Hr. unfold header_reads.
    exists (reads s ++ offsets Raw.op 28 ++ offsets Raw.cookie 4).
    eexists. rewrite <- !app_assoc. reflexivity.
Qed.

(** C7. A datagram without an END tag does not always fail with
    [UnterminatedOptions]. The 244-byte datagram of [padded_reply] holds,
    after the header, the option 53 and one PAD byte, and no byte 255. The
    scan is given the offset 245 as its end, so after the datagram is
    exhausted it reads the byte behind it: with 255 there the call returns
    [true], with 0 it fails with [UnterminatedOptions], with 7 it fails
    with [TruncatedOption], for the same datagram. And an options area
    without END that ends with a complete option fails the payload check
    of that option, with [TruncatedOption], before the loop is left. *)
Theorem unterminated_datagram_accepted :
  map u8 (bytes_at (padded_reply 255) Raw.options 4) = [53; 1; 5; 0]
  /\ bytes_at (padded_reply 255) 0 244 = bytes_at (padded_reply 0) 0 244
  /\ bytes_at (padded_reply 255) 0 244 = bytes_at (padded_reply 7) 0 244
  /\ (InitFromBuffer (Some (padded_reply 255)) 244 blank).1 = inr tt
  /\ (InitFromBuffer (Some (padded_reply 0)) 244 blank).1
     = inl UnterminatedOptions
  /\ (InitFromBuffer (Some (padded_reply 7)) 244 blank).1
     = inl TruncatedOption
  /\ List.last (reads (InitFromBuffer (Some (padded_reply 255)) 244 blank).2) 0
     = 244
  /\ (ParseDHCPOptions (memory_of [53; 1; 5; 51; 4; 0; 0; 14; 16]) 0 9
        blank).1
     = inl TruncatedOption.
Proof. vm_compute. repeat split. Qed.

(** The same for every datagram of accepted length with a valid header:
    when the scan has gone through the whole datagram without meeting an
    END tag, the byte behind the datagram decides. With 255 there the call
    returns [true] if option 53 was met and fails with [MissingMessageType]
    otherwise; with 0 it fails with [UnterminatedOptions]; with any other
    value it fails with [TruncatedOption]. *)
Lemma exhausted_datagram_outcome mem length s tags options_set s' :
  kDHCPMessageMinLength <= length <= kDHCPMessageMaxLength ->
  header_invariants (header_at mem) ->
  scans mem (size_t (Raw.options + size_t (0 + length - Raw.options + 1)))
    Raw.options ∅ (after_header mem s) tags length options_set s' ->
  (u8 (mem length) = kDHCPOptionEnd ->
   InitFromBuffer (Some mem) length s
   = (if bool_decide (kDHCPOptionMessageType ∈ options_set)
      then inr tt else inl MissingMessageType, logged s' [length]))
  /\ (u8 (mem length) = kDHCPOptionPad ->
      InitFromBuffer (Some mem) length s
      = (inl UnterminatedOptions, logged s' [length]))
  /\ (u8 (mem length) <> kDHCPOptionEnd ->
      u8 (mem length) <> kDHCPOptionPad ->
      InitFromBuffer (Some mem) length s
      = (inl TruncatedOption, logged s' [length])).
Proof.
  intros Hlen Hinv Hscan.
  pose proof (options_end_ptr length Hlen) as Hwin.
  rewrite (InitFromBuffer_valid mem length s Hlen Hinv).
  rewrite (ParseDHCPOptions_at _ _ _ _ _ _ _ _ Hscan) by (rewrite Hwin; lia).
  rewrite Hwin. split; [|split].
  - intros Hend. rewrite (loop_body_end mem _ length _ _ Hend).
    destruct (bool_decide _); reflexivity.
  - intros Hpad. rewrite (loop_body_pad mem _ length _ _ Hpad).
    apply parse_loop_exhausted. lia.
  - intros Hend Hpad.
    rewrite (loop_body_no_length mem _ length _ _ Hpad Hend) by lia.
    reflexivity.
Qed.

End Overreads.

(* ===================================================================== *)
(** * The checksum *)
(* ===================================================================== *)

Module ChecksumFacts.
Import Checksum.

(** Lists taken two bytes at a time, as the loop does. *)
Lemma list_pair_ind {A} (P : list A -> Prop) :
  P [] -> (forall x, P [x]) -> (forall x y l, P l -> P (x :: y :: l)) ->
  forall l, P l.
Proof.
  intros Hnil Hone Hstep.
  assert (H : forall l, P l /\ forall x, P (x :: l)).
  { induction l as [|y l [IH1 IH2]]; split; auto. }
  intros l. apply H.
Qed.

Lemma land_shiftl_low a b n :
  0 <= n -> 0 <= b < 2 ^ n -> Z.land (Z.shiftl a n) b = 0.
Proof.
  intros Hn Hb. apply Z.bits_inj'. intros m Hm.
  rewrite Z.land_spec, Z.bits_0, Z.shiftl_spec by lia.
  destruct (Z.lt_ge_cases m n).
  - rewrite (Z.testbit_neg_r a (m - n)) by lia. reflexivity.
  - rewrite <- (Z.mod_small b (2 ^ n)) by lia.
    rewrite Z.mod_pow2_bits_high by lia. apply andb_false_r.
Qed.

Lemma lor_shiftl_8 a b :
  0 <= b < 256 -> Z.lor (Z.shiftl a 8) b = a * 256 + b.
Proof.
  intros Hb.
  pose proof (Z.add_lor_land (Z.shiftl a 8) b) as H.
  rewrite (land_shiftl_low a b 8) in H
    by (change (2 ^ 8) with 256; lia).
  rewrite Z.shiftl_mul_pow2 in H |- * by lia.
  change (2 ^ 8) with 256 in *. lia.
Qed.

Lemma uint32_idem z : uint32 (uint32 z) = uint32 z.
Proof. unfold uint32. apply Z.mod_mod. lia. Qed.

Lemma uint32_add_l a b : uint32 (uint32 a + b) = uint32 (a + b).
Proof. unfold uint32. apply Zplus_mod_idemp_l. Qed.

(** The loop computes the word sum modulo 2^32. *)
Lemma sum_loop_word_sum data : forall sum,
  sum_loop data (uint32 sum) = uint32 (sum + word_sum data).
Proof.
  induction data as [|d0|d0 d1 rest IH] using list_pair_ind; intros sum.
  - cbn. f_equal. lia.
  - cbn. rewrite Z.shiftl_mul_pow2 by lia. change (2 ^ 8) with 256.
    apply uint32_add_l.
  - cbn [sum_loop word_sum]. rewrite IH.
    rewrite lor_shiftl_8 by apply u8_range.
    rewrite <- Z.add_assoc, uint32_add_l. reflexivity.
Qed.

Lemma ComputeChecksum_word_sum data :
  ComputeChecksum data = fold_complement (uint32 (word_sum data)).
Proof.
  unfold ComputeChecksum. change 0 with (uint32 0) at 1.
  rewrite sum_loop_word_sum. reflexivity.
Qed.

Lemma word_sum_app pre rest :
  Nat.Even (length pre) ->
  word_sum (pre ++ rest) = word_sum pre + word_sum rest.
Proof.
  induction pre as [|x|x y pre IH] using list_pair_ind; intros Heven.
  - reflexivity.
  - destruct Heven as [k Hk]. cbn in Hk. lia.
  - cbn [app word_sum length] in *. rewrite IH; [lia|].
    destruct Heven as [k Hk]. exists (k - 1)%nat. lia.
Qed.

(** The folding and the complement, in arithmetic. *)
Lemma fold_complement_spec sum :
  0 <= sum < 2 ^ 32 ->
  let t := sum / 65536 + sum mod 65536 in
  fold_complement sum = if t <? 65536 then 65535 - t else 131070 - t.
Proof.
  intros Hs t. unfold fold_complement.
  change 0xffff with (Z.ones 16). rewrite Z.land_ones by lia.
  rewrite !Z.shiftr_div_pow2 by lia. change (2 ^ 16) with 65536.
  fold t.
  assert (Ht : 0 <= t <= 131070).
  { subst t. pose proof (Z.mod_pos_bound sum 65536 ltac:(lia)).
    assert (0 <= sum / 65536 < 65536).
    { split; [apply Z.div_pos; lia|apply Z.div_lt_upper_bound; lia]. }
    lia. }
  assert (Hu : uint32 t = t) by (unfold uint32; apply Z.mod_small; lia).
  rewrite !Hu. change (Z.ones 16) with 65535.
  unfold Z.lnot, uint32, uint16. change (2 ^ 16) with 65536.
  destruct (Z.ltb_spec t 65536) as [Hlt|Hge].
  - rewrite (Z.div_small t) by lia. rewrite Z.add_0_r.
    rewrite (Z.mod_small t (2 ^ 32)) by lia.
    rewrite (Z.mod_small t 65536) by lia.
    replace (Z.pred (- t)) with (65535 - t + -1 * 65536) by lia.
    rewrite Z.mod_add by lia. apply Z.mod_small. lia.
  - assert (t / 65536 = 1) as ->.
    { symmetry. apply (Z.div_unique t 65536 1 (t - 65536)); lia. }
    rewrite (Z.mod_small (t + 1) (2 ^ 32)) by lia.
    replace (t + 1) with (t - 65535 + 1 * 65536) by lia.
    rewrite Z.mod_add by lia. rewrite (Z.mod_small (t - 65535)) by lia.
    replace (Z.pred (- (t - 65535))) with (131070 - t + -1 * 65536) by lia.
    rewrite Z.mod_add by lia. apply Z.mod_small. lia.
Qed.

Lemma fold_complement_range sum :
  0 <= sum < 2 ^ 32 -> 0 <= fold_complement sum < 65536.
Proof.
  intros Hs. unfold fold_complement, uint16. apply Z.mod_pos_bound. lia.
Qed.

(** Adding its own checksum to a sum gives a sum whose checksum is 0, and
    the addition does not overflow 32 bits. *)
Lemma fold_complement_residual sum :
  0 <= sum < 2 ^ 32 ->
  fold_complement (uint32 (sum + fold_complement sum)) = 0.
Proof.
  intros Hs. pose proof (fold_complement_spec sum Hs) as Hc. cbn zeta in Hc.
  pose proof (Z.div_mod sum 65536 ltac:(lia)) as Hdm.
  pose proof (Z.mod_pos_bound sum 65536 ltac:(lia)) as Hl.
  assert (Hh : 0 <= sum / 65536 < 65536).
  { split; [apply Z.div_pos; lia|apply Z.div_lt_upper_bound; lia]. }
  set (h := sum / 65536) in *. set (l := sum mod 65536) in *.
  assert (Hres : exists h' l', 0 <= l' < 65536 /\ 0 <= h' < 65536
             /\ sum + fold_complement sum = 65536 * h' + l'
             /\ (h' + l' = 65535 \/ h' + l' = 131070)).
  { destruct (Z.ltb_spec (h + l) 65536).
    - exists h, (65535 - h). lia.
    - destruct (Z.eq_dec h 65535).
      + exists 65535, 65535. lia.
      + exists (h + 1), (65534 - h). lia. }
  destruct Hres as (h' & l' & Hl' & Hh' & Hsum & Ht).
  rewrite Hsum. unfold uint32. rewrite Z.mod_small by lia.
  rewrite fold_complement_spec by lia. cbn zeta.
  assert ((65536 * h' + l') / 65536 = h') as ->.
  { symmetry. apply (Z.div_unique _ 65536 h' l'); lia. }
  assert ((65536 * h' + l') mod 65536 = l') as ->.
  { symmetry. apply (Z.mod_unique _ 65536 h' l'); lia. }
  destruct Ht as [-> | ->]; reflexivity.
Qed.

Lemma word_sum_checksum_bytes c rest :
  0 <= c < 65536 -> word_sum (checksum_bytes c ++ rest) = c + word_sum rest.
Proof.
  intros Hc. unfold checksum_bytes. cbn [app word_sum].
  rewrite !u8_byte_of_Z. unfold uint8. change (2 ^ 8) with 256.
  change 0xff with (Z.ones 8). rewrite Z.land_ones by lia.
  rewrite Z.shiftr_div_pow2 by lia. change (2 ^ 8) with 256.
  rewrite Z.mod_mod by lia.
  rewrite (Z.mod_small (c / 256)).
  - pose proof (Z.div_mod c 256 ltac:(lia)). lia.
  - split; [apply Z.div_pos; lia|apply Z.div_lt_upper_bound; lia].
Qed.

Lemma sum_loop_zeros n : sum_loop (repeat Byte.x00 (2 * n)) 0 = 0.
Proof.
  induction n as [|n IH]; [reflexivity|].
  replace (2 * S n)%nat with (S (S (2 * n))) by lia.
  cbn [repeat sum_loop]. exact IH.
Qed.

Lemma end_around_add_step t w :
  0 <= t -> 0 <= w < 65536 ->
  end_around_add (end_around t) w = end_around (t + w).
Proof.
  intros Ht Hw. unfold end_around_add, end_around.
  change (2 ^ 16) with 65536.
  destruct (Z.eqb_spec t 0) as [->|Hnz].
  - rewrite !Z.add_0_l, (Z.mod_small w), (Z.div_small w), Z.add_0_r by lia.
    destruct (Z.eqb_spec w 0) as [->|]; [reflexivity|].
    rewrite Z.mod_small by lia. lia.
  - destruct (Z.eqb_spec (t + w) 0); [lia|].
    pose proof (Z.div_mod (t - 1) 65535 ltac:(lia)) as Hdm.
    pose proof (Z.mod_pos_bound (t - 1) 65535 ltac:(lia)) as Hr.
    set (q := (t - 1) / 65535) in *. set (r := (t - 1) mod 65535) in *.
    destruct (Z_lt_dec (r + 1 + w) 65536) as [Hlt|Hge].
    + rewrite (Z.mod_small (r + 1 + w)), (Z.div_small (r + 1 + w)) by lia.
      assert ((t + w - 1) mod 65535 = r + w) as ->; [|lia].
      symmetry. apply (Z.mod_unique _ 65535 q (r + w)); lia.
    + assert ((r + 1 + w) / 65536 = 1) as ->.
      { symmetry. apply (Z.div_unique _ 65536 1 (r + 1 + w - 65536)); lia. }
      assert ((r + 1 + w) mod 65536 = r + 1 + w - 65536) as ->.
      { symmetry. apply (Z.mod_unique _ 65536 1 (r + 1 + w - 65536)); lia. }
      assert ((t + w - 1) mod 65535 = r + w - 65535) as ->; [|lia].
      symmetry. apply (Z.mod_unique _ 65535 (q + 1) (r + w - 65535)); lia.
Qed.

Lemma be_words_range data : Forall (fun w => 0 <= w < 65536) (be_words data).
Proof.
  induction data as [|d0|d0 d1 rest IH] using list_pair_ind; cbn.
  - constructor.
  - pose proof (u8_range d0). repeat constructor; lia.
  - pose proof (u8_range d0). pose proof (u8_range d1).
    constructor; [lia|exact IH].
Qed.

Lemma fold_end_around ws : forall t,
  0 <= t -> Forall (fun w => 0 <= w < 65536) ws ->
  fold_left end_around_add ws (end_around t)
  = end_around (t + fold_right Z.add 0 ws).
Proof.
  induction ws as [|w ws IH]; intros t Ht Hws; cbn.
  - rewrite Z.add_0_r. reflexivity.
  - inversion Hws as [|? ? Hw Hws']; subst.
    rewrite end_around_add_step by assumption.
    rewrite IH by (assumption || lia). f_equal. lia.
Qed.

Lemma word_sum_be_words data : word_sum data = fold_right Z.add 0 (be_words data).
Proof.
  induction data as [|d0|d0 d1 rest IH] using list_pair_ind; cbn;
    [reflexivity|lia|rewrite IH; reflexivity].
Qed.

Lemma word_sum_range data :
  0 <= 2 * word_sum data <= 65535 * (Z.of_nat (length data) + 1).
Proof.
  induction data as [|d0|d0 d1 rest IH] using list_pair_ind.
  - cbn. lia.
  - pose proof (u8_range d0). cbn [word_sum length]. lia.
  - pose proof (u8_range d0). pose proof (u8_range d1).
    cbn [word_sum length]. lia.
Qed.

Lemma fold_complement_end_around sum :
  0 <= sum < 2 ^ 32 -> fold_complement sum = 65535 - end_around sum.
Proof.
  intros Hs. rewrite (fold_complement_spec sum Hs). cbn zeta.
  unfold end_around.
  pose proof (Z.div_mod sum 65536 ltac:(lia)) as Hdm.
  pose proof (Z.mod_pos_bound sum 65536 ltac:(lia)) as Hl.
  assert (Hh : 0 <= sum / 65536 < 65536).
  { split; [apply Z.div_pos; lia|apply Z.div_lt_upper_bound; lia]. }
  set (h := sum / 65536) in *. set (l := sum mod 65536) in *.
  destruct (Z.eqb_spec sum 0) as [Hz|Hnz].
  - assert (h = 0 /\ l = 0) as [-> ->] by lia. reflexivity.
  - destruct (Z.ltb_spec (h + l) 65536).
    + assert ((sum - 1) mod 65535 = h + l - 1) as ->; [|lia].
      symmetry. apply (Z.mod_unique _ 65535 h (h + l - 1)); lia.
    + assert ((sum - 1) mod 65535 = h + l - 65536) as ->; [|lia].
      symmetry. apply (Z.mod_unique _ 65535 (h + 1) (h + l - 65536)); lia.
Qed.

(** For data of at most 2^17 bytes the 32-bit accumulator does not wrap,
    and the function is the checksum of the design. *)
Lemma ComputeChecksum_refines_spec data :
  Z.of_nat (length data) <= 2 ^ 17 ->
  ComputeChecksum data = spec_internet_checksum data.
Proof.
  intros Hlen. rewrite ComputeChecksum_word_sum.
  pose proof (word_sum_range data) as Hws.
  change (2 ^ 17) with 131072 in Hlen.
  assert (Hs : 0 <= word_sum data < 2 ^ 32) by lia.
  unfold uint32. rewrite Z.mod_small by exact Hs.
  rewrite fold_complement_end_around by exact Hs.
  unfold spec_internet_checksum.
  change (fold_left end_around_add (be_words data) 0)
    with (fold_left end_around_add (be_words data) (end_around 0)).
  rewrite fold_end_around by (lia || apply be_words_range).
  rewrite <- word_sum_be_words. reflexivity.
Qed.

Lemma checksum_of_zeros n :
  ComputeChecksum (repeat Byte.x00 (2 * n)) = 0xFFFF.
Proof. unfold ComputeChecksum. rewrite sum_loop_zeros. reflexivity. Qed.

Lemma checksum_odd_tail data b :
  Nat.Even (length data) ->
  ComputeChecksum (data ++ [b]) = ComputeChecksum (data ++ [b; Byte.x00])
  /\ sum_loop (data ++ [b]) 0 = uint32 (sum_loop data 0 + Z.shiftl (u8 b) 8).
Proof.
  intros Heven. split.
  - rewrite !ComputeChecksum_word_sum, !word_sum_app by assumption.
    cbn [word_sum]. rewrite u8_x00.
    apply (f_equal fold_complement), (f_equal uint32). lia.
  - change 0 with (uint32 0). rewrite !sum_loop_word_sum.
    rewrite word_sum_app by assumption. cbn [word_sum].
    rewrite uint32_add_l, Z.shiftl_mul_pow2 by lia.
    apply (f_equal uint32). change (2 ^ 8) with 256. lia.
Qed.

Lemma checksum_residual pre post :
  Nat.Even (length pre) ->
  ComputeChecksum
    (pre ++ checksum_bytes
              (ComputeChecksum (pre ++ [Byte.x00; Byte.x00] ++ post))
         ++ post)
  = 0.
Proof.
  intros Heven.
  set (c := ComputeChecksum (pre ++ [Byte.x00; Byte.x00] ++ post)).
  assert (Hc : c = fold_complement (uint32 (word_sum pre + word_sum post))).
  { subst c. rewrite ComputeChecksum_word_sum, word_sum_app by assumption.
    cbn [app word_sum]. rewrite u8_x00.
    apply (f_equal fold_complement), (f_equal uint32). lia. }
  assert (Hs : 0 <= uint32 (word_sum pre + word_sum post) < 2 ^ 32)
    by (apply Z.mod_pos_bound; lia).
  pose proof (fold_complement_range _ Hs) as Hrange. rewrite <- Hc in Hrange.
  rewrite ComputeChecksum_word_sum, word_sum_app by assumption.
  rewrite word_sum_checksum_bytes by exact Hrange.
  replace (word_sum pre + (c + word_sum post))
    with (word_sum pre + word_sum post + c) by lia.
  rewrite <- uint32_add_l, Hc.
  apply fold_complement_residual. exact Hs.
Qed.

Lemma checksum_of_zero_field pre :
  Nat.Even (length pre) ->
  ComputeChecksum (pre ++ [Byte.x00; Byte.x00]) = ComputeChecksum pre.
Proof.
  intros Heven. rewrite !ComputeChecksum_word_sum, word_sum_app by assumption.
  cbn [word_sum]. rewrite u8_x00.
  apply (f_equal fold_complement), (f_equal uint32). lia.
Qed.

(** C9, with the range of the accumulator made explicit.
    [ComputeChecksum] is the Internet ones' complement 16-bit checksum on
    every buffer of at most 2^17 bytes, where the word sum fits the 32-bit
    accumulator: there it agrees with the checksum as the design words it.
    For every all-zero buffer of even length it returns 0xFFFF. An odd
    trailing byte counts as the high-order byte of a last word padded with
    zero. And for every buffer, of any length, when the checksum computed
    with the two-byte checksum field (at an even offset) zero is stored in
    that field, high byte first, or appended to data of even length, the
    checksum of the result is 0x0000. *)
Theorem checksum_properties :
  (forall data, Z.of_nat (length data) <= 2 ^ 17 ->
     ComputeChecksum data = spec_internet_checksum data)
  /\ (forall n, ComputeChecksum (repeat Byte.x00 (2 * n)) = 0xFFFF)
  /\ (forall data b, Nat.Even (length data) ->
        ComputeChecksum (data ++ [b]) = ComputeChecksum (data ++ [b; Byte.x00])
        /\ sum_loop (data ++ [b]) 0
           = uint32 (sum_loop data 0 + Z.shiftl (u8 b) 8))
  /\ (forall pre post, Nat.Even (length pre) ->
        let sent :=
          pre ++ checksum_bytes
                   (ComputeChecksum (pre ++ [Byte.x00; Byte.x00] ++ post))
              ++ post in
        ComputeChecksum sent = 0x0000)
  /\ (forall data, Nat.Even (length data) ->
        ComputeChecksum (data ++ checksum_bytes (ComputeChecksum data))
        = 0x0000).
Proof.
  split; [|split; [|split; [|split]]].
  - exact ComputeChecksum_refines_spec.
  - exact checksum_of_zeros.
  - exact checksum_odd_tail.
  - intros pre post Heven sent. subst sent.
    apply checksum_residual. exact Heven.
  - intros data Heven.
    pose proof (checksum_residual data [] Heven) as H.
    cbn [app] in H. rewrite !app_nil_r in H.
    rewrite (checksum_of_zero_field data Heven) in H. exact H.
Qed.

Lemma checksum_properties_witness :
  ComputeChecksum (map byte_of_Z [0x45; 0x00; 0x00; 0x1c; 0xc0])
  = spec_internet_checksum (map byte_of_Z [0x45; 0x00; 0x00; 0x1c; 0xc0])
  /\ ComputeChecksum (map byte_of_Z [0x45; 0x00; 0x01])
     = ComputeChecksum (map byte_of_Z [0x45; 0x00; 0x01; 0x00])
  /\ ComputeChecksum
       (map byte_of_Z [0x45; 0x00; 0x00; 0x1c]
        ++ checksum_bytes
             (ComputeChecksum
                (map byte_of_Z [0x45; 0x00; 0x00; 0x1c]
                 ++ [Byte.x00; Byte.x00] ++ map byte_of_Z [0xc0; 0xa8; 0x01]))
        ++ map byte_of_Z [0xc0; 0xa8; 0x01])
     = 0
  /\ ComputeChecksum
       (map byte_of_Z [0x45; 0x00; 0x00; 0x1c]
        ++ checksum_bytes
             (ComputeChecksum (map byte_of_Z [0x45; 0x00; 0x00; 0x1c])))
     = 0.
Proof.
  split; [|split; [|split]].
  - apply (proj1 checksum_properties
             (map byte_of_Z [0x45; 0x00; 0x00; 0x1c; 0xc0])).
    vm_compute. discriminate.
  - apply (proj1 (proj2 (proj2 checksum_properties))
             (map byte_of_Z [0x45; 0x00]) (byte_of_Z 0x01)).
    exists 1%nat. reflexivity.
  - apply (proj1 (proj2 (proj2 (proj2 checksum_properties)))
             (map byte_of_Z [0x45; 0x00; 0x00; 0x1c])
             (map byte_of_Z [0xc0; 0xa8; 0x01])).
    exists 2%nat. reflexivity.
  - apply (proj2 (proj2 (proj2 (proj2 checksum_properties)))
             (map byte_of_Z [0x45; 0x00; 0x00; 0x1c])).
    exists 2%nat. reflexivity.
Defined.

Lemma word_sum_repeat b n :
  word_sum (repeat b (2 * n)) = Z.of_nat n * (u8 b * 256 + u8 b).
Proof.
  induction n as [|n IH]; [reflexivity|].
  replace (2 * S n)%nat with (S (S (2 * n))) by lia.
  cbn [repeat word_sum]. rewrite IH. lia.
Qed.

(** Past 2^17 bytes the accumulator can wrap, and a carry is lost: for
    131076 bytes 0xFF the checksum of the design is 0, the function
    returns 1. And a checksum stored at an odd offset does not give the
    residual 0. *)
Lemma checksum_accumulator_wraps :
  ComputeChecksum (repeat (byte_of_Z 0xFF) (2 * Z.to_nat 65538)) = 1
  /\ spec_internet_checksum (repeat (byte_of_Z 0xFF) (2 * Z.to_nat 65538)) = 0
  /\ ComputeChecksum (repeat (byte_of_Z 0xFF) (2 * Z.to_nat 65538))
     <> spec_internet_checksum (repeat (byte_of_Z 0xFF) (2 * Z.to_nat 65538))
  /\ ComputeChecksum
       ([byte_of_Z 1]
        ++ checksum_bytes (ComputeChecksum [byte_of_Z 1; Byte.x00; Byte.x00]))
     <> 0.
Proof.
  assert (Hcode : ComputeChecksum
                    (repeat (byte_of_Z 0xFF) (2 * Z.to_nat 65538)) = 1).
  { rewrite ComputeChecksum_word_sum, word_sum_repeat, Z2Nat.id by lia.
    vm_compute. reflexivity. }
  assert (Hideal : spec_internet_checksum
                     (repeat (byte_of_Z 0xFF) (2 * Z.to_nat 65538)) = 0).
  { unfold spec_internet_checksum.
    change (fold_left end_around_add ?ws 0)
      with (fold_left end_around_add ws (end_around 0)).
    rewrite fold_end_around by (lia || apply be_words_range).
    rewrite <- word_sum_be_words, word_sum_repeat, Z2Nat.id by lia.
    vm_compute. reflexivity. }
  split; [exact Hcode|]. split; [exact Hideal|]. split.
  - rewrite Hcode, Hideal. discriminate.
  - vm_compute. discriminate.
Qed.

End ChecksumFacts.

(* ===================================================================== *)
(** * The option scan as a whole: what is skipped and why a call ends *)
(* ===================================================================== *)

Module ScanOutcomes.
Import Decoder HeaderFacts ParserFacts ScanFacts InitFacts.

(** The tags of the table the constructor fills. *)
Lemma options_map_known tag :
  is_Some (options_map_ !! tag) <-> In tag [6; 51; 53; 54; 58; 59].
Proof.
  unfold options_map_, is_Some. split.
  - intros [c H]. revert H.
    rewrite !lookup_insert_Some, lookup_empty.
    intros H; repeat (destruct H as [[<- _]|[_ H]]); try discriminate;
      cbn; tauto.
  - cbn. intros H.
    repeat (destruct H as [<-|H]); try contradiction;
      vm_compute; eauto.
Qed.

Lemma options_map_unknown tag :
  options_map_ !! tag = None <-> ~ In tag [6; 51; 53; 54; 58; 59].
Proof.
  rewrite <- options_map_known. rewrite <- eq_None_not_Some. tauto.
Qed.

(** A turn at an option the table does not know. *)
Lemma loop_body_unknown mem end_ptr ptr options_set s :
  u8 (mem ptr) <> kDHCPOptionPad -> u8 (mem ptr) <> kDHCPOptionEnd ->
  ptr + 1 < end_ptr ->
  ptr + 2 + u8 (mem (ptr + 1)) < end_ptr ->
  u8 (mem ptr) ∉ options_set ->
  options_map_ !! u8 (mem ptr) = None ->
  loop_body mem end_ptr ptr options_set s
  = (inr (Continue (ptr + 2 + u8 (mem (ptr + 1))) options_set),
     logged s [ptr; ptr + 1]).
Proof.
  intros Hpad Hend Hlen Hpay Hnew Hnone. unfold loop_body.
  erewrite bind_inr by apply load_u8_spec.
  destruct (Z.eqb_spec (u8 (mem ptr)) kDHCPOptionPad); [contradiction|].
  destruct (Z.eqb_spec (u8 (mem ptr)) kDHCPOptionEnd); [contradiction|].
  destruct (Z.leb_spec end_ptr (ptr + 1)); [lia|].
  erewrite bind_inr by apply load_u8_spec.
  destruct (Z.leb_spec end_ptr (ptr + 1 + 1 + u8 (mem (ptr + 1)))); [lia|].
  rewrite bool_decide_eq_false_2 by assumption.
  rewrite Hnone, logged_logged. unfold ret. do 3 f_equal. lia.
Qed.

(** A turn at an option of the table that is not in the set yet: its
    parser decides. *)
Lemma loop_body_known mem end_ptr ptr options_set s context :
  u8 (mem ptr) <> kDHCPOptionPad -> u8 (mem ptr) <> kDHCPOptionEnd ->
  ptr + 1 < end_ptr ->
  ptr + 2 + u8 (mem (ptr + 1)) < end_ptr ->
  u8 (mem ptr) ∉ options_set ->
  options_map_ !! u8 (mem ptr) = Some context ->
  exists ok s1,
    GetOption mem context (ptr + 2) (u8 (mem (ptr + 1)))
      (logged s [ptr; ptr + 1]) = (inr ok, s1)
    /\ loop_body mem end_ptr ptr options_set s
       = (match ok with
          | Some _ => inr (Continue (ptr + 2 + u8 (mem (ptr + 1)))
                             (options_set ∪ {[u8 (mem ptr)]}))
          | None => inl (OptionDecodeError (u8 (mem ptr)))
          end, s1).
Proof.
  intros Hpad Hend Hlen Hpay Hnew Hsome. unfold loop_body.
  erewrite bind_inr by apply load_u8_spec.
  destruct (Z.eqb_spec (u8 (mem ptr)) kDHCPOptionPad); [contradiction|].
  destruct (Z.eqb_spec (u8 (mem ptr)) kDHCPOptionEnd); [contradiction|].
  destruct (Z.leb_spec end_ptr (ptr + 1)); [lia|].
  erewrite bind_inr by apply load_u8_spec.
  destruct (Z.leb_spec end_ptr (ptr + 1 + 1 + u8 (mem (ptr + 1)))); [lia|].
  rewrite bool_decide_eq_false_2 by assumption.
  rewrite Hsome, logged_logged. cbn [app].
  replace (ptr + 1 + 1) with (ptr + 2) by lia.
  destruct (GetOption mem context (ptr + 2) (u8 (mem (ptr + 1)))
              (logged s [ptr; ptr + 1])) as [r s1] eqn:Hget.
  pose proof (u8_range (mem (ptr + 1))).
  pose proof Hget as Heff.
  apply GetOption_effect in Heff as [_ [_ [ok ->]]];
    [|eapply options_map_keeps_header; eassumption|lia].
  exists ok, s1. split; [reflexivity|].
  unfold bind at 1. rewrite Hget. destruct ok; reflexivity.
Qed.

Lemma scans_snoc mem end_ptr ptr options_set s tags ptr1 options_set1 s1
      ptr2 options_set2 s2 :
  scans mem end_ptr ptr options_set s tags ptr1 options_set1 s1 ->
  ptr1 < end_ptr ->
  loop_body mem end_ptr ptr1 options_set1 s1
    = (inr (Continue ptr2 options_set2), s2) ->
  scans mem end_ptr ptr options_set s (tags ++ [u8 (mem ptr1)])
    ptr2 options_set2 s2.
Proof.
  induction 1 as [|ptr options_set s ptra options_seta sa tags
                   ptrb options_setb sb Hlt Hbody _ IH]; intros Hlt1 Hbody1.
  - cbn. eapply scans_turn; [exact Hlt1|exact Hbody1|apply scans_here].
  - cbn. eapply scans_turn; [exact Hlt|exact Hbody|]. apply IH; assumption.
Qed.

Lemma parse_loop_pads mem end_ptr options_set (k : nat) : forall ptr s,
  (forall i, (i < k)%nat -> u8 (mem (ptr + Z.of_nat i)) = kDHCPOptionPad) ->
  ptr + Z.of_nat k <= end_ptr ->
  parse_loop mem end_ptr ptr options_set s
  = parse_loop mem end_ptr (ptr + Z.of_nat k) options_set
      (logged s (offsets ptr k)).
Proof.
  induction k as [|k IH]; intros ptr s Hpads Hroom.
  - cbn. rewrite Z.add_0_r. unfold offsets. cbn. rewrite logged_nil.
    reflexivity.
  - rewrite parse_loop_unfold.
    destruct (Z_lt_dec ptr end_ptr); [|lia].
    assert (Hhere : u8 (mem ptr) = kDHCPOptionPad).
    { specialize (Hpads 0%nat ltac:(lia)). cbn in Hpads.
      rewrite Z.add_0_r in Hpads. exact Hpads. }
    rewrite (loop_body_pad mem end_ptr ptr options_set s Hhere).
    rewrite IH.
    + rewrite logged_logged, offsets_succ. cbn [app].
      replace (ptr + 1 + Z.of_nat k) with (ptr + Z.of_nat (S k)) by lia.
      reflexivity.
    + intros i Hi. specialize (Hpads (S i) ltac:(lia)).
      replace (ptr + 1 + Z.of_nat i) with (ptr + Z.of_nat (S i)) by lia.
      exact Hpads.
    + lia.
Qed.

(** X1. PAD bytes are skipped one by one, each read once: scanning an
    options area that begins with [k] PAD bytes is scanning the area that
    begins after them, and an area of PAD bytes only fails with
    [UnterminatedOptions]. *)
Theorem leading_pads_skipped mem options options_length s (k : nat) :
  (forall i, (i < k)%nat ->
     u8 (mem (options + Z.of_nat i)) = kDHCPOptionPad) ->
  options + Z.of_nat k <= size_t (options + options_length) ->
  ParseDHCPOptions mem options options_length s
  = ParseDHCPOptions mem (options + Z.of_nat k)
      (options_length - Z.of_nat k) (logged s (offsets options k))
  /\ (options + Z.of_nat k = size_t (options + options_length) ->
      ParseDHCPOptions mem options options_length s
      = (inl UnterminatedOptions, logged s (offsets options k))).
Proof.
  intros Hpads Hroom. unfold ParseDHCPOptions. cbn zeta.
  replace (options + Z.of_nat k + (options_length - Z.of_nat k))
    with (options + options_length) by lia.
  rewrite (parse_loop_pads mem _ ∅ k options s Hpads Hroom).
  split; [reflexivity|].
  intros Hall. apply parse_loop_exhausted. lia.
Qed.

Lemma leading_pads_skipped_witness :
  ParseDHCPOptions (memory_of [0; 0; 53; 1; 5; 255]) 0 6 blank
  = ParseDHCPOptions (memory_of [0; 0; 53; 1; 5; 255]) 2 4
      {| message := blank_message; reads := [0; 1] |}
  /\ ParseDHCPOptions (memory_of [0; 0; 0]) 0 3 blank
     = (inl UnterminatedOptions,
        {| message := blank_message; reads := [0; 1; 2] |}).
Proof.
  split.
  - apply (proj1 (leading_pads_skipped
                    (memory_of [0; 0; 53; 1; 5; 255]) 0 6 blank 2
                    ltac:(intros [|[|i]] Hi; [reflexivity|reflexivity|lia])
                    ltac:(vm_compute; discriminate))).
  - apply (proj2 (leading_pads_skipped (memory_of [0; 0; 0]) 0 3 blank 3
                    ltac:(intros [|[|[|i]]] Hi;
                          [reflexivity|reflexivity|reflexivity|lia])
                    ltac:(vm_compute; discriminate))).
    vm_compute. reflexivity.
Defined.

(** X2. An option whose tag is not one of the six of the table (6, 51, 53,
    54, 58, 59) and that passes the bounds checks is stepped over: the
    scan reads its tag and its length and nothing of its payload, leaves
    the message and the set of accepted options as they are, and goes on
    at the byte after the payload, however often that tag has been met
    before. *)
Theorem unknown_option_skipped
  mem options options_length s0 tags ptr options_set s :
  let end_ptr := size_t (options + options_length) in
  let option_length := u8 (mem (ptr + 1)) in
  scans mem end_ptr options ∅ s0 tags ptr options_set s ->
  u8 (mem ptr) <> kDHCPOptionPad -> u8 (mem ptr) <> kDHCPOptionEnd ->
  ~ In (u8 (mem ptr)) [6; 51; 53; 54; 58; 59] ->
  ptr + 1 < end_ptr ->
  ptr + 2 + option_length < end_ptr ->
  scans mem end_ptr options ∅ s0 (tags ++ [u8 (mem ptr)])
    (ptr + 2 + option_length) options_set
    {| message := message s; reads := reads s ++ [ptr; ptr + 1] |}
  /\ ParseDHCPOptions mem options options_length s0
     = parse_loop mem end_ptr (ptr + 2 + option_length) options_set
         {| message := message s; reads := reads s ++ [ptr; ptr + 1] |}.
Proof.
  intros end_ptr option_length Hscan Hpad Hend Hunknown Hlen Hpay.
  assert (Hnone : options_map_ !! u8 (mem ptr) = None)
    by (apply options_map_unknown; exact Hunknown).
  assert (Hnew : u8 (mem ptr) ∉ options_set).
  { intros Hin.
    apply (scans_options_set _ _ _ _ _ _ _ _ _ Hscan) in Hin
      as [Hin|[_ [c Hc]]]; [apply elem_of_empty in Hin; exact Hin|].
    rewrite Hnone in Hc. discriminate. }
  pose proof (loop_body_unknown mem end_ptr ptr options_set s
                Hpad Hend Hlen Hpay Hnew Hnone) as Hbody.
  assert (Hscan' := scans_snoc _ _ _ _ _ _ _ _ _ _ _ _ Hscan
                      ltac:(lia) Hbody).
  split; [exact Hscan'|].
  unfold ParseDHCPOptions. cbn zeta. fold end_ptr.
  apply (parse_loop_scans _ _ _ _ _ _ _ _ _ Hscan').
Qed.

Lemma unknown_option_skipped_witness :
  ParseDHCPOptions (memory_of [53; 1; 5; 99; 2; 255; 255; 255]) 0 8 blank
  = parse_loop (memory_of [53; 1; 5; 99; 2; 255; 255; 255]) (size_t (0 + 8))
      7 {[53]}
      {| message := set_message_type 5 blank_message;
         reads := [0; 1; 2] ++ [3; 3 + 1] |}.
Proof.
  assert (Hscan : scans (memory_of [53; 1; 5; 99; 2; 255; 255; 255])
                    (size_t (0 + 8)) 0 ∅ blank [53] 3 {[53]}
                    {| message := set_message_type 5 blank_message;
                       reads := [0; 1; 2] |}).
  { eapply scans_turn; [vm_compute; reflexivity| |apply scans_here].
    vm_compute. reflexivity. }
  apply (proj2 (unknown_option_skipped _ 0 8 blank _ 3 _ _ Hscan
           ltac:(vm_compute; discriminate)
           ltac:(vm_compute; discriminate)
           ltac:(vm_compute; intuition discriminate)
           ltac:(vm_compute; reflexivity)
           ltac:(vm_compute; reflexivity))).
Defined.

(** X3. Whatever the options are and however the call ends, the scan reads
    only offsets from [options] up to, and not including, the end it was
    given, and it writes none of the fixed-header members of the
    message. *)
Theorem option_scan_confined mem options options_length s :
  let r := ParseDHCPOptions mem options options_length s in
  header_of (message r.2) = header_of (message s)
  /\ exists l,
       reads r.2 = reads s ++ l
       /\ Forall (fun a => options <= a < size_t (options + options_length)) l.
Proof.
  pose proof (parse_loop_effect mem (size_t (options + options_length))
                options ∅ s) as [Hc _].
  exact Hc.
Qed.

Lemma scans_forward mem end_ptr ptr options_set s tags
      ptr' options_set' s' :
  scans mem end_ptr ptr options_set s tags ptr' options_set' s' ->
  ptr <= ptr'.
Proof.
  induction 1 as [|ptr options_set s ptr1 options_set1 s1 tags
                   ptr2 options_set2 s2 Hlt Hbody _ IH]; [lia|].
  apply loop_body_advances in Hbody. lia.
Qed.

(** Every call ends in a last turn: the scan comes to some [ptr'], and
    there the loop finds no byte left, or its body returns. *)
Lemma parse_loop_course mem end_ptr ptr options_set s :
  exists tags ptr' options_set' s',
    scans mem end_ptr ptr options_set s tags ptr' options_set' s'
    /\ ((end_ptr <= ptr'
         /\ parse_loop mem end_ptr ptr options_set s
            = (inl UnterminatedOptions, s'))
        \/ (ptr' < end_ptr
            /\ exists s'',
                 (exists e,
                    loop_body mem end_ptr ptr' options_set' s' = (inl e, s'')
                    /\ parse_loop mem end_ptr ptr options_set s
                       = (inl e, s''))
                 \/ (loop_body mem end_ptr ptr' options_set' s'
                       = (inr ReturnTrue, s'')
                     /\ parse_loop mem end_ptr ptr options_set s
                        = (inr tt, s'')))).
Proof.
  apply (parse_loop_elim mem
    (fun end_ptr ptr options_set s r =>
       exists tags ptr' options_set' s',
         scans mem end_ptr ptr options_set s tags ptr' options_set' s'
         /\ ((end_ptr <= ptr' /\ r = (inl UnterminatedOptions, s'))
             \/ (ptr' < end_ptr
                 /\ exists s'',
                      (exists e,
                         loop_body mem end_ptr ptr' options_set' s'
                           = (inl e, s'')
                         /\ r = (inl e, s''))
                      \/ (loop_body mem end_ptr ptr' options_set' s'
                            = (inr ReturnTrue, s'')
                          /\ r = (inr tt, s'')))))).
  - intros e p Hge o s0 _. exists [], p, o, s0.
    split; [apply scans_here|]. left. split; [lia|reflexivity].
  - intros e p Hlt o s0 err s1 Hbody _ _. exists [], p, o, s0.
    split; [apply scans_here|]. right. split; [exact Hlt|].
    exists s1. left. exists err. auto.
  - intros e p Hlt o s0 s1 Hbody _ _. exists [], p, o, s0.
    split; [apply scans_here|]. right. split; [exact Hlt|].
    exists s1. right. auto.
  - intros e p Hlt o s0 p1 o1 s1 Hbody
      (tags & p2 & o2 & s2 & Hscan & Hlast) _ _.
    exists (u8 (mem p) :: tags), p2, o2, s2.
    split; [|exact Hlast].
    eapply scans_turn; eassumption.
Qed.

(** Why the body of the loop returns [true]. *)
Lemma loop_body_return_true mem end_ptr ptr options_set s s' :
  loop_body mem end_ptr ptr options_set s = (inr ReturnTrue, s') ->
  u8 (mem ptr) = kDHCPOptionEnd
  /\ kDHCPOptionMessageType ∈ options_set
  /\ s' = logged s [ptr].
Proof.
  destruct (Z.eq_dec (u8 (mem ptr)) kDHCPOptionEnd) as [Hend|Hend].
  - rewrite (loop_body_end mem end_ptr ptr options_set s Hend).
    destruct (bool_decide_reflect (kDHCPOptionMessageType ∈ options_set));
      intros [= <-]; auto.
  - destruct (Z.eq_dec (u8 (mem ptr)) kDHCPOptionPad) as [Hpad|Hpad].
    { rewrite (loop_body_pad mem end_ptr ptr options_set s Hpad).
      discriminate. }
    unfold loop_body.
    erewrite bind_inr by apply load_u8_spec.
    destruct (Z.eqb_spec (u8 (mem ptr)) kDHCPOptionPad); [contradiction|].
    destruct (Z.eqb_spec (u8 (mem ptr)) kDHCPOptionEnd); [contradiction|].
    destruct (Z.leb_spec end_ptr (ptr + 1)); [discriminate|].
    erewrite bind_inr by apply load_u8_spec.
    destruct (Z.leb_spec end_ptr (ptr + 1 + 1 + u8 (mem (ptr + 1))));
      [discriminate|].
    destruct (bool_decide _); [discriminate|].
    destruct (options_map_ !! u8 (mem ptr)); [|discriminate].
    unfold bind at 1.
    destruct (GetOption _ _ _ _ _) as [[?|[?|]] ?]; discriminate.
Qed.

(** Why the body of the loop returns [false], site by site. *)
Lemma loop_body_failure mem end_ptr ptr options_set s e s' :
  loop_body mem end_ptr ptr options_set s = (inl e, s') ->
  (e = MissingMessageType /\ u8 (mem ptr) = kDHCPOptionEnd
   /\ (kDHCPOptionMessageType ∉ options_set) /\ s' = logged s [ptr])
  \/ (e = TruncatedOption
      /\ u8 (mem ptr) <> kDHCPOptionPad /\ u8 (mem ptr) <> kDHCPOptionEnd
      /\ ((end_ptr <= ptr + 1 /\ s' = logged s [ptr])
          \/ (ptr + 1 < end_ptr /\ end_ptr <= ptr + 2 + u8 (mem (ptr + 1))
              /\ s' = logged s [ptr; ptr + 1])))
  \/ (u8 (mem ptr) <> kDHCPOptionPad /\ u8 (mem ptr) <> kDHCPOptionEnd
      /\ ptr + 1 < end_ptr /\ ptr + 2 + u8 (mem (ptr + 1)) < end_ptr
      /\ ((e = DuplicateOption /\ u8 (mem ptr) ∈ options_set
           /\ s' = logged s [ptr; ptr + 1])
          \/ (e = OptionDecodeError (u8 (mem ptr))
              /\ (u8 (mem ptr) ∉ options_set)
              /\ exists context,
                   options_map_ !! u8 (mem ptr) = Some context
                   /\ GetOption mem context (ptr + 2) (u8 (mem (ptr + 1)))
                        (logged s [ptr; ptr + 1]) = (inr None, s')))).
Proof.
  destruct (Z.eq_dec (u8 (mem ptr)) kDHCPOptionPad) as [Hpad|Hpad].
  { rewrite (loop_body_pad mem end_ptr ptr options_set s Hpad).
    discriminate. }
  destruct (Z.eq_dec (u8 (mem ptr)) kDHCPOptionEnd) as [Hend|Hend].
  { rewrite (loop_body_end mem end_ptr ptr options_set s Hend).
    destruct (bool_decide_reflect (kDHCPOptionMessageType ∈ options_set));
      intros [= <- <-]. left. auto. }
  destruct (Z_lt_dec (ptr + 1) end_ptr) as [Hlen|Hlen].
  2:{ rewrite (loop_body_no_length mem end_ptr ptr options_set s Hpad Hend)
        by lia.
      intros [= <- <-]. right. left. repeat split; auto. left. split; [lia|auto]. }
  destruct (Z_lt_dec (ptr + 2 + u8 (mem (ptr + 1))) end_ptr) as [Hpay|Hpay].
  2:{ rewrite (loop_body_overrun mem end_ptr ptr options_set s Hpad Hend Hlen)
        by lia.
      intros [= <- <-]. right. left. repeat split; auto.
      right. repeat split; auto. lia. }
  destruct (decide (u8 (mem ptr) ∈ options_set)) as [Hin|Hnew].
  { rewrite (loop_body_duplicate mem end_ptr ptr options_set s
               Hpad Hend Hlen Hpay Hin).
    intros [= <- <-]. right. right. repeat split; auto. }
  destruct (options_map_ !! u8 (mem ptr)) as [context|] eqn:Hlookup.
  - destruct (loop_body_known mem end_ptr ptr options_set s context
                Hpad Hend Hlen Hpay Hnew Hlookup) as (ok & s1 & Hget & ->).
    destruct ok; intros [= <- <-].
    right. right. repeat split; auto. right. repeat split; auto.
    exists context. auto.
  - rewrite (loop_body_unknown mem end_ptr ptr options_set s
               Hpad Hend Hlen Hpay Hnew Hlookup).
    discriminate.
Qed.

(** X4. A call returns [true] only by coming to an END tag inside the area
    it was given after the scan has met the message-type option (tag 53):
    the END byte is the last one read, and nothing after it matters. *)
Theorem success_needs_end_and_message_type mem options options_length s :
  let end_ptr := size_t (options + options_length) in
  (ParseDHCPOptions mem options options_length s).1 = inr tt ->
  exists tags ptr options_set s',
    scans mem end_ptr options ∅ s tags ptr options_set s'
    /\ options <= ptr < end_ptr
    /\ u8 (mem ptr) = kDHCPOptionEnd
    /\ In kDHCPOptionMessageType tags
    /\ ParseDHCPOptions mem options options_length s
       = (inr tt, logged s' [ptr]).
Proof.
  intros end_ptr Hok. unfold ParseDHCPOptions in *. cbn zeta in *.
  fold end_ptr in Hok |- *.
  destruct (parse_loop_course mem end_ptr options ∅ s)
    as (tags & ptr & options_set & s' & Hscan & Hlast).
  destruct Hlast as [[_ Hr]|[Hlt [s'' [[e [_ Hr]]|[Hbody Hr]]]]];
    try (rewrite Hr in Hok; discriminate).
  apply loop_body_return_true in Hbody as (Hend & Hin & ->).
  exists tags, ptr, options_set, s'.
  split; [exact Hscan|]. split.
  - split; [|exact Hlt]. apply (scans_forward _ _ _ _ _ _ _ _ _ Hscan).
  - split; [exact Hend|]. split; [|exact Hr].
    apply (scans_options_set _ _ _ _ _ _ _ _ _ Hscan) in Hin
      as [Hin|[Hin _]]; [apply elem_of_empty in Hin; contradiction|exact Hin].
Qed.

Lemma success_needs_end_and_message_type_witness :
  exists tags ptr options_set s',
    scans (memory_of [53; 1; 5; 255; 7]) (size_t (0 + 5)) 0 ∅ blank
      tags ptr options_set s'
    /\ 0 <= ptr < size_t (0 + 5)
    /\ u8 (memory_of [53; 1; 5; 255; 7] ptr) = kDHCPOptionEnd
    /\ In kDHCPOptionMessageType tags
    /\ ParseDHCPOptions (memory_of [53; 1; 5; 255; 7]) 0 5 blank
       = (inr tt, logged s' [ptr]).
Proof.
  apply (success_needs_end_and_message_type
           (memory_of [53; 1; 5; 255; 7]) 0 5 blank).
  vm_compute. reflexivity.
Defined.

(** X5. Every [false] of the scan has its cause at the turn the scan has
    come to. [UnterminatedOptions]: no byte is left. [MissingMessageType]:
    an END tag, and the scan has not met tag 53. [TruncatedOption]: an
    option without a length byte, or whose payload would run at or past
    the end. [DuplicateOption]: an option that passes the bounds checks
    and whose tag, one of the six of the table, the scan has met before.
    [OptionDecodeError]: an option of the table, within bounds and not met
    before, that its parser refuses. The scan never fails with
    [InvalidLength] or [InvalidMessage]. *)
Theorem failure_has_its_cause mem options options_length s e :
  let end_ptr := size_t (options + options_length) in
  (ParseDHCPOptions mem options options_length s).1 = inl e ->
  exists tags ptr options_set s',
    scans mem end_ptr options ∅ s tags ptr options_set s'
    /\ options <= ptr
    /\ match e with
       | UnterminatedOptions => end_ptr <= ptr
       | MissingMessageType =>
           ptr < end_ptr /\ u8 (mem ptr) = kDHCPOptionEnd
           /\ ~ In kDHCPOptionMessageType tags
       | TruncatedOption =>
           ptr < end_ptr
           /\ u8 (mem ptr) <> kDHCPOptionPad /\ u8 (mem ptr) <> kDHCPOptionEnd
           /\ (end_ptr <= ptr + 1 \/ end_ptr <= ptr + 2 + u8 (mem (ptr + 1)))
       | DuplicateOption =>
           ptr < end_ptr /\ ptr + 2 + u8 (mem (ptr + 1)) < end_ptr
           /\ In (u8 (mem ptr)) tags
           /\ In (u8 (mem ptr)) [6; 51; 53; 54; 58; 59]
       | OptionDecodeError tag =>
           ptr < end_ptr /\ ptr + 2 + u8 (mem (ptr + 1)) < end_ptr
           /\ tag = u8 (mem ptr)
           /\ ~ In tag tags
           /\ In tag [6; 51; 53; 54; 58; 59]
       | InvalidLength | InvalidMessage => False
       end.
Proof.
  intros end_ptr Hfail. unfold ParseDHCPOptions in Hfail. cbn zeta in Hfail.
  fold end_ptr in Hfail.
  destruct (parse_loop_course mem end_ptr options ∅ s)
    as (tags & ptr & options_set & s' & Hscan & Hlast).
  exists tags, ptr, options_set, s'.
  split; [exact Hscan|].
  split; [apply (scans_forward _ _ _ _ _ _ _ _ _ Hscan)|].
  pose proof (scans_options_set _ _ _ _ _ _ _ _ _ Hscan) as Hset.
  assert (Hmet : forall tag, tag ∈ options_set ->
            In tag tags /\ In tag [6; 51; 53; 54; 58; 59]).
  { intros tag Hin. apply Hset in Hin as [Hin|[Hin Hk]];
      [apply elem_of_empty in Hin; contradiction|].
    split; [exact Hin|apply options_map_known; exact Hk]. }
  destruct Hlast as [[Hge Hr]|[Hlt [s'' [[e' [Hbody Hr]]|[_ Hr]]]]];
    rewrite Hr in Hfail; cbn in Hfail; try discriminate.
  - injection Hfail as <-. exact Hge.
  - injection Hfail as ->.
    apply loop_body_failure in Hbody
      as [(-> & Hend & Hno & _)
         |[(-> & Hpad & Hend & Hcut)
          |(Hpad & Hend & Hlen & Hpay
            & [(-> & Hin & _)|(-> & Hnew & context & Hlookup & _)])]].
    + split; [exact Hlt|]. split; [exact Hend|].
      intros Hmet53. apply Hno. apply Hset. right.
      split; [exact Hmet53|]. apply options_map_known. cbn. tauto.
    + split; [exact Hlt|]. split; [exact Hpad|]. split; [exact Hend|].
      destruct Hcut as [[H _]|(_ & H & _)]; auto.
    + destruct (Hmet _ Hin). auto.
    + split; [exact Hlt|]. split; [exact Hpay|]. split; [reflexivity|].
      split.
      * intros Hin. apply Hnew. apply Hset. right. split; [exact Hin|eauto].
      * apply options_map_known. eauto.
Qed.

Lemma failure_has_its_cause_witness :
  exists tags ptr options_set s',
    scans (memory_of [53; 1; 5; 53; 1; 5; 255]) (size_t (0 + 7)) 0 ∅ blank
      tags ptr options_set s'
    /\ 0 <= ptr
    /\ (ptr < size_t (0 + 7)
        /\ ptr + 2 + u8 (memory_of [53; 1; 5; 53; 1; 5; 255] (ptr + 1))
           < size_t (0 + 7)
        /\ In (u8 (memory_of [53; 1; 5; 53; 1; 5; 255] ptr)) tags
        /\ In (u8 (memory_of [53; 1; 5; 53; 1; 5; 255] ptr))
             [6; 51; 53; 54; 58; 59]).
Proof.
  apply (failure_has_its_cause (memory_of [53; 1; 5; 53; 1; 5; 255])
           0 7 blank DuplicateOption).
  vm_compute. reflexivity.
Defined.

(** The entry of one tag of the table does not designate the member of
    another. *)
Lemma options_map_keeps_member tag tag' context :
  options_map_ !! tag' = Some context ->
  is_Some (options_map_ !! tag) ->
  tag <> tag' ->
  keeps_member tag context.
Proof.
  intros Hentry Hknown Hne. apply options_map_known in Hknown.
  unfold options_map_ in Hentry. revert Hentry.
  rewrite !lookup_insert_Some, lookup_empty.
  intros H; repeat (destruct H as [[<- <-]|[_ H]]); try discriminate;
    cbn in Hknown;
    repeat (destruct Hknown as [<-|Hknown]); try contradiction;
    first [ cbn; intros v m; reflexivity
          | exfalso; apply Hne; reflexivity ].
Qed.

(** A parser writes through its [output] only, and nothing when it
    refuses. *)
Lemma GetOption_member mem context buffer length s r s' tag :
  GetOption mem context buffer length s = (r, s') ->
  keeps_member tag context \/ r = inr None ->
  option_member tag (message s') = option_member tag (message s).
Proof.
  destruct context as [output|output|output]; cbn [GetOption keeps_member].
  - destruct (length =? 1).
    + erewrite bind_inr by apply load_u8_spec.
      erewrite bind_inr by apply modify_message_spec.
      intros [= <- <-] [Hkeep|Hr]; [apply Hkeep|discriminate Hr].
    + intros [= <- <-] _. reflexivity.
  - destruct (length =? 4).
    + erewrite bind_inr by apply load_be32_spec.
      erewrite bind_inr by apply modify_message_spec.
      intros [= <- <-] [Hkeep|Hr]; [apply Hkeep|discriminate Hr].
    + intros [= <- <-] _. reflexivity.
  - destruct ((length =? 0) || negb (length mod 4 =? 0)).
    + intros [= <- <-] _. reflexivity.
    + erewrite bind_inr by apply load_be32_list_spec.
      erewrite bind_inr by apply modify_message_spec.
      intros [= <- <-] [Hkeep|Hr]; [apply Hkeep|discriminate Hr].
Qed.

(** One turn of the loop writes the member of a tag of the table only
    when it accepts an option with that tag. *)
Lemma loop_body_member mem end_ptr ptr options_set s r s' tag :
  loop_body mem end_ptr ptr options_set s = (r, s') ->
  is_Some (options_map_ !! tag) ->
  u8 (mem ptr) <> tag \/ tag ∈ options_set
    \/ (forall ptr' options_set', r <> inr (Continue ptr' options_set')) ->
  option_member tag (message s') = option_member tag (message s).
Proof.
  intros Hbody Hknown Hwhy.
  destruct (Z.eq_dec (u8 (mem ptr)) kDHCPOptionPad) as [Hpad|Hpad].
  { rewrite (loop_body_pad mem end_ptr ptr options_set s Hpad) in Hbody.
    injection Hbody as _ <-. reflexivity. }
  destruct (Z.eq_dec (u8 (mem ptr)) kDHCPOptionEnd) as [Hend|Hend].
  { rewrite (loop_body_end mem end_ptr ptr options_set s Hend) in Hbody.
    injection Hbody as _ <-. reflexivity. }
  destruct (Z_lt_dec (ptr + 1) end_ptr) as [Hlen|Hlen].
  2:{ rewrite (loop_body_no_length mem end_ptr ptr options_set s Hpad Hend)
        in Hbody by lia.
      injection Hbody as _ <-. reflexivity. }
  destruct (Z_lt_dec (ptr + 2 + u8 (mem (ptr + 1))) end_ptr) as [Hpay|Hpay].
  2:{ rewrite (loop_body_overrun mem end_ptr ptr options_set s Hpad Hend Hlen)
        in Hbody by lia.
      injection Hbody as _ <-. reflexivity. }
  destruct (decide (u8 (mem ptr) ∈ options_set)) as [Hdup|Hnew].
  { rewrite (loop_body_duplicate mem end_ptr ptr options_set s
               Hpad Hend Hlen Hpay Hdup) in Hbody.
    injection Hbody as _ <-. reflexivity. }
  destruct (options_map_ !! u8 (mem ptr)) as [context|] eqn:Hentry.
  2:{ rewrite (loop_body_unknown mem end_ptr ptr options_set s
                 Hpad Hend Hlen Hpay Hnew Hentry) in Hbody.
      injection Hbody as _ <-. reflexivity. }
  destruct (loop_body_known mem end_ptr ptr options_set s context
              Hpad Hend Hlen Hpay Hnew Hentry) as (ok & s1 & Hget & Hturn).
  rewrite Hturn in Hbody. injection Hbody as <- <-.
  change (message s) with (message (logged s [ptr; ptr + 1])).
  apply (GetOption_member _ _ _ _ _ _ _ tag Hget).
  assert (Hother : u8 (mem ptr) <> tag -> keeps_member tag context).
  { intros Hne. apply (options_map_keeps_member tag (u8 (mem ptr)));
      [exact Hentry|exact Hknown|congruence]. }
  destruct Hwhy as [Hne|[Hin|Hstop]].
  - left. apply Hother. exact Hne.
  - left. apply Hother. intros Heq. rewrite Heq in Hnew. contradiction.
  - destruct ok as [[]|]; [|right; reflexivity].
    exfalso. exact (Hstop _ _ eq_refl).
Qed.

(** No turn of a scan that goes on writes the member of a tag it has not
    met. *)
Lemma scans_member mem end_ptr ptr options_set s tags
      ptr' options_set' s' tag :
  scans mem end_ptr ptr options_set s tags ptr' options_set' s' ->
  is_Some (options_map_ !! tag) ->
  ~ In tag tags ->
  option_member tag (message s') = option_member tag (message s).
Proof.
  intros Hscan Hknown.
  induction Hscan as [|ptr options_set s ptr1 options_set1 s1 tags
                        ptr2 options_set2 s2 Hlt Hbody _ IH];
    intros Hnot; [reflexivity|].
  rewrite IH by (intros Hin; apply Hnot; right; exact Hin).
  apply (loop_body_member _ _ _ _ _ _ _ tag Hbody Hknown).
  left. intros Heq. apply Hnot. left. exact Heq.
Qed.

(** A tag of the table is met at most once by the turns that go on, and
    not at all when it was in the set before. *)
Lemma scans_known_once mem end_ptr ptr options_set s tags
      ptr' options_set' s' tag :
  scans mem end_ptr ptr options_set s tags ptr' options_set' s' ->
  is_Some (options_map_ !! tag) ->
  (count_occ Z.eq_dec tags tag <= 1)%nat
  /\ (tag ∈ options_set -> ~ In tag tags).
Proof.
  intros Hscan Hknown.
  induction Hscan as [|ptr options_set s ptr1 options_set1 s1 tags
                        ptr2 options_set2 s2 Hlt Hbody _ IH].
  { cbn. split; [lia|tauto]. }
  destruct IH as [IHc IHn].
  apply loop_body_continue in Hbody
    as [(Hpad & _ & ->)
       |(_ & _ & _ & _ & _ & Hfresh & [[Hnone ->]|[Hsome ->]])].
  - assert (Hne : u8 (mem ptr) <> tag).
    { intros <-. rewrite Hpad in Hknown. vm_compute in Hknown.
      destruct Hknown as [c Hc]. discriminate Hc. }
    rewrite count_occ_cons_neq by exact Hne. split; [exact IHc|].
    intros Hin [Heq|Hin']; [contradiction|]. exact (IHn Hin Hin').
  - assert (Hne : u8 (mem ptr) <> tag).
    { intros <-. rewrite Hnone in Hknown. destruct Hknown as [c Hc].
      discriminate Hc. }
    rewrite count_occ_cons_neq by exact Hne. split; [exact IHc|].
    intros Hin [Heq|Hin']; [contradiction|]. exact (IHn Hin Hin').
  - destruct (Z.eq_dec (u8 (mem ptr)) tag) as [Heq|Hne].
    + rewrite count_occ_cons_eq by exact Heq.
      assert (Hnot : ~ In tag tags).
      { apply IHn. rewrite <- Heq. set_solver. }
      apply (count_occ_not_In Z.eq_dec) in Hnot. rewrite Hnot.
      split; [lia|]. intros Hin. rewrite <- Heq in Hin. contradiction.
    + rewrite count_occ_cons_neq by exact Hne. split; [exact IHc|].
      intros Hin [Heq|Hin']; [contradiction|]. apply IHn; [|exact Hin'].
      set_solver.
Qed.

(** X16. Each option member is changed by at most one turn of a scan.
    Take one of the six tags of the table and the member its entry
    designates. A turn of the loop changes that member only when it
    accepts an option with that tag, which it does only when the tag is
    not in [options_set]: a turn at another tag, a turn when the tag is in
    the set already, and a turn that ends the call (also one in which a
    parser refuses) leave it as it is. So through any course of the scan
    the tag is accepted at most once and never when it was in the set
    before, and once accepted it is in the set; a member whose tag was not
    met by the turns that went on keeps its value; and when the tag is in
    the set, the last turn does not change the member, nor does the call
    fail in the parser of that tag. *)
Theorem option_member_written_once mem end_ptr tag :
  is_Some (options_map_ !! tag) ->
  (forall ptr options_set s r s',
     loop_body mem end_ptr ptr options_set s = (r, s') ->
     u8 (mem ptr) <> tag \/ tag ∈ options_set
       \/ (forall ptr' options_set', r <> inr (Continue ptr' options_set')) ->
     option_member tag (message s') = option_member tag (message s))
  /\ (forall ptr options_set s tags ptr' options_set' s',
        scans mem end_ptr ptr options_set s tags ptr' options_set' s' ->
        (count_occ Z.eq_dec tags tag <= 1)%nat
        /\ (tag ∈ options_set -> ~ In tag tags)
        /\ (In tag tags -> tag ∈ options_set')
        /\ (~ In tag tags ->
            option_member tag (message s') = option_member tag (message s))
        /\ (tag ∈ options_set' ->
            forall r s'',
              loop_body mem end_ptr ptr' options_set' s' = (r, s'') ->
              option_member tag (message s'') = option_member tag (message s')
              /\ r <> inl (OptionDecodeError tag))).
Proof.
  intros Hknown. split.
  - intros ptr options_set s r s' Hbody Hwhy.
    exact (loop_body_member _ _ _ _ _ _ _ tag Hbody Hknown Hwhy).
  - intros ptr options_set s tags ptr' options_set' s' Hscan.
    destruct (scans_known_once _ _ _ _ _ _ _ _ _ tag Hscan Hknown)
      as [Hcount Hfresh].
    pose proof (scans_options_set _ _ _ _ _ _ _ _ _ Hscan tag) as Hset.
    split; [exact Hcount|]. split; [exact Hfresh|].
    split; [intros Hin; apply Hset; right; auto|].
    split; [exact (scans_member _ _ _ _ _ _ _ _ _ tag Hscan Hknown)|].
    intros Hin' r s'' Hbody. split.
    + apply (loop_body_member _ _ _ _ _ _ _ tag Hbody Hknown).
      right. left. exact Hin'.
    + intros ->. apply loop_body_failure in Hbody
        as [(He & _)|[(He & _)|(_ & _ & _ & _ & [(He & _)|(He & Hnew & _)])]];
        try discriminate He.
      injection He as ->. contradiction.
Qed.

Lemma option_member_written_once_witness :
  let mem := memory_of [53; 1; 5; 51; 4; 0; 0; 14; 16; 54; 1; 9] in
  let s2 := {| message := set_lease_time 3600
                            (set_message_type 5 blank_message);
               reads := [0; 1; 2; 3; 4; 5; 6; 7; 8] |} in
  option_member 53 (message (loop_body mem 13 9 {[53; 51]} s2).2) = [5]
  /\ (loop_body mem 13 9 {[53; 51]} s2).1 = inl (OptionDecodeError 54).
Proof.
  intros mem s2.
  assert (Hscan : scans mem 13 0 ∅ blank [53; 51] 9 {[53; 51]} s2)
    by ScanProperties.scan_turns.
  split; [|vm_compute; reflexivity].
  apply (proj1
           (proj2 (proj2 (proj2 (proj2
              (proj2 (option_member_written_once mem 13 53
                        ltac:(vm_compute; eauto))
                 0 ∅ blank [53; 51] 9 {[53; 51]} s2 Hscan))))
              ltac:(vm_compute; reflexivity)
              (loop_body mem 13 9 {[53; 51]} s2).1
              (loop_body mem 13 9 {[53; 51]} s2).2
              ltac:(apply surjective_pairing))).
Defined.

End ScanOutcomes.

(* ===================================================================== *)
(** * InitFromBuffer as a whole: when a datagram is accepted *)
(* ===================================================================== *)

Module DecodeOutcomes.
Import Decoder HeaderFacts ParserFacts ScanFacts InitFacts ScanOutcomes.

Lemma InitFromBuffer_rejected_length mem length s :
  ~ (kDHCPMessageMinLength <= length <= kDHCPMessageMaxLength) ->
  InitFromBuffer (Some mem) length s = (inl InvalidLength, s).
Proof.
  intros Hlen. unfold InitFromBuffer.
  destruct (Z.ltb_spec length kDHCPMessageMinLength);
    destruct (Z.ltb_spec kDHCPMessageMaxLength length);
    try reflexivity; lia.
Qed.

(** X6. The call returns [true] exactly when the length lies in 236..548,
    the six header tests pass and the option scan, started at offset 240
    with [length - 239] bytes, returns [true]; and it fails at the length
    test exactly when the length lies outside 236..548. *)
Theorem decode_accepts_iff mem length s :
  ((InitFromBuffer (Some mem) length s).1 = inr tt
   <-> kDHCPMessageMinLength <= length <= kDHCPMessageMaxLength
       /\ header_invariants (header_at mem)
       /\ (ParseDHCPOptions mem Raw.options
             (size_t (0 + length - Raw.options + 1)) (after_header mem s)).1
          = inr tt)
  /\ ((InitFromBuffer (Some mem) length s).1 = inl InvalidLength
      <-> ~ (kDHCPMessageMinLength <= length <= kDHCPMessageMaxLength)).
Proof.
  destruct (Z_le_dec kDHCPMessageMinLength length) as [Hmin|Hmin];
    [destruct (Z_le_dec length kDHCPMessageMaxLength) as [Hmax|Hmax]|].
  2,3: rewrite InitFromBuffer_rejected_length by lia;
       cbn; split; split; try discriminate; try tauto; lia.
  rewrite (InitFromBuffer_accepted mem length s (conj Hmin Hmax)).
  pose proof (IsValid_iff (assign_header (header_at mem) (message s))) as Hv.
  rewrite header_of_assign in Hv.
  pose proof (ParseDHCPOptions_effect mem Raw.options
                (size_t (0 + length - Raw.options + 1))
                (after_header mem s)) as [_ He].
  destruct (IsValid _).
  - assert (header_invariants (header_at mem)) by (apply Hv; reflexivity).
    split; split; try tauto.
    intros Herr. destruct (He _ Herr) as [Hne _]. contradiction.
  - assert (~ header_invariants (header_at mem))
      by (intros H; apply Hv in H; discriminate).
    cbn. split; split; try discriminate; tauto.
Qed.

Lemma accepted_of_short length :
  kDHCPMessageMinLength <= length < Raw.options ->
  kDHCPMessageMinLength <= length <= kDHCPMessageMaxLength.
Proof.
  unfold kDHCPMessageMinLength, kDHCPMessageMaxLength, Raw.options,
    Raw.cookie, Raw.file, Raw.sname, Raw.chaddr, kBootFileLength,
    kServerNameLength, kClientHardwareAddressLength.
  lia.
Qed.

Lemma InitFromBuffer_short mem length s :
  kDHCPMessageMinLength <= length < Raw.options ->
  InitFromBuffer (Some mem) length s
  = (inl (if IsValid (assign_header (header_at mem) (message s))
          then UnterminatedOptions else InvalidMessage),
     after_header mem s).
Proof.
  intros Hlen. pose proof (accepted_of_short length Hlen) as Hacc.
  rewrite (InitFromBuffer_accepted mem length s Hacc).
  unfold ParseDHCPOptions. cbn zeta.
  rewrite (options_end_ptr length Hacc).
  rewrite parse_loop_exhausted by lia.
  destruct (IsValid _); reflexivity.
Qed.

(** X7. A datagram of 236 to 239 bytes, shorter than the header with its
    cookie, passes the length test and is never accepted: it fails in
    [IsValid], or else the option scan, which finds its end at or below
    its start, fails with [UnterminatedOptions] without a turn. All the
    same the four cookie bytes at offsets 236 to 239, of which at least
    the last lies behind the datagram, have been read. *)
Theorem short_datagram_never_accepted mem length s :
  kDHCPMessageMinLength <= length < Raw.options ->
  (header_invariants (header_at mem) ->
   InitFromBuffer (Some mem) length s
   = (inl UnterminatedOptions, after_header mem s))
  /\ (~ header_invariants (header_at mem) ->
      InitFromBuffer (Some mem) length s
      = (inl InvalidMessage, after_header mem s))
  /\ (InitFromBuffer (Some mem) length s).1 <> inr tt
  /\ (forall a, Raw.cookie <= a < Raw.cookie + 4 ->
        In a (reads (InitFromBuffer (Some mem) length s).2))
  /\ h_cookie (header_of (message (InitFromBuffer (Some mem) length s).2))
     = be32_at mem Raw.cookie.
Proof.
  intros Hlen.
  pose proof (IsValid_iff (assign_header (header_at mem) (message s))) as Hv.
  rewrite header_of_assign in Hv.
  rewrite (InitFromBuffer_short mem length s Hlen). cbn [fst snd].
  split; [|split; [|split; [|split]]].
  - intros H. apply Hv in H. rewrite H. reflexivity.
  - intros H. destruct (IsValid _); [|reflexivity].
    exfalso. apply H, Hv. reflexivity.
  - destruct (IsValid _); discriminate.
  - intros a Ha. cbn [after_header reads]. apply in_or_app. right.
    unfold header_reads. apply in_or_app. right. apply in_or_app. left.
    unfold offsets. apply in_map_iff. exists (Z.to_nat (a - Raw.cookie)).
    split; [lia|]. apply in_seq. lia.
  - cbn [after_header message]. rewrite header_of_assign. reflexivity.
Qed.

Lemma short_datagram_never_accepted_witness :
  InitFromBuffer (Some (memory_of (reply_header 6))) 236 blank
  = (inl UnterminatedOptions, after_header (memory_of (reply_header 6)) blank)
  /\ InitFromBuffer (Some (memory_of (reply_header 6))) 239 blank
     = (inl UnterminatedOptions,
        after_header (memory_of (reply_header 6)) blank).
Proof.
  split.
  - apply (proj1 (short_datagram_never_accepted
                    (memory_of (reply_header 6)) 236 blank
                    ltac:(vm_compute; split; discriminate || reflexivity))).
    vm_compute. repeat split.
  - apply (proj1 (short_datagram_never_accepted
                    (memory_of (reply_header 6)) 239 blank
                    ltac:(vm_compute; split; discriminate || reflexivity))).
    vm_compute. repeat split.
Defined.

Lemma bytes_at_length mem a n : length (bytes_at mem a n) = n.
Proof. unfold bytes_at, offsets. rewrite !length_map, length_seq. reflexivity. Qed.

(** X8. In a message the call has accepted, the header has passed every
    test and was taken from the buffer: the length is at least 240, opcode
    is 2, hardware type 1, hardware address length 6, seconds and flags 0,
    the cookie 0x63825363, the client hardware address is the 6 bytes at
    offsets 28 to 33 (so the copy stays inside the 16-byte field), and the
    server name and boot file name are the 64 and 128 bytes at offsets 44
    and 108. *)
Theorem accepted_message_header mem length s :
  (InitFromBuffer (Some mem) length s).1 = inr tt ->
  let m := message (InitFromBuffer (Some mem) length s).2 in
  Raw.options <= length <= kDHCPMessageMaxLength
  /\ opcode_ m = kDHCPMessageBootReply
  /\ hardware_address_type_ m = ARPHRD_ETHER
  /\ hardware_address_length_ m = IFHWADDRLEN
  /\ seconds_ m = 0 /\ flags_ m = 0
  /\ cookie_ m = kMagicCookie
  /\ client_hardware_address_ m = bytes_at mem Raw.chaddr 6
  /\ servername_ m = bytes_at mem Raw.sname 64
  /\ bootfile_ m = bytes_at mem Raw.file 128.
Proof.
  intros Hok m.
  destruct (Z_le_dec kDHCPMessageMinLength length) as [Hmin|Hmin];
    [destruct (Z_le_dec length kDHCPMessageMaxLength) as [Hmax|Hmax]|].
  2,3: rewrite InitFromBuffer_rejected_length in Hok by lia; discriminate.
  destruct (Z_lt_dec length Raw.options) as [Hshort|Hlong].
  { rewrite InitFromBuffer_short in Hok by lia.
    cbn in Hok. destruct (IsValid _); discriminate. }
  pose proof (InitFromBuffer_header mem length s (conj Hmin Hmax)) as Hh.
  fold m in Hh.
  assert (Hinv : header_invariants (header_at mem)).
  { rewrite (InitFromBuffer_accepted mem length s (conj Hmin Hmax)) in Hok.
    pose proof (IsValid_iff (assign_header (header_at mem) (message s)))
      as Hv.
    rewrite header_of_assign in Hv.
    destruct (IsValid _); [apply Hv; reflexivity|discriminate]. }
  rewrite <- Hh in Hinv.
  destruct Hinv as (Hop & Hty & Hlen & Hsecs & Hflags & Hcookie).
  cbn in Hop, Hty, Hlen, Hsecs, Hflags, Hcookie.
  split; [lia|]. repeat (split; [assumption|]).
  pose proof (f_equal h_chaddr Hh) as Hc.
  pose proof (f_equal h_sname Hh) as Hs.
  pose proof (f_equal h_file Hh) as Hf.
  pose proof (f_equal h_hlen Hh) as Hl.
  cbn in Hc, Hs, Hf, Hl.
  rewrite <- Hl, Hlen in Hc.
  repeat split; assumption.
Qed.

Lemma accepted_message_header_witness :
  let mem := memory_of (reply_header 6 ++ [53; 1; 5; 255]) in
  let m := message (InitFromBuffer (Some mem) 244 blank).2 in
  Raw.options <= 244 <= kDHCPMessageMaxLength
  /\ opcode_ m = kDHCPMessageBootReply
  /\ hardware_address_type_ m = ARPHRD_ETHER
  /\ hardware_address_length_ m = IFHWADDRLEN
  /\ seconds_ m = 0 /\ flags_ m = 0
  /\ cookie_ m = kMagicCookie
  /\ client_hardware_address_ m = bytes_at mem Raw.chaddr 6
  /\ servername_ m = bytes_at mem Raw.sname 64
  /\ bootfile_ m = bytes_at mem Raw.file 128.
Proof.
  apply (accepted_message_header
           (memory_of (reply_header 6 ++ [53; 1; 5; 255])) 244 blank).
  vm_compute. reflexivity.
Defined.

Lemma lor_shiftl_sum a b n :
  0 <= n -> 0 <= b < 2 ^ n -> Z.lor (Z.shiftl a n) b = a * 2 ^ n + b.
Proof.
  intros Hn Hb.
  pose proof (Z.add_lor_land (Z.shiftl a n) b) as H.
  rewrite (ChecksumFacts.land_shiftl_low a b n Hn Hb) in H.
  rewrite Z.shiftl_mul_pow2 in H |- * by lia. lia.
Qed.

Lemma be16_at_value mem a :
  be16_at mem a = u8 (mem a) * 2 ^ 8 + u8 (mem (a + 1))
  /\ 0 <= be16_at mem a < 2 ^ 16.
Proof.
  unfold be16_at.
  pose proof (u8_range (mem a)). pose proof (u8_range (mem (a + 1))).
  rewrite lor_shiftl_sum by (change (2 ^ 8) with 256; lia).
  change (2 ^ 8) with 256. change (2 ^ 16) with 65536. lia.
Qed.

Lemma be32_at_value mem a :
  be32_at mem a
  = u8 (mem a) * 2 ^ 24 + u8 (mem (a + 1)) * 2 ^ 16
    + u8 (mem (a + 2)) * 2 ^ 8 + u8 (mem (a + 3))
  /\ 0 <= be32_at mem a < 2 ^ 32.
Proof.
  unfold be32_at.
  pose proof (u8_range (mem a)). pose proof (u8_range (mem (a + 1))).
  pose proof (u8_range (mem (a + 2))). pose proof (u8_range (mem (a + 3))).
  rewrite (lor_shiftl_sum (u8 (mem (a + 2))) _ 8)
    by (change (2 ^ 8) with 256; lia).
  rewrite (lor_shiftl_sum (u8 (mem (a + 1))) _ 16)
    by (change (2 ^ 8) with 256; change (2 ^ 16) with 65536; lia).
  rewrite (lor_shiftl_sum (u8 (mem a)) _ 24)
    by (change (2 ^ 8) with 256; change (2 ^ 16) with 65536;
        change (2 ^ 24) with 16777216; lia).
  change (2 ^ 8) with 256. change (2 ^ 16) with 65536.
  change (2 ^ 24) with 16777216. change (2 ^ 32) with 4294967296. lia.
Qed.

(** X9. Past the length test, and whether the call then succeeds or
    fails, the multi-byte members hold the big-endian numbers of the
    buffer: the transaction id, the four addresses and the cookie are
    b0 * 2^24 + b1 * 2^16 + b2 * 2^8 + b3 of the four bytes at offsets 4,
    12, 16, 20, 24 and 236, below 2^32; seconds and flags are
    b0 * 2^8 + b1 of the bytes at offsets 8 and 10, below 2^16. The client
    hardware address has [hlen] bytes (up to 255), the server name 64 and
    the boot file name 128. *)
Theorem header_members_big_endian mem length s :
  kDHCPMessageMinLength <= length <= kDHCPMessageMaxLength ->
  let m := message (InitFromBuffer (Some mem) length s).2 in
  let be32 a := u8 (mem a) * 2 ^ 24 + u8 (mem (a + 1)) * 2 ^ 16
                + u8 (mem (a + 2)) * 2 ^ 8 + u8 (mem (a + 3)) in
  let be16 a := u8 (mem a) * 2 ^ 8 + u8 (mem (a + 1)) in
  (transaction_id_ m = be32 4 /\ client_ip_address_ m = be32 12
   /\ your_ip_address_ m = be32 16 /\ next_server_ip_address_ m = be32 20
   /\ agent_ip_address_ m = be32 24 /\ cookie_ m = be32 236)
  /\ (seconds_ m = be16 8 /\ flags_ m = be16 10)
  /\ (0 <= transaction_id_ m < 2 ^ 32 /\ 0 <= client_ip_address_ m < 2 ^ 32
      /\ 0 <= your_ip_address_ m < 2 ^ 32
      /\ 0 <= next_server_ip_address_ m < 2 ^ 32
      /\ 0 <= agent_ip_address_ m < 2 ^ 32 /\ 0 <= cookie_ m < 2 ^ 32
      /\ 0 <= seconds_ m < 2 ^ 16 /\ 0 <= flags_ m < 2 ^ 16)
  /\ (hardware_address_length_ m = u8 (mem 2)
      /\ Z.of_nat (List.length (client_hardware_address_ m)) = u8 (mem 2)
      /\ List.length (servername_ m) = 64%nat
      /\ List.length (bootfile_ m) = 128%nat).
Proof.
  intros Hlen m be32 be16.
  pose proof (InitFromBuffer_header mem length s Hlen) as Hh. fold m in Hh.
  pose proof (f_equal h_xid Hh) as Hxid.
  pose proof (f_equal h_ciaddr Hh) as Hci.
  pose proof (f_equal h_yiaddr Hh) as Hyi.
  pose proof (f_equal h_siaddr Hh) as Hsi.
  pose proof (f_equal h_giaddr Hh) as Hgi.
  pose proof (f_equal h_cookie Hh) as Hco.
  pose proof (f_equal h_secs Hh) as Hse.
  pose proof (f_equal h_flags Hh) as Hfl.
  pose proof (f_equal h_hlen Hh) as Hhl.
  pose proof (f_equal h_chaddr Hh) as Hch.
  pose proof (f_equal h_sname Hh) as Hsn.
  pose proof (f_equal h_file Hh) as Hfi.
  cbn in Hxid, Hci, Hyi, Hsi, Hgi, Hco, Hse, Hfl, Hhl, Hch, Hsn, Hfi.
  rewrite Hxid, Hci, Hyi, Hsi, Hgi, Hco, Hse, Hfl, Hhl, Hch, Hsn, Hfi.
  pose proof (u8_range (mem 2)).
  rewrite !bytes_at_length.
  split; [|split; [|split]].
  - repeat split; apply be32_at_value.
  - split; apply be16_at_value.
  - repeat split; first [apply be32_at_value | apply be16_at_value].
  - repeat split. unfold Raw.hlen. lia.
Qed.

Lemma header_members_big_endian_witness :
  let m := message (InitFromBuffer (Some (unterminated_reply 0)) 243 blank).2 in
  transaction_id_ m = 0x01020304 /\ your_ip_address_ m = 0xC0A80164
  /\ cookie_ m = kMagicCookie
  /\ List.length (client_hardware_address_ m) = 6%nat.
Proof.
  pose proof (header_members_big_endian (unterminated_reply 0) 243 blank
                ltac:(vm_compute; split; discriminate))
    as ((Hxid & _ & Hyi & _ & _ & Hco) & _).
  cbn zeta in *.
  rewrite Hxid, Hyi, Hco.
  repeat split; try (vm_compute; reflexivity).
Defined.

End DecodeOutcomes.

(* ===================================================================== *)
(** * More on the checksum: order, padding, the value 0xFFFF, corruption *)
(* ===================================================================== *)

Module ChecksumOrder.
Import Checksum ChecksumFacts.

Lemma word_sum_nonneg data : 0 <= word_sum data.
Proof. pose proof (word_sum_range data). lia. Qed.

Lemma word_sum_zeros n : word_sum (repeat Byte.x00 n) = 0.
Proof.
  assert (H : word_sum (repeat Byte.x00 n) = 0
              /\ word_sum (repeat Byte.x00 (S n)) = 0).
  { induction n as [|n [IH1 IH2]]; [split; reflexivity|].
    split; [exact IH2|]. cbn [repeat word_sum] in *. rewrite u8_x00. lia. }
  apply H.
Qed.

Lemma word_sum_padded data n :
  word_sum (data ++ repeat Byte.x00 n) = word_sum data.
Proof.
  induction data as [|x|x y data IH] using list_pair_ind.
  - apply word_sum_zeros.
  - destruct n as [|n]; [reflexivity|].
    cbn [app repeat word_sum]. rewrite word_sum_zeros, u8_x00. lia.
  - cbn [app word_sum]. rewrite IH. reflexivity.
Qed.

(** X10. The checksum does not depend on the order of the 16-bit words:
    exchanging two neighbouring blocks of even length, at an even offset,
    leaves it unchanged, for buffers of any length. *)
Theorem checksum_word_order pre a b post :
  Nat.Even (length pre) -> Nat.Even (length a) -> Nat.Even (length b) ->
  ComputeChecksum (pre ++ a ++ b ++ post)
  = ComputeChecksum (pre ++ b ++ a ++ post).
Proof.
  intros Hpre Ha Hb. rewrite !ComputeChecksum_word_sum.
  rewrite !word_sum_app by assumption.
  apply (f_equal fold_complement), (f_equal uint32). lia.
Qed.

Lemma checksum_word_order_witness :
  ComputeChecksum (map byte_of_Z [0x45; 0x00] ++ map byte_of_Z [0xc0; 0xa8]
                   ++ map byte_of_Z [0x01; 0x64; 0xff; 0xff]
                   ++ map byte_of_Z [0x07])
  = ComputeChecksum (map byte_of_Z [0x45; 0x00]
                     ++ map byte_of_Z [0x01; 0x64; 0xff; 0xff]
                     ++ map byte_of_Z [0xc0; 0xa8] ++ map byte_of_Z [0x07]).
Proof.
  apply (checksum_word_order (map byte_of_Z [0x45; 0x00])
           (map byte_of_Z [0xc0; 0xa8])
           (map byte_of_Z [0x01; 0x64; 0xff; 0xff]) (map byte_of_Z [0x07])).
  - exists 1%nat. reflexivity.
  - exists 1%nat. reflexivity.
  - exists 2%nat. reflexivity.
Defined.

(** X11. Zero bytes appended to a buffer, any number of them and whatever
    the length of the buffer, do not change its checksum; the empty buffer
    has the checksum 0xFFFF. *)
Theorem checksum_zero_padding :
  (forall data n,
     ComputeChecksum (data ++ repeat Byte.x00 n) = ComputeChecksum data)
  /\ ComputeChecksum [] = 0xFFFF.
Proof.
  split; [|reflexivity].
  intros data n. rewrite !ComputeChecksum_word_sum, word_sum_padded.
  reflexivity.
Qed.

Lemma u8_zero b : u8 b = 0 -> b = Byte.x00.
Proof.
  unfold u8. intros H.
  assert (Hn : Byte.to_N b = Byte.to_N Byte.x00) by (cbn; lia).
  pose proof (Byte.of_to_N b) as H1. rewrite Hn in H1.
  rewrite Byte.of_to_N in H1. congruence.
Qed.

Lemma word_sum_zero_iff data :
  word_sum data = 0 <-> Forall (fun b => b = Byte.x00) data.
Proof.
  induction data as [|x|x y data IH] using list_pair_ind.
  - split; [constructor|reflexivity].
  - cbn [word_sum]. pose proof (u8_range x) as Hx. split.
    + intros H. constructor; [apply u8_zero; lia|constructor].
    + intros H. inversion H; subst. rewrite u8_x00. reflexivity.
  - cbn [word_sum]. pose proof (u8_range x) as Hx.
    pose proof (u8_range y) as Hy.
    pose proof (word_sum_nonneg data) as Hd. split.
    + intros H0. constructor; [apply u8_zero; lia|].
      constructor; [apply u8_zero; lia|]. apply IH. lia.
    + intros H0. inversion H0 as [|? ? -> H1]; subst.
      inversion H1 as [|? ? -> H2]; subst.
      apply IH in H2. rewrite u8_x00, H2. reflexivity.
Qed.

Lemma end_around_range t : 0 <= t -> 0 <= end_around t <= 65535.
Proof.
  intros Ht. unfold end_around. destruct (Z.eqb_spec t 0); [lia|].
  pose proof (Z.mod_pos_bound (t - 1) 65535 ltac:(lia)). lia.
Qed.

Lemma end_around_zero t : 0 <= t -> (end_around t = 0 <-> t = 0).
Proof.
  intros Ht. unfold end_around. destruct (Z.eqb_spec t 0); [tauto|].
  pose proof (Z.mod_pos_bound (t - 1) 65535 ltac:(lia)). lia.
Qed.

(** X12. The checksum is a 16-bit value, and it is 0xFFFF exactly when the
    32-bit sum of the words is 0: for a buffer of at most 2^17 bytes,
    exactly when every byte of the buffer is zero. *)
Theorem checksum_all_ones_iff data :
  0 <= ComputeChecksum data <= 0xFFFF
  /\ (ComputeChecksum data = 0xFFFF <-> sum_loop data 0 = 0)
  /\ (Z.of_nat (length data) <= 2 ^ 17 ->
      (ComputeChecksum data = 0xFFFF
       <-> Forall (fun b => b = Byte.x00) data)).
Proof.
  assert (Hsum : sum_loop data 0 = uint32 (word_sum data)).
  { change 0 with (uint32 0) at 1. rewrite sum_loop_word_sum. reflexivity. }
  assert (Hs : 0 <= uint32 (word_sum data) < 2 ^ 32)
    by (apply Z.mod_pos_bound; lia).
  pose proof (fold_complement_end_around _ Hs) as Hfc.
  pose proof (end_around_range (uint32 (word_sum data)) ltac:(lia)) as Hr.
  pose proof (end_around_zero (uint32 (word_sum data)) ltac:(lia)) as Hz.
  rewrite ComputeChecksum_word_sum, Hsum, Hfc.
  split; [lia|]. split; [lia|].
  intros Hlen. rewrite <- word_sum_zero_iff.
  pose proof (word_sum_range data) as Hws.
  change (2 ^ 17) with 131072 in Hlen.
  unfold uint32 in *. rewrite Z.mod_small in * by lia. lia.
Qed.

Lemma checksum_all_ones_iff_witness :
  ComputeChecksum (map byte_of_Z [0; 0; 1]) <> 0xFFFF.
Proof.
  intros H.
  apply (proj2 (proj2 (checksum_all_ones_iff (map byte_of_Z [0; 0; 1])))
           ltac:(vm_compute; discriminate)) in H.
  inversion H as [|? ? _ Ha]. inversion Ha as [|? ? _ Hb].
  inversion Hb as [|? ? Hc _]. discriminate Hc.
Defined.

Lemma u8_inj b b' : u8 b = u8 b' -> b = b'.
Proof.
  unfold u8. intros H.
  assert (Hn : Byte.to_N b = Byte.to_N b') by lia.
  pose proof (Byte.of_to_N b) as H1. rewrite Hn, Byte.of_to_N in H1.
  congruence.
Qed.

(** The share of one byte in the word sum: high or low half of its word,
    by the parity of its offset. *)
Lemma word_sum_byte pre b post :
  word_sum (pre ++ b :: post)
  = word_sum (pre ++ Byte.x00 :: post)
    + u8 b * (if Nat.even (length pre) then 256 else 1).
Proof.
  induction pre as [|x|x y pre IH] using list_pair_ind.
  - destruct post as [|d rest]; cbn [app word_sum length Nat.even];
      rewrite u8_x00; lia.
  - cbn [app word_sum length Nat.even]. rewrite u8_x00. lia.
  - cbn [app word_sum length Nat.even]. rewrite IH. lia.
Qed.

Lemma end_around_mod t : 0 <= t -> end_around t mod 65535 = t mod 65535.
Proof.
  intros Ht. unfold end_around. destruct (Z.eqb_spec t 0) as [->|];
    [reflexivity|].
  rewrite Zplus_mod_idemp_l. f_equal. lia.
Qed.

(** X13. In a buffer of at most 2^17 bytes, changing the value of one byte
    always changes the checksum. *)
Theorem single_byte_change_detected pre b b' post :
  b <> b' ->
  Z.of_nat (length (pre ++ b :: post)) <= 2 ^ 17 ->
  ComputeChecksum (pre ++ b :: post) <> ComputeChecksum (pre ++ b' :: post).
Proof.
  intros Hne Hlen Heq.
  assert (Hlen' : Z.of_nat (length (pre ++ b' :: post)) <= 2 ^ 17).
  { rewrite length_app in *. cbn [length] in *. exact Hlen. }
  change (2 ^ 17) with 131072 in *.
  pose proof (word_sum_range (pre ++ b :: post)) as Hr.
  pose proof (word_sum_range (pre ++ b' :: post)) as Hr'.
  rewrite !ComputeChecksum_word_sum in Heq.
  unfold uint32 in Heq. rewrite !Z.mod_small in Heq by lia.
  rewrite !fold_complement_end_around in Heq by lia.
  assert (Hmod : word_sum (pre ++ b :: post) mod 65535
                 = word_sum (pre ++ b' :: post) mod 65535).
  { assert (He : end_around (word_sum (pre ++ b :: post))
                 = end_around (word_sum (pre ++ b' :: post))) by lia.
    rewrite <- (end_around_mod (word_sum (pre ++ b :: post))) by lia.
    rewrite He. apply end_around_mod. lia. }
  rewrite (word_sum_byte pre b post), (word_sum_byte pre b' post) in Hmod.
  set (w := if Nat.even (length pre) then 256 else 1) in *.
  assert (Hw : w = 256 \/ w = 1) by (subst w; destruct (Nat.even _); auto).
  set (base := word_sum (pre ++ Byte.x00 :: post)) in *.
  pose proof (u8_range b) as Hb. pose proof (u8_range b') as Hb'.
  assert (Hu : u8 b <> u8 b') by (intros H; apply Hne, u8_inj, H).
  pose proof (Z.div_mod (base + u8 b * w) 65535 ltac:(lia)) as Hd.
  pose proof (Z.div_mod (base + u8 b' * w) 65535 ltac:(lia)) as Hd'.
  rewrite Hmod in Hd.
  set (q := (base + u8 b * w) / 65535) in *.
  set (q' := (base + u8 b' * w) / 65535) in *.
  assert (Hdiff : (u8 b - u8 b') * w = 65535 * (q - q')) by lia.
  destruct Hw as [-> | ->]; lia.
Qed.

Lemma single_byte_change_detected_witness :
  ComputeChecksum (map byte_of_Z [0x45; 0x00] ++ byte_of_Z 0x1c :: [])
  <> ComputeChecksum (map byte_of_Z [0x45; 0x00] ++ byte_of_Z 0x1d :: []).
Proof.
  apply (single_byte_change_detected (map byte_of_Z [0x45; 0x00])
           (byte_of_Z 0x1c) (byte_of_Z 0x1d) []).
  - vm_compute. discriminate.
  - vm_compute. discriminate.
Defined.

End ChecksumOrder.

(* ===================================================================== *)
(** * What the result depends on *)
(* ===================================================================== *)

Module Dependence.
Import Decoder HeaderFacts ParserFacts ScanFacts InitFacts ScanOutcomes
       DecodeOutcomes.

Lemma load_be32_agree (mem1 mem2 : memory) a s :
  agree mem1 mem2 a (a + 4) -> load_be32 mem1 a s = load_be32 mem2 a s.
Proof.
  intros H. rewrite !load_be32_spec. unfold be32_at.
  rewrite (H a), (H (a + 1)), (H (a + 2)), (H (a + 3)) by lia. reflexivity.
Qed.

Lemma load_be32_list_agree (mem1 mem2 : memory) n : forall a s,
  agree mem1 mem2 a (a + 4 * Z.of_nat n) ->
  load_be32_list mem1 a n s = load_be32_list mem2 a n s.
Proof.
  induction n as [|n IH]; intros a s H; [reflexivity|].
  cbn [load_be32_list]. unfold bind at 1 3.
  rewrite (load_be32_agree mem1 mem2 a s) by (intros x Hx; apply H; lia).
  destruct (load_be32 mem2 a s) as [[e|v] s1]; [reflexivity|].
  unfold bind. rewrite (IH (a + 4) s1) by (intros x Hx; apply H; lia).
  reflexivity.
Qed.

Lemma GetOption_agree (mem1 mem2 : memory) context buffer length s :
  0 <= length ->
  agree mem1 mem2 buffer (buffer + length) ->
  GetOption mem1 context buffer length s
  = GetOption mem2 context buffer length s.
Proof.
  intros Hlen H. destruct context as [output|output|output]; cbn [GetOption].
  - destruct (Z.eqb_spec length 1) as [->|]; [|reflexivity].
    unfold bind at 1 3. rewrite !load_u8_spec, (H buffer) by lia. reflexivity.
  - destruct (Z.eqb_spec length 4) as [->|]; [|reflexivity].
    unfold bind at 1 3. rewrite (load_be32_agree mem1 mem2) by exact H.
    reflexivity.
  - destruct ((length =? 0) || negb (length mod 4 =? 0)); [reflexivity|].
    unfold bind at 1 3.
    rewrite (load_be32_list_agree mem1 mem2).
    + reflexivity.
    + intros a Ha. apply H.
      assert (4 * (length / 4) <= length) by (apply Z.mul_div_le; lia).
      assert (0 <= length / 4) by (apply Z.div_pos; lia).
      lia.
Qed.

Lemma loop_body_agree (mem1 mem2 : memory) end_ptr ptr options_set s :
  ptr < end_ptr ->
  agree mem1 mem2 ptr end_ptr ->
  loop_body mem1 end_ptr ptr options_set s
  = loop_body mem2 end_ptr ptr options_set s.
Proof.
  intros Hlt H. unfold loop_body.
  erewrite !bind_inr by apply load_u8_spec.
  rewrite (H ptr) by lia.
  destruct (u8 (mem2 ptr) =? kDHCPOptionPad); [reflexivity|].
  destruct (u8 (mem2 ptr) =? kDHCPOptionEnd); [reflexivity|].
  destruct (Z.leb_spec end_ptr (ptr + 1)); [reflexivity|].
  erewrite !bind_inr by apply load_u8_spec.
  rewrite (H (ptr + 1)) by lia.
  pose proof (u8_range (mem2 (ptr + 1))).
  destruct (Z.leb_spec end_ptr (ptr + 1 + 1 + u8 (mem2 (ptr + 1))));
    [reflexivity|].
  destruct (bool_decide _); [reflexivity|].
  destruct (options_map_ !! u8 (mem2 ptr)); [|reflexivity].
  unfold bind.
  rewrite (GetOption_agree mem1 mem2) by (lia || (intros a Ha; apply H; lia)).
  reflexivity.
Qed.

Lemma parse_loop_agree (mem1 mem2 : memory) end_ptr ptr options_set s :
  agree mem1 mem2 ptr end_ptr ->
  parse_loop mem1 end_ptr ptr options_set s
  = parse_loop mem2 end_ptr ptr options_set s.
Proof.
  apply (parse_loop_elim mem1
    (fun end_ptr ptr options_set s r =>
       agree mem1 mem2 ptr end_ptr ->
       r = parse_loop mem2 end_ptr ptr options_set s)).
  - intros e p Hge o s0 _ _. rewrite parse_loop_exhausted by lia.
    reflexivity.
  - intros e p Hlt o s0 err s1 Hbody _ _ H.
    rewrite parse_loop_unfold. destruct (Z_lt_dec p e); [|lia].
    rewrite <- (loop_body_agree mem1 mem2) by assumption.
    rewrite Hbody. reflexivity.
  - intros e p Hlt o s0 s1 Hbody _ _ H.
    rewrite parse_loop_unfold. destruct (Z_lt_dec p e); [|lia].
    rewrite <- (loop_body_agree mem1 mem2) by assumption.
    rewrite Hbody. reflexivity.
  - intros e p Hlt o s0 p1 o1 s1 Hbody IH _ _ H.
    rewrite (parse_loop_unfold mem2 e p). destruct (Z_lt_dec p e); [|lia].
    rewrite <- (loop_body_agree mem1 mem2) by assumption.
    rewrite Hbody. apply IH.
    apply loop_body_advances in Hbody. intros a Ha. apply H. lia.
Qed.

(** X14. The scan depends on nothing but the bytes of the area it was
    given: over two memories that hold the same bytes from [options] up to
    the end, the call gives the same result and leaves the same message
    and the same reads. *)
Theorem option_scan_depends_on_area (mem1 mem2 : memory)
  options options_length s :
  agree mem1 mem2 options (size_t (options + options_length)) ->
  ParseDHCPOptions mem1 options options_length s
  = ParseDHCPOptions mem2 options options_length s.
Proof.
  intros H. unfold ParseDHCPOptions. cbn zeta.
  apply parse_loop_agree. exact H.
Qed.

Lemma option_scan_depends_on_area_witness :
  ParseDHCPOptions (memory_of [53; 1; 5; 255; 1; 2; 3]) 0 4 blank
  = ParseDHCPOptions (memory_of [53; 1; 5; 255; 9; 9; 9; 9]) 0 4 blank.
Proof.
  apply (option_scan_depends_on_area
           (memory_of [53; 1; 5; 255; 1; 2; 3])
           (memory_of [53; 1; 5; 255; 9; 9; 9; 9]) 0 4 blank).
  intros a Ha. change (size_t (0 + 4)) with 4 in Ha.
  assert (Hcases : a = 0 \/ a = 1 \/ a = 2 \/ a = 3) by lia.
  destruct Hcases as [->|[->|[->| ->]]]; reflexivity.
Defined.

Ltac raw_offsets :=
  change Raw.op with 0 in *; change Raw.htype with 1 in *;
  change Raw.hlen with 2 in *; change Raw.hops with 3 in *;
  change Raw.xid with 4 in *; change Raw.secs with 8 in *;
  change Raw.flags with 10 in *; change Raw.ciaddr with 12 in *;
  change Raw.yiaddr with 16 in *; change Raw.siaddr with 20 in *;
  change Raw.giaddr with 24 in *; change Raw.chaddr with 28 in *;
  change Raw.sname with 44 in *; change Raw.file with 108 in *;
  change Raw.cookie with 236 in *; change Raw.options with 240 in *.

(** Agreement on a window can be checked byte by byte. *)
Lemma agree_checked (mem1 mem2 : memory) lo n :
  forallb (fun a => u8 (mem1 a) =? u8 (mem2 a)) (offsets lo n) = true ->
  agree mem1 mem2 lo (lo + Z.of_nat n).
Proof.
  intros H a Ha. rewrite forallb_forall in H.
  apply ChecksumOrder.u8_inj. apply Z.eqb_eq. apply H.
  unfold offsets. apply in_map_iff. exists (Z.to_nat (a - lo)).
  split; [lia|]. apply in_seq. lia.
Qed.

Lemma bytes_at_agree (mem1 mem2 : memory) a n :
  agree mem1 mem2 a (a + Z.of_nat n) ->
  bytes_at mem1 a n = bytes_at mem2 a n.
Proof.
  intros H. unfold bytes_at. apply map_ext_in. intros x Hx.
  pose proof (offsets_range a n) as Hr.
  rewrite List.Forall_forall in Hr. apply H. apply Hr. exact Hx.
Qed.

Lemma be16_at_agree (mem1 mem2 : memory) a :
  agree mem1 mem2 a (a + 2) -> be16_at mem1 a = be16_at mem2 a.
Proof.
  intros H. unfold be16_at. rewrite (H a), (H (a + 1)) by lia. reflexivity.
Qed.

Lemma be32_at_agree (mem1 mem2 : memory) a :
  agree mem1 mem2 a (a + 4) -> be32_at mem1 a = be32_at mem2 a.
Proof.
  intros H. unfold be32_at.
  rewrite (H a), (H (a + 1)), (H (a + 2)), (H (a + 3)) by lia. reflexivity.
Qed.

(** The six values [IsValid] tests lie in the first 240 bytes. *)
Lemma header_invariants_agree (mem1 mem2 : memory) :
  agree mem1 mem2 0 Raw.options ->
  header_invariants (header_at mem1) <-> header_invariants (header_at mem2).
Proof.
  intros H. unfold header_invariants, header_at. cbn.
  rewrite (H Raw.op), (H Raw.htype), (H Raw.hlen) by (raw_offsets; lia).
  rewrite (be16_at_agree mem1 mem2 Raw.secs),
    (be16_at_agree mem1 mem2 Raw.flags),
    (be32_at_agree mem1 mem2 Raw.cookie)
    by (intros x Hx; apply H; raw_offsets; lia).
  tauto.
Qed.

(** With a hardware address length of at most 212 the whole header lies in
    the first 240 bytes. *)
Lemma header_at_agree (mem1 mem2 : memory) :
  agree mem1 mem2 0 Raw.options ->
  u8 (mem1 Raw.hlen) <= 212 ->
  header_at mem1 = header_at mem2 /\ header_reads mem1 = header_reads mem2.
Proof.
  intros H Hhlen. unfold header_at, header_reads.
  pose proof (u8_range (mem1 Raw.hlen)) as Hr.
  rewrite <- (H Raw.hlen) by (raw_offsets; lia).
  rewrite (H Raw.op), (H Raw.htype), (H Raw.hops) by (raw_offsets; lia).
  rewrite (be16_at_agree mem1 mem2 Raw.secs),
    (be16_at_agree mem1 mem2 Raw.flags),
    (be32_at_agree mem1 mem2 Raw.cookie),
    (be32_at_agree mem1 mem2 Raw.xid),
    (be32_at_agree mem1 mem2 Raw.ciaddr),
    (be32_at_agree mem1 mem2 Raw.yiaddr),
    (be32_at_agree mem1 mem2 Raw.siaddr),
    (be32_at_agree mem1 mem2 Raw.giaddr)
    by (intros x Hx; apply H; raw_offsets; lia).
  rewrite (bytes_at_agree mem1 mem2 Raw.chaddr),
    (bytes_at_agree mem1 mem2 Raw.sname),
    (bytes_at_agree mem1 mem2 Raw.file)
    by (intros x Hx; apply H; raw_offsets;
        unfold kServerNameLength, kBootFileLength in *; lia).
  split; reflexivity.
Qed.

(** X15. Whether a datagram of accepted length is accepted, and with which
    failure it is rejected, depends on the bytes at the offsets 0 to
    [length] (or to 239, for a length below 240) and on nothing else: the
    datagram itself and at most the cookie or the one byte behind it. When
    the call returns [true] the whole message and the reads are the same
    as well. *)
Theorem decode_depends_on_datagram (mem1 mem2 : memory) length s :
  kDHCPMessageMinLength <= length <= kDHCPMessageMaxLength ->
  agree mem1 mem2 0 (Z.max (length + 1) Raw.options) ->
  (InitFromBuffer (Some mem1) length s).1
  = (InitFromBuffer (Some mem2) length s).1
  /\ ((InitFromBuffer (Some mem1) length s).1 = inr tt ->
      InitFromBuffer (Some mem1) length s
      = InitFromBuffer (Some mem2) length s).
Proof.
  intros Hlen H.
  assert (Hhead : agree mem1 mem2 0 Raw.options)
    by (intros x Hx; apply H; lia).
  pose proof (header_invariants_agree mem1 mem2 Hhead) as Hinv.
  pose proof (IsValid_iff (assign_header (header_at mem1) (message s))) as Hv1.
  pose proof (IsValid_iff (assign_header (header_at mem2) (message s))) as Hv2.
  rewrite header_of_assign in Hv1, Hv2.
  rewrite !InitFromBuffer_accepted by exact Hlen.
  destruct (IsValid (assign_header (header_at mem1) (message s))) eqn:E1;
    destruct (IsValid (assign_header (header_at mem2) (message s))) eqn:E2.
  - assert (Hhlen : u8 (mem1 Raw.hlen) <= 212).
    { assert (Hi : header_invariants (header_at mem1))
        by (apply Hv1; reflexivity).
      destruct Hi as (_ & _ & Hl & _). cbn in Hl. rewrite Hl.
      unfold IFHWADDRLEN. lia. }
    destruct (header_at_agree mem1 mem2 Hhead Hhlen) as [Hh Hr].
    assert (Hafter : after_header mem1 s = after_header mem2 s)
      by (unfold after_header; rewrite Hh, Hr; reflexivity).
    rewrite Hafter.
    assert (Hscan : ParseDHCPOptions mem1 Raw.options
                      (size_t (0 + length - Raw.options + 1))
                      (after_header mem2 s)
                    = ParseDHCPOptions mem2 Raw.options
                        (size_t (0 + length - Raw.options + 1))
                        (after_header mem2 s)).
    { unfold ParseDHCPOptions. cbn zeta.
      apply parse_loop_agree. rewrite (options_end_ptr length Hlen).
      intros x Hx. apply H. raw_offsets. lia. }
    rewrite Hscan. split; [reflexivity|auto].
  - exfalso. assert (Hi : header_invariants (header_at mem2))
      by (apply Hinv, Hv1; reflexivity).
    apply Hv2 in Hi. discriminate.
  - exfalso. assert (Hi : header_invariants (header_at mem1))
      by (apply Hinv, Hv2; reflexivity).
    apply Hv1 in Hi. discriminate.
  - cbn. split; [reflexivity|discriminate].
Qed.

Lemma decode_depends_on_datagram_witness :
  (InitFromBuffer
     (Some (memory_of (reply_header 6 ++ [53; 1; 5; 255; 0; 1; 2]))) 244
     blank).1
  = (InitFromBuffer
       (Some (memory_of (reply_header 6 ++ [53; 1; 5; 255; 0; 7; 7; 7]))) 244
       blank).1.
Proof.
  apply (decode_depends_on_datagram
           (memory_of (reply_header 6 ++ [53; 1; 5; 255; 0; 1; 2]))
           (memory_of (reply_header 6 ++ [53; 1; 5; 255; 0; 7; 7; 7]))
           244 blank).
  - vm_compute. split; discriminate.
  - apply (agree_checked _ _ 0 245). vm_compute. reflexivity.
Defined.

End Dependence.
